(** * Post-processing error mitigation (error_mitigator.py)

    A shallow embedding of the histogram post-processing code of
    [src/qlbm_mcgill/error_mitigator.py]: the equalizer, the combination step
    of probabilistic error cancellation, the per-bitstring part of
    zero-noise extrapolation, readout-error mitigation, the in-memory table
    of PEC representations and the orchestrating [mitigate] method.

    Conventions of the model.
    - A Python dict with string keys is a [gmap string _]: Python compares
      dicts regardless of insertion order, and so does [gmap].
    - Python numbers are [pynum]: an [int] is a [Z], a [float] is an exact
      rational. This is the model of the parts whose results do not depend
      on rounding (equalization, the shape of the extrapolated histograms,
      the control flow of [mitigate] and [pec], division by zero).
    - Where rounding decides a returned count (readout correction and the
      combination step of probabilistic error cancellation) the code is
      modelled a second time with IEEE 754 binary64 floats, in the modules
      whose names end in 64.
    - Code that can raise returns a [result]; the order in which Python
      evaluates is the order of the binds.
    - Calls into qiskit, mitiq and PyIBU are variables of the sections that
      use them. *)

From Stdlib Require Import QArith Qround Lia Lqa Ascii String SpecFloat.
From stdpp Require Import gmap strings list fin_maps pretty sorting.

Open Scope Z_scope.

(** ** Python numbers *)

Inductive pynum : Type :=
  | PyInt (z : Z)
  | PyFloat (q : Q).

(** The numeric value of a Python number. *)
Definition num_val (x : pynum) : Q :=
  match x with
  | PyInt z => inject_Z z
  | PyFloat q => q
  end.

(** [a < b] on Python numbers (mixed int/float comparison is exact). *)
Definition py_lt (a b : pynum) : bool := negb (Qle_bool (num_val b) (num_val a)).

(** [a == b] on Python numbers: [0 == 0.0] holds. *)
Definition py_eq (a b : pynum) : Prop := (num_val a == num_val b)%Q.

(** [int(x)] for a float [x]: truncation toward zero. *)
Definition py_int (q : Q) : Z :=
  if Qle_bool 0 q then Qfloor q else Qceiling q.

(** [a + b]: an int when both are, a float otherwise. *)
Definition py_add (a b : pynum) : pynum :=
  match a, b with
  | PyInt x, PyInt y => PyInt (x + y)
  | _, _ => PyFloat (num_val a + num_val b)
  end.

(** [sum(l)]: starts from the int 0 and adds from the left. *)
Definition py_sum (l : list pynum) : pynum := foldl py_add (PyInt 0) l.

(** ** Exceptions *)

Inductive exn : Type :=
  TypeError | ZeroDivisionError | IndexError | ValueError | OverflowError.

Inductive result (A : Type) : Type :=
  | Ok (a : A)
  | Raise (e : exn).
Arguments Ok {A} a.
Arguments Raise {A} e.

#[global] Instance result_ret : MRet result := λ A a, Ok a.
#[global] Instance result_bind : MBind result := λ A B f m,
  match m with
  | Ok a => f a
  | Raise e => Raise e
  end.
#[global] Instance result_fmap : FMap result := λ A B f m,
  match m with
  | Ok a => Ok (f a)
  | Raise e => Raise e
  end.

Definition is_ok {A} (r : result A) : Prop := ∃ a, r = Ok a.
Definition raises {A} (r : result A) : Prop := ∃ e, r = Raise e.

(** A list comprehension whose element expression can raise: elements are
    evaluated left to right and the first exception propagates. *)
Fixpoint comprehension {A B} (f : A → result B) (l : list A) : result (list B) :=
  match l with
  | [] => Ok []
  | x :: l' => y ← f x; ys ← comprehension f l'; Ok (y :: ys)
  end.

(** [a / b], true division: the result is a float, a zero divisor raises. *)
Definition py_div (a b : pynum) : result pynum :=
  if Qeq_bool (num_val b) 0 then Raise ZeroDivisionError
  else Ok (PyFloat (num_val a / num_val b)).

(** ** Histograms *)

(** bitstring -> count *)
Abbreviation Hist := (gmap string pynum).

(** [count.values()] *)
Definition values {A} (m : gmap string A) : list A := (map_to_list m).*2.

(** [counts.get(bitstring, 0)] *)
Definition get0 (counts : Hist) (b : string) : pynum :=
  default (PyInt 0) (counts !! b).

(** Python's [==] on two histograms: same keys, numerically equal values. *)
Definition hist_eq (h1 h2 : Hist) : Prop :=
  ∀ b, option_Forall2 py_eq (h1 !! b) (h2 !! b).

(** A dict comprehension [{key: f(key, val) for key, val in m.items()}] whose
    value expression can raise. *)
Fixpoint comprehension_items {A B} (f : string → A → result B)
    (l : list (string * A)) : result (list (string * B)) :=
  match l with
  | [] => Ok []
  | (key, val) :: l' =>
      y ← f key val; ys ← comprehension_items f l'; Ok ((key, y) :: ys)
  end.

Definition dict_comprehension {A B} (f : string → A → result B)
    (m : gmap string A) : result (gmap string B) :=
  list_to_map <$> comprehension_items f (map_to_list m).

(** [dict(pairs)]: a later pair overrides an earlier one with the same key. *)
Definition py_dict {A} (pairs : list (string * A)) : gmap string A :=
  foldl (λ d p, <[p.1 := p.2]> d) ∅ pairs.

(** A dict read in insertion order ([d.values()] after the assignments
    [d[key] = v]): an assignment to a key already present keeps its place. *)
Fixpoint odict_set {A} (key : string) (v : A) (d : list (string * A))
    : list (string * A) :=
  match d with
  | [] => [(key, v)]
  | (key', v') :: d' =>
      if decide (key' = key) then (key, v) :: d'
      else (key', v') :: odict_set key v d'
  end.

(** A loop whose body can raise. *)
Fixpoint for_each {S A} (body : S → A → result S) (s : S) (l : list A)
    : result S :=
  match l with
  | [] => Ok s
  | x :: l' => s' ← body s x; for_each body s' l'
  end.

(** ** sorted *)

(** [sorted(l, key=...)]: a stable sort by [<] on the keys. *)
Fixpoint insert_sorted {A} (key : A → Q) (x : A) (l : list A) : list A :=
  match l with
  | [] => [x]
  | y :: l' =>
      if Qle_bool (key x) (key y) then x :: y :: l'
      else y :: insert_sorted key x l'
  end.

Definition sort_by {A} (key : A → Q) (l : list A) : list A :=
  foldr (insert_sorted key) [] l.

(** [sorted(l)] on numbers. *)
Definition sorted (l : list pynum) : list pynum := sort_by num_val l.

(** The keys are in non-decreasing order. *)
Definition ordered {A} (key : A → Q) (l : list A) : Prop :=
  StronglySorted (λ a b, (key a <= key b)%Q) l.

(** The number of elements that satisfy [p]. *)
Fixpoint count_if {A} (p : A → bool) (l : list A) : nat :=
  match l with
  | [] => 0
  | x :: l' => (if p x then 1 else 0) + count_if p l'
  end.

(** ** Equalizer: [ErrorMitigator.equalize] *)

Module Equalizer.
Section equalize.
(** [len(StepCircuit(self.lattice, 0).grid_qubits)] and
    [self.lattice.dims]. *)
Context (k : nat) (rows cols : Z).

(** [2 ** (len(measured_qubits) - 1)]: for no measured qubit this is the
    float 0.5, and indexing a list with it is a TypeError. *)
Definition cutoff_index : result nat :=
  match k with
  | O => Raise TypeError
  | S k' => Ok (2 ^ k')%nat
  end.

(** [sorted(list(count.values()))[2 ** (len(measured_qubits) - 1)]] *)
Definition cutoff (count : Hist) : result pynum :=
  i ← cutoff_index;
  match sorted (values count) !! i with
  | Some c => Ok c
  | None => Raise IndexError
  end.

(** [shots/(self.lattice.dims[0] * self.lattice.dims[1] * 0.5)] *)
Definition target (shots : Z) : result pynum :=
  py_div (PyInt shots) (PyFloat (inject_Z (rows * cols) * (1 # 2))).

(** The body of the loop over [count.items()]. *)
Definition eq_entry (shots : Z) (c : pynum) (key : string) (val : pynum)
    : result pynum :=
  if py_lt val c then Ok (PyInt 0) else target shots.

Definition equalize_count (shots : Z) (count : Hist) : result Hist :=
  c ← cutoff count;
  dict_comprehension (eq_entry shots c) count.

Definition equalize (counts : list Hist) (shots : Z) : result (list Hist) :=
  comprehension (equalize_count shots) counts.
End equalize.
End Equalizer.

(** What an equalized histogram holds for a cutoff [c] and a target [t]: zero
    below the cutoff, the target elsewhere. *)
Definition snap (c t : pynum) (val : pynum) : pynum :=
  if py_lt val c then PyInt 0 else t.

(** ** CancellationSampler: [ErrorMitigator._combine_pec_results]

    In exact arithmetic; [Cancellation64] below is the same code in binary
    floating point. *)

Module Cancellation.
(** The set built by [all_bitstrings.update(counts.keys())]. *)
Definition all_bitstrings (all_counts : list Hist) : gset string :=
  foldl (λ acc counts, acc ∪ dom counts) ∅ all_counts.

(** One round of the inner loop:
    [combined[bitstring] += counts.get(bitstring, 0) / total_weight]
    for every bitstring, which are the keys of [combined]. *)
Definition accumulate (total_weight : Z) (combined counts : Hist)
    : result Hist :=
  dict_comprehension
    (λ bitstring acc,
       q ← py_div (get0 counts bitstring) (PyInt total_weight);
       Ok (py_add acc q))
    combined.

(** [int(count * scaling_factor)] *)
Definition rescale (scaling_factor count : pynum) : pynum :=
  PyInt (py_int (num_val count * num_val scaling_factor)).

Definition _combine_pec_results {R} (all_counts : list Hist)
    (representation : list R) (target_shots : Z) : result Hist :=
  match all_counts with
  | [] => Ok ∅
  | _ =>
      let combined0 : Hist :=
        gset_to_gmap (PyFloat 0) (all_bitstrings all_counts) in
      let total_weight := Z.of_nat (length all_counts) in
      combined ← for_each (accumulate total_weight) combined0 all_counts;
      let total_counts := py_sum (values combined) in
      if py_lt (PyInt 0) total_counts then
        scaling_factor ← py_div (PyInt target_shots) total_counts;
        Ok (rescale scaling_factor <$> combined)
      else Ok combined
  end.
End Cancellation.

(** Sum of rationals. *)
Definition Qsum (l : list Q) : Q := foldr Qplus 0%Q l.

(** The mean of the counts of a bitstring across the samples; a sample
    without the bitstring counts 0. *)
Definition mean_count (all_counts : list Hist) (b : string) : Q :=
  (Qsum ((λ counts, num_val (get0 counts b)) <$> all_counts)
   / inject_Z (Z.of_nat (length all_counts)))%Q.

(** The total of the means over the bitstrings seen in some sample. *)
Definition total_mean (all_counts : list Hist) : Q :=
  Qsum (mean_count all_counts <$>
        elements (Cancellation.all_bitstrings all_counts)).

(** ** NoiseExtrapolator: the post-processing of [ErrorMitigator.zne] *)

(** Modelled from the spec: [generate_bitstrings] of the module [base], which
    is not part of the sources at hand; the specification has it enumerate
    all 2^k combinations over k measured qubits. *)
Fixpoint generate_bitstrings (n : nat) : list string :=
  match n with
  | O => [EmptyString]
  | S n' =>
      (String "0"%char <$> generate_bitstrings n') ++
      (String "1"%char <$> generate_bitstrings n')
  end.

Module NoiseExtrapolator.
(** [np.array([1., 1.5, 2., 2.5, 3., 3.5, 4.])] *)
Definition scale_factors : list Q :=
  [1; 3 # 2; 2; 5 # 2; 3; 7 # 2; 4]%Q.

(** [counts.get(bitstring) / shots]: [get] without a default gives [None]
    for an absent key, and [None / shots] is a TypeError. *)
Definition get_div (shots : Z) (bitstring : string) (counts : Hist)
    : result pynum :=
  match counts !! bitstring with
  | None => Raise TypeError
  | Some c => py_div c (PyInt shots)
  end.

(** The [try ... except TypeError] around the list comprehension: the handler
    replaces the whole list. *)
Definition exp_row (shots : Z) (step_counts : list Hist) (bitstring : string)
    : result (list pynum) :=
  match comprehension (get_div shots bitstring) step_counts with
  | Raise TypeError => Ok ((λ _, PyInt 0) <$> step_counts)
  | r => r
  end.

(** The dict [all_exps] of one step, in insertion order. *)
Definition all_exps (shots : Z) (step_counts : list Hist)
    (bitstrings : list string) : result (list (string * list pynum)) :=
  for_each
    (λ exps bitstring,
       row ← exp_row shots step_counts bitstring;
       Ok (odict_set bitstring row exps))
    [] bitstrings.

Section zne.
(** [zne.PolyFactory.extrapolate(scale_factors, exp, order)] of mitiq. *)
Context (extrapolate : list Q → list pynum → nat → Q).
(** [len(measured_qubits)] *)
Context (k : nat).

(** [int(znv * shots)] *)
Definition m_val (shots : Z) (znv : Q) : pynum :=
  PyInt (py_int (znv * inject_Z shots)).

(** One entry of [mitigated_counts], from the histograms of one step (one
    per scale factor). *)
Definition zne_step (shots : Z) (step_counts : list Hist) : result Hist :=
  let bitstrings := generate_bitstrings k in
  exps ← all_exps shots step_counts bitstrings;
  let zero_noise_values :=
    (λ exp, extrapolate scale_factors exp 2) <$> exps.*2 in
  let m_vals := m_val shots <$> zero_noise_values in
  Ok (py_dict (zip bitstrings m_vals)).

(** The loop over [range(0, steps)] reads [all_counts[step]]. *)
Definition zne_steps (shots : Z) (steps : nat) (all_counts : list (list Hist))
    : result (list Hist) :=
  comprehension
    (λ step,
       match all_counts !! step with
       | Some step_counts => zne_step shots step_counts
       | None => Raise IndexError
       end)
    (seq 0 steps).

(** Everything after the unfolding, with the counts of the step-zero job
    inserted first; [equalize] is the method of the same object. *)
Definition zne_post (equalization : bool) (rows cols : Z) (shots : Z)
    (steps : nat) (first : Hist) (all_counts : list (list Hist))
    : result (list Hist) :=
  mitigated ← zne_steps shots steps all_counts;
  let mitigated_counts := first :: mitigated in
  if equalization then Equalizer.equalize k rows cols mitigated_counts shots
  else Ok mitigated_counts.
End zne.
End NoiseExtrapolator.

(** The expectation values the extrapolation is fed for a bitstring: counts
    over shots when every scale factor saw the bitstring, zeros at every
    scale factor otherwise. *)
Definition expected_row (shots : Z) (step_counts : list Hist) (b : string)
    : list pynum :=
  if decide (Forall (λ counts : Hist, is_Some (counts !! b)) step_counts)
  then (λ counts, PyFloat (num_val (get0 counts b) / inject_Z shots))
         <$> step_counts
  else (λ _, PyInt 0) <$> step_counts.

(** ** ReadoutCorrector: [ErrorMitigator.rem]

    In exact arithmetic; [ReadoutCorrector64] below is the same code in
    binary floating point. *)

Module ReadoutCorrector.
Section rem.
(** The mitigator of the calibration (from the table or from a fresh
    experiment) and the distributions of qiskit:
    [mitigator.quasi_probabilities(count)],
    [prob.nearest_probability_distribution()] and
    [.binary_probabilities()]. *)
Context {Quasi Prob : Type}.
Context (quasi_probabilities : Hist → Quasi).
Context (nearest_probability_distribution : Quasi → Prob).
Context (binary_probabilities : Prob → gmap string Q).

(** [{label: int(prob * shots) for label, prob in mitigated_prob.items()}] *)
Definition to_counts (shots : Z) (mitigated_prob : gmap string Q) : Hist :=
  (λ prob, PyInt (py_int (prob * inject_Z shots))) <$> mitigated_prob.

Definition rem (shots : Z) (counts : list Hist) : list Hist :=
  let mitigated_quasi_probs := quasi_probabilities <$> counts in
  let mitigated_probs :=
    (λ prob, binary_probabilities (nearest_probability_distribution prob))
      <$> mitigated_quasi_probs in
  to_counts shots <$> mitigated_probs.
End rem.
End ReadoutCorrector.

(** ** IterativeUnfolder: [ErrorMitigator.ibu] *)

Module IterativeUnfolder.
Section ibu.
Context {Circuit : Type}.
(** The guess of PyIBU after training on the observed counts, for the
    response matrices of the measured qubits of a circuit:
    [prob[0]] for every label of [ibu.guess_as_dict()]. *)
Context (guess_as_dict : Circuit → Hist → gmap string Q).

Definition ibu (qcs : list Circuit) (shots : Z) (counts : list Hist)
    : result (list Hist) :=
  match qcs with
  | [] => Raise IndexError   (* measured_qubits_list[0] *)
  | _ =>
      comprehension
        (λ '(i, qc),
           match counts !! i with
           | Some obs =>
               Ok ((λ prob, PyInt (py_int (prob * inject_Z shots)))
                     <$> guess_as_dict qc obs)
           | None => Raise IndexError
           end)
        (imap pair qcs)
  end.
End ibu.
End IterativeUnfolder.

(** ** The table of PEC representations: [PECConfig], [PECTable] and
       [ErrorMitigator.generate_pec_representations] *)

Module PEC.
(** The dict returned by [PECConfig.get_config]. *)
Record Config : Type := {
  noise_level : Q;
  num_samples : Z;
  max_samples : Z;
  preferred_samples : option Z
}.

(** [config.update(cls.BACKEND_CONFIGS.get(backend_name, {}))] *)
Definition backend_update (backend_name : string) (config : Config) : Config :=
  if decide (backend_name = "ibm_brisbane"%string) then
    {| noise_level := 8 # 1000; num_samples := num_samples config;
       max_samples := 8000; preferred_samples := Some 4000 |}
  else config.

(** [cls.LATTICE_CONFIGS.get(tuple(lattice_dims), {})]: samples and noise
    level. *)
Definition LATTICE_CONFIGS (lattice_dims : Z * Z) : option (Z * Q) :=
  if decide (lattice_dims = (2, 2)) then Some (8000, 8 # 1000)
  else if decide (lattice_dims = (4, 4)) then Some (5000, 10 # 1000)
  else if decide (lattice_dims = (6, 6)) then Some (3000, 12 # 1000)
  else if decide (lattice_dims = (8, 8)) then Some (2000, 15 # 1000)
  else None.

Definition get_config (backend_name : string) (lattice_dims : Z * Z) : Config :=
  let config :=
    backend_update backend_name
      {| noise_level := 1 # 100; num_samples := 5000;
         max_samples := 10000; preferred_samples := None |} in
  match LATTICE_CONFIGS lattice_dims with
  | Some (samples, level) =>
      {| noise_level := level; num_samples := samples;
         max_samples := max_samples config;
         preferred_samples := preferred_samples config |}
  | None => config
  end.

Section table.
Context {Circuit Repr : Type}.
(** [circuit.depth()], [str(circuit.count_ops())] and Python's [hash] on
    strings. *)
Context (depth : Circuit → Z) (gate_counts : Circuit → string).
Context (hash : string → Z).
(** [pec.represent_operations_in_circuit_with_local_depolarizing_noise]
    of mitiq, the expensive construction: its first argument says how many
    constructions ran before this one (the call need not be repeatable);
    [None] when it raises. *)
Context (represent : nat → Circuit → Q → Z → option (list Repr)).

(** [PECTable.representations] *)
Record PECTable : Type := { representations : gmap string (list Repr) }.

Definition get_key (backend_name : string) (circuit : Circuit) : string :=
  backend_name +:+ "_" +:+ pretty (depth circuit) +:+ "_" +:+
  pretty (hash (gate_counts circuit)).

Definition store (key : string) (reprs : list Repr) (t : PECTable) : PECTable :=
  {| representations := <[key := reprs]> (representations t) |}.

Definition load (key : string) (t : PECTable) : option (list Repr) :=
  representations t !! key.

(** The table of the mitigator, and the circuits for which the
    construction has been run so far, oldest first. *)
Record State : Type := { pec_table : PECTable; constructed : list Circuit }.

Definition initial : State :=
  {| pec_table := {| representations := ∅ |}; constructed := [] |}.

(** The body of the loop over the circuits: the state after it and the
    representation appended to the result. *)
Definition request (backend_name : string) (pec_config : Config)
    (num_samples : Z) (st : State) (circuit : Circuit)
    : State * list Repr :=
  let key := get_key backend_name circuit in
  match load key (pec_table st) with
  | Some cached_repr => (st, cached_repr)
  | None =>
      let ran := constructed st ++ [circuit] in
      match represent (length (constructed st)) circuit
              (noise_level pec_config)
              (Z.min num_samples (max_samples pec_config)) with
      | Some representation =>
          ({| pec_table := store key representation (pec_table st);
              constructed := ran |}, representation)
      | None =>
          ({| pec_table := pec_table st; constructed := ran |}, [])
      end
  end.

Fixpoint requests (backend_name : string) (pec_config : Config)
    (num_samples : Z) (st : State) (circuits : list Circuit)
    : State * list (list Repr) :=
  match circuits with
  | [] => (st, [])
  | circuit :: rest =>
      let '(st1, r) := request backend_name pec_config num_samples st circuit in
      let '(st2, rs) := requests backend_name pec_config num_samples st1 rest in
      (st2, r :: rs)
  end.

(** [circuit.num_qubits] *)
Context (num_qubits : Circuit → Z).
(** [initialized_depolarizing_noise(noise_level=..., num_qubits=...)] of
    mitiq, which can raise; the noise model it returns is not used. *)
Context {Noise : Type}.
Context (initialized_depolarizing_noise : Q → Z → result Noise).

(** [max(l)] raises a ValueError on an empty list. *)
Definition py_max (l : list Z) : result Z :=
  match l with
  | [] => Raise ValueError
  | x :: l' => Ok (foldl Z.max x l')
  end.

(** The noise model is initialized before the loop and outside any [try]:
    what it raises ends the call before the table is looked at. *)
Definition generate_pec_representations (backend_name : string)
    (dims : Z * Z) (st : State) (circuits : list Circuit) (num_samples : Z)
    : result (State * list (list Repr)) :=
  let pec_config := get_config backend_name dims in
  n ← py_max (num_qubits <$> circuits);
  noise_model ← initialized_depolarizing_noise (noise_level pec_config) n;
  Ok (requests backend_name pec_config num_samples st circuits).
End table.
End PEC.

(** ** Orchestrator: [ErrorMitigator.mitigate] *)

Module Orchestrator.
(** The fields of an [ErrorMitigator] that the post-processing reads;
    [measured] is [len(StepCircuit(self.lattice, 0).grid_qubits)]. *)
Record ErrorMitigator : Type := {
  dims : Z * Z;
  measured : nat;
  equalization : bool;
  readout_error_mitigation : bool;
  iterative_bayesian_unfolding : bool;
  zero_noise_extrapolation : bool;
  probabilistic_error_cancellation : bool
}.

(** ['-'.join(label_parts)] *)
Fixpoint join (sep : string) (parts : list string) : string :=
  match parts with
  | [] => EmptyString
  | [p] => p
  | p :: rest => p +:+ sep +:+ join sep rest
  end.

(** [f"{prefix}-collisionless-{self.dims[0]}x{self.dims[1]}-ibm-qpu"] *)
Definition label_for (self : ErrorMitigator) (prefix : string) : string :=
  prefix +:+ "-collisionless-" +:+ pretty (dims self).1 +:+ "x" +:+
  pretty (dims self).2 +:+ "-ibm-qpu".

Section mitigate.
Context {Circuit Quasi Prob : Type}.
Context (quasi_probabilities : Hist → Quasi).
Context (nearest_probability_distribution : Quasi → Prob).
Context (binary_probabilities : Prob → gmap string Q).
Context (guess_as_dict : Circuit → Hist → gmap string Q).
(** The histograms that the loop of [pec] collects from the device, one per
    circuit (sampling, execution, combination and fallbacks). *)
Context (pec_execute : list Circuit → Z → list Hist).

Definition equalize (self : ErrorMitigator) (counts : list Hist) (shots : Z)
    : result (list Hist) :=
  Equalizer.equalize (measured self) (dims self).1 (dims self).2 counts shots.

Definition rem (self : ErrorMitigator) (shots : Z) (counts : list Hist)
    : list Hist :=
  ReadoutCorrector.rem quasi_probabilities nearest_probability_distribution
    binary_probabilities shots counts.

Definition ibu (self : ErrorMitigator) (qcs : list Circuit) (shots : Z)
    (counts : list Hist) : result (list Hist) :=
  IterativeUnfolder.ibu guess_as_dict qcs shots counts.

(** The end of [pec]: equalization when enabled, then the label. *)
Definition pec (self : ErrorMitigator) (circuits : list Circuit) (shots : Z)
    : result (list Hist * string) :=
  let mitigated_counts := pec_execute circuits shots in
  mitigated_counts ←
    (if equalization self then equalize self mitigated_counts shots
     else Ok mitigated_counts);
  Ok (mitigated_counts, label_for self "pec").

Definition mitigate (self : ErrorMitigator) (qcs : list Circuit) (shots : Z)
    (counts : list Hist) : result (list Hist * string) :=
  if negb (readout_error_mitigation self) &&
     negb (iterative_bayesian_unfolding self) &&
     negb (probabilistic_error_cancellation self)
  then Ok (counts, label_for self "raw")
  else if probabilistic_error_cancellation self then pec self qcs shots
  else
    let mitigated_counts := counts in
    let label_parts : list string := [] in
    let '(label_parts, mitigated_counts) :=
      if readout_error_mitigation self
      then (label_parts ++ ["rem"%string], rem self shots mitigated_counts)
      else (label_parts, mitigated_counts) in
    '(label_parts, mitigated_counts) ←
      (if iterative_bayesian_unfolding self
       then (m ← ibu self qcs shots mitigated_counts;
             Ok (label_parts ++ ["ibu"%string], m))
       else Ok (label_parts, mitigated_counts));
    Ok (mitigated_counts, label_for self (join "-" label_parts)).
End mitigate.
End Orchestrator.

(** ** Library behaviour used by the worked examples

    The sections above take the calls into qiskit and mitiq as variables.
    The closed examples below run the code on concrete inputs, for which the
    library calls are given here in exact arithmetic. *)

Module Library.
(** The least-squares polynomial of degree 2 through the points
    [(x, y)], evaluated at 0: what [PolyFactory.extrapolate] returns for
    order 2. Normal equations, solved for the constant coefficient by
    Cramer's rule. *)
Definition power_sum (j : nat) (xs : list Q) : Q :=
  foldr Qplus 0%Q ((λ x, Qpower x (Z.of_nat j)) <$> xs).

Definition moment (j : nat) (xs ys : list Q) : Q :=
  foldr Qplus 0%Q ((λ p, Qpower p.1 (Z.of_nat j) * p.2)%Q <$> zip xs ys).

Definition det3 (a b c d e f g h i : Q) : Q :=
  (a * (e * i - f * h) - b * (d * i - f * g) + c * (d * h - e * g))%Q.

Definition polyfit2_at0 (xs ys : list Q) : Q :=
  let s j := power_sum j xs in
  let t j := moment j xs ys in
  (det3 (t 0%nat) (s 1%nat) (s 2%nat)
        (t 1%nat) (s 2%nat) (s 3%nat)
        (t 2%nat) (s 3%nat) (s 4%nat)
   / det3 (s 0%nat) (s 1%nat) (s 2%nat)
          (s 1%nat) (s 2%nat) (s 3%nat)
          (s 2%nat) (s 3%nat) (s 4%nat))%Q.

Definition extrapolate (scale_factors : list Q) (exp : list pynum)
    (order : nat) : Q :=
  polyfit2_at0 scale_factors (num_val <$> exp).

(** [QuasiDistribution.nearest_probability_distribution] of qiskit: the
    entries are visited in increasing order of value; an entry that stays
    negative after its share of the removed mass is dropped, the others are
    shifted. The state is [(beta, num_elems, new_probs)]. *)
Definition nearest_step (st : Q * Z * gmap N Q) (item : N * Q)
    : Q * Z * gmap N Q :=
  let '(beta, num_elems, new_probs) := st in
  let temp := (item.2 + beta / inject_Z num_elems)%Q in
  if negb (Qle_bool 0 temp) then ((beta + item.2)%Q, num_elems - 1, new_probs)
  else (beta, num_elems,
        <[item.1 := (item.2 + beta / inject_Z num_elems)%Q]> new_probs).

Definition nearest_probability_distribution (quasi : gmap N Q) : gmap N Q :=
  let sorted_probs := sort_by snd (map_to_list quasi) in
  (foldl nearest_step (0%Q, Z.of_nat (length sorted_probs), ∅) sorted_probs).2.

(** [format(key, "b")] *)
Fixpoint pos_bin (p : positive) (acc : string) : string :=
  match p with
  | xH => String "1"%char acc
  | xO p' => pos_bin p' (String "0"%char acc)
  | xI p' => pos_bin p' (String "1"%char acc)
  end.

Definition format_b (key : N) : string :=
  match key with
  | N0 => "0"%string
  | Npos p => pos_bin p EmptyString
  end.

(** [s.zfill(n)] *)
Definition zfill (n : nat) (s : string) : string :=
  string_of_list_ascii (replicate (n - String.length s) "0"%char) +:+ s.

(** [ProbDistribution.binary_probabilities()] without a number of bits:
    the width is that of the largest key. *)
Definition binary_probabilities (prob : gmap N Q) : gmap string Q :=
  let n := String.length (format_b (foldr N.max 0%N (map_to_list prob).*1)) in
  list_to_map ((λ item, (zfill n (format_b item.1), item.2)) <$> map_to_list prob).

(** The mitigator of an error-free calibration of one qubit: the
    mitigation matrix is the identity, so the quasi-probabilities are the
    relative frequencies of the two outcomes. *)
Definition ideal_quasi_probabilities (count : Hist) : gmap N Q :=
  let c0 := num_val (get0 count "0") in
  let c1 := num_val (get0 count "1") in
  {[ 0%N := (c0 / (c0 + c1))%Q; 1%N := (c1 / (c0 + c1))%Q ]}.

End Library.

(** ** Inputs of the worked examples *)

(** The equalizer example of the specification: two measured qubits. *)
Definition spec_counts : Hist :=
  {[ "00"%string := PyInt 10; "01"%string := PyInt 30;
     "10"%string := PyInt 5; "11"%string := PyInt 55 ]}.

(** One sample whose counts do not divide the target evenly. *)
Definition thirds : Hist := {[ "0"%string := PyInt 1; "1"%string := PyInt 2 ]}.

(** One measured qubit at the seven scale factors: the outcome "1" is seen
    twice at every scale factor but the first. *)
Definition both (c0 c1 : Z) : Hist :=
  {[ "0"%string := PyInt c0; "1"%string := PyInt c1 ]}.

Definition sparse_scales : list Hist :=
  {[ "0"%string := PyInt 5 ]} :: replicate 6 (both 3 2).

(** One measured qubit whose outcome "1" grows with the noise: 0, 5, ..., 30
    counts out of 100 at the scale factors 1, 1.5, ..., 4. *)
Definition rising_scales : list Hist :=
  (λ i, both (100 - 5 * i) (5 * i)) <$> [0; 1; 2; 3; 4; 5; 6].

(** A construction that raises on every call, for circuits that all share
    one key. *)
Definition always_fails : nat → unit → Q → Z → option (list unit) :=
  λ _ _ _ _, None.

(** An initialization of the noise model that returns, and one that raises a
    TypeError, as a function without the parameter [num_qubits] does. *)
Definition noise_returns : Q → Z → result unit := λ _ _, Ok tt.

Definition noise_raises : Q → Z → result unit := λ _ _, Raise TypeError.

Definition one_key_request (st : PEC.State) (circuit : unit)
    : PEC.State * list (list unit) :=
  match PEC.generate_pec_representations (λ _, 0) (λ _, "{}"%string) (λ _, 0)
          always_fails (λ _, 4) noise_returns "ibm_brisbane" (2, 2) st
          [circuit] 10000 with
  | Ok res => res
  | Raise _ => (st, [])
  end.

(** A mitigator with readout correction and equalization switched on, for one
    measured qubit. *)
Definition rem_and_equalize : Orchestrator.ErrorMitigator :=
  {| Orchestrator.dims := (1, 2);
     Orchestrator.measured := 1;
     Orchestrator.equalization := true;
     Orchestrator.readout_error_mitigation := true;
     Orchestrator.iterative_bayesian_unfolding := false;
     Orchestrator.zero_noise_extrapolation := false;
     Orchestrator.probabilistic_error_cancellation := false |}.

(** [mitigate] with the error-free calibration; unfolding and cancellation
    are off, so what their libraries would return is immaterial. *)
Definition ideal_mitigate (self : Orchestrator.ErrorMitigator)
    (qcs : list unit) (shots : Z) (counts : list Hist)
    : result (list Hist * string) :=
  Orchestrator.mitigate Library.ideal_quasi_probabilities
    Library.nearest_probability_distribution Library.binary_probabilities
    (λ _ _, ∅) (λ _ _, []) self qcs shots counts.
(** The value the equalizer writes for a cropped entry: the int 0. *)
Definition is_cropped (v : pynum) : bool :=
  match v with
  | PyInt 0 => true
  | _ => false
  end.
(** ** [get_measured_qubits] *)

Module Measured.
Section get_measured_qubits.
Context {Qubit : Type}.
(** [circuit.find_bit(qarg)[0]]: the index of a qubit in the circuit. *)
Context (find_bit : Qubit → nat).

(** An item of [circuit.data] is read as its instruction name and its qargs;
    the cargs are not used. *)
Definition get_measured_qubits (data : list (string * list Qubit))
    : result (list nat) :=
  for_each
    (λ measured_qubits '(name, qargs),
       if decide (name = "measure"%string) then
         let bits := find_bit <$> qargs in
         match bits !! 0%nat with
         | Some bit => Ok (measured_qubits ++ [bit])
         | None => Raise IndexError
         end
       else Ok measured_qubits)
    [] data.

(** The qubit that one item contributes: the first qarg of a measure. *)
Definition measured_by (item : string * list Qubit) : option nat :=
  if decide (item.1 = "measure"%string) then find_bit <$> head item.2
  else None.
End get_measured_qubits.
End Measured.

(** ** The REM table: [REMTable] and [ErrorMitigator.ReadoutError] *)

Module Readout.
Section readout_error.
Context {Backend JobId Raw Data : Type}.
(** [backend.name], [service.job(job_id).backend()] and
    [service.job(job_id).result()]. *)
Context (backend_name : Backend → string).
Context (job_backend : JobId → Backend) (job_result : JobId → Raw).
(** What [RuntimeDecoder] reads back from what [RuntimeEncoder] wrote. *)
Context (json_round_trip : Raw → Raw).
(** [exp.run(backend)]: the experiment data and [result.job_ids[0]]; the first
    argument says how many experiments ran before. *)
Context (run : nat → Backend → Data * JobId).
(** [exp.analysis.run(data)] for the data built from a stored raw result and
    its job id. *)
Context (analysis_run : Raw → JobId → Data).

(** [f"rem-table/{name}_{dims[0]}x{dims[1]}.json"] *)
Definition table_path (name : string) (dims : Z * Z) : string :=
  "rem-table/" +:+ name +:+ "_" +:+ pretty dims.1 +:+ "x" +:+ pretty dims.2
  +:+ ".json".

(** The files of the table, by path, as the decoder reads them, and the
    number of experiments run so far. *)
Record World : Type := {
  files : gmap string (Raw * JobId);
  experiments : nat
}.

(** [REMTable.enter]: the file is opened for writing, an older file under
    the same path is replaced. *)
Definition enter (dims : Z * Z) (job_id : JobId)
    (fs : gmap string (Raw * JobId)) : gmap string (Raw * JobId) :=
  <[table_path (backend_name (job_backend job_id)) dims :=
      (json_round_trip (job_result job_id), job_id)]> fs.

(** [REMTable.load]; [None] when opening the file fails. *)
Definition load (dims : Z * Z) (backend : Backend)
    (fs : gmap string (Raw * JobId)) : option Data :=
  '(raw, job_id) ← fs !! table_path (backend_name backend) dims;
  Some (analysis_run raw job_id).

(** [ReadoutError.__init__]: the world after it and [self.result]; [None]
    when [load] fails. *)
Definition ReadoutError (dims : Z * Z) (backend : Backend) (use_table : bool)
    (w : World) : option (World * Data) :=
  if use_table &&
     bool_decide (is_Some (files w !! table_path (backend_name backend) dims))
  then result ← load dims backend (files w); Some (w, result)
  else
    let '(result, job_id) := run (experiments w) backend in
    Some ({| files := enter dims job_id (files w);
             experiments := S (experiments w) |}, result).
End readout_error.
End Readout.

(** ** CancellationSampler: the loop of [ErrorMitigator.pec] *)

Module Sampler.
Section pec.
Context {Circuit Repr Job : Type}.
(** [sampler.run([circuit], shots=shots)], which can raise; the first argument
    is the list of the runs requested before, oldest first (the device need
    not answer twice alike). *)
Context (sampler_run : list (Circuit * Z) → Circuit → Z → result Job).
(** [job.result()[0].join_data().get_counts()], which can raise. *)
Context (get_counts : Job → result Hist).
(** [pec.sample_circuits(circuit, representation, num_samples=...)], which can
    raise. *)
Context (sample_circuits : Circuit → list Repr → Z → result (list Circuit)).

(** Running the unmodified circuit: [sampler.run([circuit], shots=shots)] and
    the counts of its result. The log grows by the run requested. *)
Definition run_original (log : list (Circuit * Z)) (circuit : Circuit)
    (shots : Z) : list (Circuit * Z) * result Hist :=
  (log ++ [(circuit, shots)],
   job ← sampler_run log circuit shots; get_counts job).

(** The loop that fills [jobs]: it stops at the first run that raises. *)
Fixpoint submit_all (log : list (Circuit * Z)) (sampled_circuits : list Circuit)
    (shots_per_circuit : Z) : list (Circuit * Z) * result (list Job) :=
  match sampled_circuits with
  | [] => (log, Ok [])
  | sampled_circuit :: rest =>
      let log1 := log ++ [(sampled_circuit, shots_per_circuit)] in
      match sampler_run log sampled_circuit shots_per_circuit with
      | Raise e => (log1, Raise e)
      | Ok job =>
          let '(log2, jobs) := submit_all log1 rest shots_per_circuit in
          (log2, jobs ← jobs; Ok (job :: jobs))
      end
  end.

(** The body of the [try]. *)
Definition sample_and_combine (log : list (Circuit * Z)) (circuit : Circuit)
    (representation : list Repr) (shots num_samples : Z)
    : list (Circuit * Z) * result Hist :=
  match sample_circuits circuit representation
          (Z.min num_samples (shots `div` 10)) with
  | Raise e => (log, Raise e)
  | Ok [] => run_original log circuit shots
  | Ok sampled_circuits =>
      let shots_per_circuit :=
        Z.max 1 (shots `div` Z.of_nat (length sampled_circuits)) in
      let '(log1, jobs) :=
        submit_all log sampled_circuits shots_per_circuit in
      (log1,
       jobs ← jobs;
       all_counts ← comprehension get_counts jobs;
       Cancellation._combine_pec_results all_counts representation shots)
  end.

(** The body of the loop over the circuits and their representations:
    [except Exception] sends every failure of the [try] to a run of the
    unmodified circuit. *)
Definition pec_circuit (log : list (Circuit * Z)) (circuit : Circuit)
    (representation : list Repr) (shots num_samples : Z)
    : list (Circuit * Z) * result Hist :=
  match representation with
  | [] => run_original log circuit shots
  | _ =>
      match sample_and_combine log circuit representation shots num_samples
      with
      | (log1, Ok combined_counts) => (log1, Ok combined_counts)
      | (log1, Raise _) => run_original log1 circuit shots
      end
  end.

(** The loop over [zip(circuits, representations)]. *)
Fixpoint pec_loop (log : list (Circuit * Z))
    (pairs : list (Circuit * list Repr)) (shots num_samples : Z)
    : list (Circuit * Z) * result (list Hist) :=
  match pairs with
  | [] => (log, Ok [])
  | (circuit, representation) :: rest =>
      match pec_circuit log circuit representation shots num_samples with
      | (log1, Raise e) => (log1, Raise e)
      | (log1, Ok counts) =>
          let '(log2, r) := pec_loop log1 rest shots num_samples in
          (log2, mitigated_counts ← r; Ok (counts :: mitigated_counts))
      end
  end.

(** [ErrorMitigator.pec]: the representations, the loop, the equalizer when
    enabled and the label. The table of representations and the log of the
    device are threaded through. *)
Context (depth : Circuit → Z) (gate_counts : Circuit → string).
Context (hash : string → Z).
Context (represent : nat → Circuit → Q → Z → option (list Repr)).
Context (num_qubits : Circuit → Z).
Context {Noise : Type}.
Context (initialized_depolarizing_noise : Q → Z → result Noise).
Context (backend_name : string).

Definition pec (self : Orchestrator.ErrorMitigator) (st : PEC.State)
    (log : list (Circuit * Z)) (circuits : list Circuit) (shots num_samples : Z)
    : result (PEC.State * list (Circuit * Z) * list Hist * string) :=
  '(st1, representations) ←
    PEC.generate_pec_representations depth gate_counts hash represent
      num_qubits initialized_depolarizing_noise
      backend_name (Orchestrator.dims self) st circuits num_samples;
  let '(log1, r) :=
    pec_loop log (zip circuits representations) shots num_samples in
  mitigated_counts ← r;
  mitigated_counts ←
    (if Orchestrator.equalization self
     then Equalizer.equalize (Orchestrator.measured self)
            (Orchestrator.dims self).1 (Orchestrator.dims self).2
            mitigated_counts shots
     else Ok mitigated_counts);
  Ok (st1, log1, mitigated_counts, Orchestrator.label_for self "pec").
End pec.
End Sampler.

(** The shots requested by the runs of a log. *)
Definition shots_requested {Circuit} (log : list (Circuit * Z)) : Z :=
  foldr Z.add 0 log.*2.
(** ** Instances for the further worked examples *)

(** A mitigator by its five flags, for two measured qubits on a 2x2
    lattice. *)
Definition mitigator (equalization rem ibu zne pec : bool)
    : Orchestrator.ErrorMitigator :=
  {| Orchestrator.dims := (2, 2);
     Orchestrator.measured := 2;
     Orchestrator.equalization := equalization;
     Orchestrator.readout_error_mitigation := rem;
     Orchestrator.iterative_bayesian_unfolding := ibu;
     Orchestrator.zero_noise_extrapolation := zne;
     Orchestrator.probabilistic_error_cancellation := pec |}.

(** A construction that returns one operation, for circuits that all share
    one key, and the state after one request. *)
Definition always_succeeds : nat → unit → Q → Z → option (list unit) :=
  λ _ _ _ _, Some [tt].

Definition one_key_generate (st : PEC.State) (circuits : list unit)
    : result (PEC.State * list (list unit)) :=
  PEC.generate_pec_representations (λ _, 0) (λ _, "{}"%string) (λ _, 0)
    always_succeeds (λ _, 4) noise_returns "ibm_brisbane" (2, 2) st circuits
    10000.

Definition stored_once : PEC.State :=
  {| PEC.pec_table :=
       {| PEC.representations := {[ "ibm_brisbane_0_0"%string := [tt] ]} |};
     PEC.constructed := [tt] |}.

(** A device whose every run counts 3 zeros and 2 ones, and a sampling that
    returns two circuits. *)
Definition steady_run : list (unit * Z) → unit → Z → result Hist :=
  λ _ _ _, Ok (both 3 2).

Definition two_samples : unit → list unit → Z → result (list unit) :=
  λ _ _ _, Ok [tt; tt].

(** A table of calibrations in which job [n] ran on the backend it was asked
    for and returned the raw result [n]. *)
Definition demo_readout (backend : string) (use_table : bool)
    (w : Readout.World) : option (Readout.World * nat) :=
  Readout.ReadoutError (λ b : string, b) (λ _ : nat, backend) (λ n : nat, n)
    (λ raw, raw) (λ n _, (n, n)) (λ raw _, raw) (2, 2) backend use_table w.

Definition empty_world : Readout.World (Raw:=nat) (JobId:=nat) :=
  {| Readout.files := ∅; Readout.experiments := 0 |}.
(** ** Binary floating point

    Where the rounding of a float decides a count, Python floats are IEEE 754
    binary64 values: [spec_float] with a precision of 53 bits, rounded to
    nearest, ties to even. *)

Module Binary64.
Abbreviation float := spec_float.

Definition prec : Z := 53.
Definition emax : Z := 1024.

(** [0.0] *)
Definition zero : float := S754_zero false.

(** [x + y], [x * y] and [x / y] on floats (no zero divisor here). *)
Definition add : float → float → float := SFadd prec emax.
Definition mul : float → float → float := SFmul prec emax.
Definition div : float → float → float := SFdiv prec emax.

(** [x < y] on floats; false when one of them is a NaN. *)
Definition ltb : float → float → bool := SFltb.

(** [float(n)] for an int [n], also where an int meets a float in
    arithmetic: rounded to nearest, an OverflowError when [n] is too large. *)
Definition of_int (n : Z) : result float :=
  match binary_normalize prec emax n 0 false with
  | S754_infinity _ => Raise OverflowError
  | x => Ok x
  end.

(** An int as the dividend or divisor of a true division: no rounding yet. *)
Definition exact (n : Z) : float :=
  match n with
  | Z0 => S754_zero false
  | Zpos p => S754_finite false p 0
  | Zneg p => S754_finite true p 0
  end.

(** [a / b] on two ints: the quotient, rounded once. *)
Definition int_true_div (a b : Z) : result float :=
  match b with
  | Z0 => Raise ZeroDivisionError
  | _ =>
      match div (exact a) (exact b) with
      | S754_infinity _ => Raise OverflowError
      | q => Ok q
      end
  end.

(** The number that a finite float stands for; 0 for the others. *)
Definition value (x : float) : Q :=
  match x with
  | S754_finite s m e =>
      let v :=
        match e with
        | Z0 => inject_Z (Zpos m)
        | Zpos p => inject_Z (Zpos m * 2 ^ Zpos p)
        | Zneg p => Zpos m # 2 ^ p
        end in
      if s then (- v)%Q else v
  | _ => 0%Q
  end.

(** [int(x)]: truncation toward zero; a NaN gives a ValueError and an
    infinity an OverflowError. *)
Definition to_int (x : float) : result Z :=
  match x with
  | S754_nan => Raise ValueError
  | S754_infinity _ => Raise OverflowError
  | _ => Ok (py_int (value x))
  end.

(** [sum(l)] for floats: from the int 0, added from the left (CPython
    before 3.12; later versions compensate the rounding errors). *)
Definition sum (l : list float) : float := foldl add zero l.

(** A count after the post-processing: an int or a float. *)
Inductive num : Type :=
  | Int (z : Z)
  | Float (x : float).
End Binary64.

(** A histogram as the device reports it ([get_counts()]): int counts. *)
Abbreviation Counts := (gmap string Z).

(** ** [ErrorMitigator._combine_pec_results] in binary floating point *)

Module Cancellation64.
(** The set built by [all_bitstrings.update(counts.keys())]. *)
Definition all_bitstrings (all_counts : list Counts) : gset string :=
  foldl (λ acc counts, acc ∪ dom counts) ∅ all_counts.

(** [counts.get(bitstring, 0) / total_weight] *)
Definition share (total_weight : Z) (counts : Counts) (bitstring : string)
    : result Binary64.float :=
  Binary64.int_true_div (default 0 (counts !! bitstring)) total_weight.

(** One round of the inner loop: [combined[bitstring] += ...] for every
    bitstring, which are the keys of [combined]. A quotient too large for a
    float is the only exception here, whatever the order of the keys. *)
Definition accumulate (total_weight : Z) (combined : gmap string Binary64.float)
    (counts : Counts) : result (gmap string Binary64.float) :=
  dict_comprehension
    (λ bitstring acc,
       q ← share total_weight counts bitstring;
       Ok (Binary64.add acc q))
    combined.

(** [int(count * scaling_factor)] *)
Definition rescale (scaling_factor : Binary64.float) (bitstring : string)
    (count : Binary64.float) : result Binary64.num :=
  z ← Binary64.to_int (Binary64.mul count scaling_factor);
  Ok (Binary64.Int z).

Section combine.
(** The order in which Python iterates a set of strings; it is not
    specified and differs from run to run. The dict [combined] is built from
    the set, so that its items and values come in this order. *)
Context (set_order : gset string → list string).

(** [combined.items()] *)
Definition items (bitstrings : gset string)
    (combined : gmap string Binary64.float)
    : list (string * Binary64.float) :=
  omap (λ b, pair b <$> combined !! b) (set_order bitstrings).

Definition _combine_pec_results {R} (all_counts : list Counts)
    (representation : list R) (target_shots : Z)
    : result (gmap string Binary64.num) :=
  match all_counts with
  | [] => Ok ∅
  | _ =>
      let bitstrings := all_bitstrings all_counts in
      let combined0 := gset_to_gmap Binary64.zero bitstrings in
      let total_weight := Z.of_nat (length all_counts) in
      combined ← for_each (accumulate total_weight) combined0 all_counts;
      let total_counts := Binary64.sum (items bitstrings combined).*2 in
      if Binary64.ltb Binary64.zero total_counts then
        target ← Binary64.of_int target_shots;
        let scaling_factor := Binary64.div target total_counts in
        list_to_map <$>
          comprehension_items (rescale scaling_factor)
            (items bitstrings combined)
      else Ok (Binary64.Float <$> combined)
  end.
End combine.
End Cancellation64.

(** What the loops of the combination step accumulate for one bitstring:
    the quotients count / number of samples, added up in the order of the
    samples. This is the mean of its counts, in binary floating point. *)
Definition mean_float (all_counts : list Counts) (b : string)
    : result Binary64.float :=
  for_each
    (λ acc counts,
       q ← Cancellation64.share (Z.of_nat (length all_counts)) counts b;
       Ok (Binary64.add acc q))
    Binary64.zero all_counts.

(** The combination example of the specification, as int counts. *)
Definition spec_samples64 : list Counts :=
  [ {[ "00"%string := 80; "01"%string := 20 ]};
    {[ "00"%string := 60; "01"%string := 40 ]} ].

(** One sample whose counts do not divide the target evenly. *)
Definition thirds64 : Counts := {[ "0"%string := 1; "1"%string := 2 ]}.

(** ** [ErrorMitigator.rem] in binary floating point *)

Module ReadoutCorrector64.
(** What [binary_probabilities()] shows of a projected distribution.
    [nearest_probability_distribution] of qiskit keeps an entry only when
    the test [temp < 0] on it fails, and [binary_probabilities] renames the
    keys: no entry is below zero. A NaN passes that test. *)
Record Distribution : Type := {
  probabilities : gmap string Binary64.float;
  not_negative :
    map_Forall (λ _ p, Binary64.ltb p Binary64.zero = false) probabilities
}.

Section rem.
Context {Quasi Prob : Type}.
Context (quasi_probabilities : Counts → Quasi).
Context (nearest_probability_distribution : Quasi → Prob).
Context (binary_probabilities : Prob → Distribution).

(** [int(prob * shots)] *)
Definition to_count (shots : Z) (label : string) (prob : Binary64.float)
    : result Binary64.num :=
  s ← Binary64.of_int shots;
  z ← Binary64.to_int (Binary64.mul prob s);
  Ok (Binary64.Int z).

(** [{label: int(prob * shots) for label, prob in mitigated_prob.items()}] *)
Definition to_counts (shots : Z) (mitigated_prob : gmap string Binary64.float)
    : result (gmap string Binary64.num) :=
  dict_comprehension (to_count shots) mitigated_prob.

Definition rem (shots : Z) (counts : list Counts)
    : result (list (gmap string Binary64.num)) :=
  let mitigated_quasi_probs := quasi_probabilities <$> counts in
  let mitigated_probs :=
    (λ prob,
       probabilities (binary_probabilities
                        (nearest_probability_distribution prob)))
      <$> mitigated_quasi_probs in
  comprehension (to_counts shots) mitigated_probs.
End rem.
End ReadoutCorrector64.

(** The projected distribution of one histogram. *)
Definition mitigated_prob64 {Quasi Prob : Type}
    (quasi_probabilities : Counts → Quasi)
    (nearest_probability_distribution : Quasi → Prob)
    (binary_probabilities : Prob → ReadoutCorrector64.Distribution)
    (count : Counts) : gmap string Binary64.float :=
  ReadoutCorrector64.probabilities
    (binary_probabilities
       (nearest_probability_distribution (quasi_probabilities count))).

(** The int counts of a histogram, added up. *)
Definition total_count (o : gmap string Binary64.num) : Z :=
  foldr Z.add 0
    ((λ v, match v with Binary64.Int z => z | Binary64.Float _ => 0 end)
       <$> values o).

(** The library calls of the worked examples in binary floating point. *)
Module Library64.
(** The mitigator of an error-free calibration of one qubit: the
    quasi-probabilities are the relative frequencies of the two outcomes
    (a histogram of an experiment holds at least one count). *)
Definition frequency (c total : Z) : Binary64.float :=
  match Binary64.int_true_div c total with
  | Ok q => q
  | Raise _ => S754_nan
  end.

Definition ideal_quasi_probabilities (count : Counts) : gmap N Binary64.float :=
  let c0 := default 0 (count !! "0"%string) in
  let c1 := default 0 (count !! "1"%string) in
  {[ 0%N := frequency c0 (c0 + c1); 1%N := frequency c1 (c0 + c1) ]}.

(** [QuasiDistribution.nearest_probability_distribution] of qiskit, as in
    [Library.nearest_probability_distribution]. *)
Definition nearest_step (st : Binary64.float * Z * gmap N Binary64.float)
    (item : N * Binary64.float)
    : Binary64.float * Z * gmap N Binary64.float :=
  let '(beta, num_elems, new_probs) := st in
  let temp :=
    Binary64.add item.2 (Binary64.div beta (Binary64.exact num_elems)) in
  if Binary64.ltb temp Binary64.zero
  then (Binary64.add beta item.2, num_elems - 1, new_probs)
  else (beta, num_elems, <[item.1 := temp]> new_probs).

Definition nearest_probability_distribution (quasi : gmap N Binary64.float)
    : gmap N Binary64.float :=
  let sorted_probs :=
    sort_by (λ item, Binary64.value item.2) (map_to_list quasi) in
  (foldl nearest_step
     (Binary64.zero, Z.of_nat (length sorted_probs), ∅) sorted_probs).2.

(** A dict of floats as a distribution; the empty one should an entry be
    below zero, which [nearest_probability_distribution] excludes. *)
Definition distribution (m : gmap string Binary64.float)
    : ReadoutCorrector64.Distribution :=
  match decide (map_Forall (λ _ p, Binary64.ltb p Binary64.zero = false) m) with
  | left H =>
      {| ReadoutCorrector64.probabilities := m;
         ReadoutCorrector64.not_negative := H |}
  | right _ =>
      {| ReadoutCorrector64.probabilities := ∅;
         ReadoutCorrector64.not_negative := map_Forall_empty _ |}
  end.

Definition binary_probabilities (prob : gmap N Binary64.float)
    : ReadoutCorrector64.Distribution :=
  let n :=
    String.length
      (Library.format_b (foldr N.max 0%N (map_to_list prob).*1)) in
  distribution
    (list_to_map
       ((λ item, (Library.zfill n (Library.format_b item.1), item.2))
          <$> map_to_list prob)).

Definition ideal_rem (shots : Z) (counts : list Counts)
    : result (list (gmap string Binary64.num)) :=
  ReadoutCorrector64.rem ideal_quasi_probabilities
    nearest_probability_distribution binary_probabilities shots counts.
End Library64.

(** A histogram observed on one qubit that only ever read 0. *)
Definition only_zero64 : Counts := {[ "0"%string := 5 ]}.

(** The sign of a float is not set, or the float is a zero or a NaN. *)
Definition sign_clear (x : Binary64.float) : Prop :=
  match x with
  | S754_finite true _ _ | S754_infinity true => False
  | _ => True
  end.

(** * Proofs *)

(** ** The result monad and comprehensions *)

Section comprehension_facts.
Context {A B : Type}.
Implicit Types (f : A → result B) (l : list A).

Lemma bind_Ok_inv {X Y} (m : result X) (g : X → result Y) (y : Y) :
  m ≫= g = Ok y → ∃ x, m = Ok x ∧ g x = Ok y.
Proof. destruct m as [x|e]; [eauto | discriminate]. Qed.

Lemma comprehension_Ok f l r :
  comprehension f l = Ok r → Forall2 (λ x y, f x = Ok y) l r.
Proof.
  revert r. induction l as [|x l IH]; intros r; simpl.
  - intros [= <-]. constructor.
  - intros (y & Hy & H)%bind_Ok_inv.
    apply bind_Ok_inv in H as (ys & Hys & [= <-]).
    constructor; auto.
Qed.

Lemma comprehension_total f l :
  Forall (λ x, is_ok (f x)) l → is_ok (comprehension f l).
Proof.
  induction 1 as [|x l [y Hy] _ [ys Hys]]; simpl.
  - by eexists.
  - rewrite Hy; simpl. rewrite Hys; simpl. by eexists.
Qed.

Lemma comprehension_raises f l :
  Exists (λ x, raises (f x)) l → raises (comprehension f l).
Proof.
  intros Hex. destruct (comprehension f l) as [r|e] eqn:Hr; [|by eexists].
  apply comprehension_Ok in Hr. exfalso.
  induction Hr as [|x y l r Hxy _ IH]; inversion Hex as [? ? [e He]|]; subst.
  - congruence.
  - auto.
Qed.

Lemma comprehension_pure (g : A → B) f l :
  Forall (λ x, f x = Ok (g x)) l → comprehension f l = Ok (g <$> l).
Proof.
  induction 1 as [|x l Hx _ IH]; simpl; [done|].
  rewrite Hx; simpl. by rewrite IH.
Qed.
End comprehension_facts.

Section dict_comprehension_facts.
Context {A B : Type}.
Implicit Types (f : string → A → result B) (m : gmap string A).

Lemma comprehension_items_Ok f (l : list (string * A)) r :
  comprehension_items f l = Ok r →
  Forall2 (λ p q, p.1 = q.1 ∧ f p.1 p.2 = Ok q.2) l r.
Proof.
  revert r. induction l as [|[key val] l IH]; intros r; simpl.
  - intros [= <-]. constructor.
  - intros (y & Hy & H)%bind_Ok_inv.
    apply bind_Ok_inv in H as (ys & Hys & [= <-]).
    constructor; auto.
Qed.

Lemma comprehension_items_total f (l : list (string * A)) :
  Forall (λ p, is_ok (f p.1 p.2)) l → is_ok (comprehension_items f l).
Proof.
  induction 1 as [|[key val] l [y Hy] _ [ys Hys]]; simpl.
  - by eexists.
  - simpl in Hy. rewrite Hy; simpl. rewrite Hys; simpl. by eexists.
Qed.

(** What a dict comprehension that returns has computed, key by key. *)
Lemma dict_comprehension_Ok f m r key :
  dict_comprehension f m = Ok r →
  match m !! key with
  | Some v => ∃ y, f key v = Ok y ∧ r !! key = Some y
  | None => r !! key = None
  end.
Proof.
  unfold dict_comprehension.
  destruct (comprehension_items f (map_to_list m)) as [l|e] eqn:Hl;
    [|discriminate].
  intros [= <-]. apply comprehension_items_Ok in Hl.
  assert (Hfst : l.*1 = (map_to_list m).*1).
  { clear -Hl. induction Hl as [|p q ? ? [Hpq _] _ IH]; [done|].
    rewrite !fmap_cons. by f_equal. }
  assert (Hnd : NoDup l.*1) by (rewrite Hfst; apply NoDup_fst_map_to_list).
  destruct (m !! key) as [v|] eqn:Hm.
  - apply elem_of_map_to_list in Hm.
    assert (∃ y, f key v = Ok y ∧ (key, y) ∈ l) as (y & Hy & Hin).
    { clear -Hl Hm. induction Hl as [|p q ? ? [Hpq Hf] _ IH].
      - by apply elem_of_nil in Hm.
      - apply elem_of_cons in Hm as [<-|Hm].
        + exists q.2. split; [done|]. simpl in Hpq. rewrite Hpq.
          destruct q; left.
        + destruct (IH Hm) as (y & ? & ?). exists y. split; [done|by right]. }
    exists y. split; [done|]. by apply elem_of_list_to_map.
  - apply not_elem_of_list_to_map. rewrite Hfst.
    intros ((k' & v') & -> & Hin%elem_of_map_to_list)%list_elem_of_fmap.
    simpl in Hm. congruence.
Qed.

Lemma dict_comprehension_total f m :
  (∀ key v, m !! key = Some v → is_ok (f key v)) →
  is_ok (dict_comprehension f m).
Proof.
  intros H. unfold dict_comprehension.
  destruct (comprehension_items_total f (map_to_list m)) as [l Hl].
  - apply Forall_forall. intros [key v] Hin%elem_of_map_to_list. by apply H.
  - rewrite Hl. by eexists.
Qed.

(** A comprehension whose expression does not raise is a map over the
    values. *)
Lemma dict_comprehension_pure (g : string → A → B) f m :
  (∀ key v, m !! key = Some v → f key v = Ok (g key v)) →
  dict_comprehension f m = Ok (map_imap (λ key v, Some (g key v)) m).
Proof.
  intros H.
  destruct (dict_comprehension_total f m) as [r Hr].
  { intros key v Hm. rewrite (H _ _ Hm). by eexists. }
  rewrite Hr. f_equal. apply map_eq. intros key.
  pose proof (dict_comprehension_Ok f m r key Hr) as Hk.
  rewrite map_lookup_imap.
  destruct (m !! key) as [v|] eqn:Hm; simpl; [|done].
  destruct Hk as (y & Hy & ->). rewrite (H _ _ Hm) in Hy. congruence.
Qed.

Lemma dict_comprehension_raises f m key v :
  m !! key = Some v → raises (f key v) → raises (dict_comprehension f m).
Proof.
  intros Hm [e He].
  destruct (dict_comprehension f m) as [r|e'] eqn:Hr; [|by eexists].
  pose proof (dict_comprehension_Ok f m r key Hr) as Hk.
  rewrite Hm in Hk. destruct Hk as (y & Hy & _). congruence.
Qed.
End dict_comprehension_facts.

(** ** Sorting and ranks *)

Section sorting_facts.
Context {A : Type} (key : A → Q).
Implicit Types (l : list A) (p q : A → bool).

Lemma insert_sorted_perm x l : insert_sorted key x l ≡ₚ x :: l.
Proof.
  induction l as [|y l IH]; simpl; [done|].
  destruct (Qle_bool (key x) (key y)); [done|].
  rewrite IH. apply Permutation_swap.
Qed.

Lemma sort_by_perm l : sort_by key l ≡ₚ l.
Proof.
  induction l as [|x l IH]; simpl; [done|].
  by rewrite insert_sorted_perm, IH.
Qed.

Lemma length_sort_by l : length (sort_by key l) = length l.
Proof. by rewrite sort_by_perm. Qed.

Lemma insert_sorted_ordered x l :
  ordered key l → ordered key (insert_sorted key x l).
Proof.
  unfold ordered. induction 1 as [|y l Hl IH Hy]; simpl.
  - repeat constructor.
  - destruct (Qle_bool (key x) (key y)) eqn:Hxy.
    + apply Qle_bool_iff in Hxy.
      constructor; [by constructor|].
      constructor; [done|].
      eapply Forall_impl; [exact Hy|]. intros z Hz; simpl in *.
      by apply Qle_trans with (key y).
    + assert (key y <= key x)%Q as Hyx.
      { apply Qlt_le_weak, Qnot_le_lt. intros H%Qle_bool_iff. congruence. }
      constructor; [done|].
      rewrite insert_sorted_perm. by constructor.
Qed.

Lemma sort_by_ordered l : ordered key (sort_by key l).
Proof.
  induction l as [|x l IH]; simpl; [constructor|].
  by apply insert_sorted_ordered.
Qed.

Lemma count_if_perm p l l' : l ≡ₚ l' → count_if p l = count_if p l'.
Proof. induction 1; simpl; lia. Qed.

Lemma count_if_mono p q l :
  Forall (λ x, p x = true → q x = true) l → (count_if p l ≤ count_if q l)%nat.
Proof.
  induction 1 as [|x l Hx _ IH]; simpl; [lia|].
  destruct (p x); [rewrite Hx by done|destruct (q x)]; lia.
Qed.

Lemma count_if_none p l :
  Forall (λ x, p x = false) l → count_if p l = 0%nat.
Proof. induction 1 as [|x l Hx _ IH]; simpl; [done|]. by rewrite Hx, IH. Qed.

(** In an ordered list, fewer than [i + 1] elements are below the element
    at index [i] ... *)
Lemma rank_below l i x :
  ordered key l → l !! i = Some x →
  (count_if (λ y, negb (Qle_bool (key x) (key y))) l ≤ i)%nat.
Proof.
  unfold ordered. intros Hl. revert i.
  induction Hl as [|a l Hl IH Ha]; intros i Hi; [done|].
  destruct i as [|i]; simpl in *.
  - injection Hi as ->. rewrite count_if_none.
    + assert (Qle_bool (key x) (key x) = true) as ->; [|done].
      apply Qle_bool_iff, Qle_refl.
    + eapply Forall_impl; [exact Ha|]. intros y Hy; simpl in *.
      apply Qle_bool_iff in Hy. by rewrite Hy.
  - specialize (IH _ Hi).
    destruct (negb (Qle_bool (key x) (key a))); lia.
Qed.

(** ... and at least [i + 1] elements are not above it. *)
Lemma rank_not_above l i x :
  ordered key l → l !! i = Some x →
  (i < count_if (λ y, Qle_bool (key y) (key x)) l)%nat.
Proof.
  unfold ordered. intros Hl. revert i.
  induction Hl as [|a l Hl IH Ha]; intros i Hi; [done|].
  destruct i as [|i]; simpl in *.
  - injection Hi as ->.
    assert (Qle_bool (key x) (key x) = true) as ->; [|lia].
    apply Qle_bool_iff, Qle_refl.
  - specialize (IH _ Hi).
    assert (Qle_bool (key a) (key x) = true) as ->; [|lia].
    apply Qle_bool_iff.
    apply list_elem_of_lookup_2 in Hi.
    by eapply Forall_forall in Ha.
Qed.
End sorting_facts.

Lemma count_if_fmap {A B} (g : A → B) (p : B → bool) (l : list A) :
  count_if p (g <$> l) = count_if (p ∘ g) l.
Proof.
  induction l as [|x l IH]; [done|].
  rewrite fmap_cons. simpl. by rewrite IH.
Qed.

Lemma count_if_le_length {A} (p : A → bool) (l : list A) :
  (count_if p l ≤ length l)%nat.
Proof. induction l as [|x l IH]; simpl; [lia|]. destruct (p x); lia. Qed.

Lemma length_values {A} (m : gmap string A) : length (values m) = size m.
Proof. unfold values. by rewrite length_fmap, length_map_to_list. Qed.

Lemma values_fmap {A B} (g : A → B) (m : gmap string A) :
  values (g <$> m) = g <$> values m.
Proof.
  unfold values. rewrite map_to_list_fmap, <-!list_fmap_compose.
  apply list_fmap_ext. by intros ? [].
Qed.

Lemma elem_of_values {A} (m : gmap string A) (v : A) :
  v ∈ values m ↔ ∃ key, m !! key = Some v.
Proof.
  unfold values. rewrite list_elem_of_fmap. split.
  - intros ([key v'] & -> & Hin%elem_of_map_to_list). by exists key.
  - intros [key Hkey]. exists (key, v). by rewrite elem_of_map_to_list.
Qed.


(** ** Equalizer *)

Section equalizer_facts.
Context (k : nat) (rows cols : Z).
Implicit Types (count : Hist) (counts : list Hist) (shots : Z).

Local Abbreviation cutoff := (Equalizer.cutoff k).
Local Abbreviation target := (Equalizer.target rows cols).
Local Abbreviation equalize_count := (Equalizer.equalize_count k rows cols).
Local Abbreviation equalize := (Equalizer.equalize k rows cols).

Lemma py_lt_irrefl c : py_lt c c = false.
Proof.
  unfold py_lt. apply negb_false_iff, Qle_bool_iff, Qle_refl.
Qed.

Lemma cutoff_Ok count c :
  cutoff count = Ok c ↔
  ∃ k', k = S k' ∧ sorted (values count) !! (2 ^ k')%nat = Some c.
Proof.
  unfold Equalizer.cutoff, Equalizer.cutoff_index.
  destruct k as [|k']; simpl.
  - split; [discriminate|]. by intros (? & [=] & _).
  - destruct (sorted (values count) !! (2 ^ k')%nat) as [c'|] eqn:Hc; split.
    + intros [= ->]. eauto.
    + intros (? & [= <-] & H). congruence.
    + discriminate.
    + intros (? & [= <-] & H). congruence.
Qed.

Lemma cutoff_index_out_of_range count k' :
  k = S k' → (size count ≤ 2 ^ k')%nat → cutoff count = Raise IndexError.
Proof.
  intros -> Hsize. unfold Equalizer.cutoff; simpl.
  rewrite (proj2 (lookup_ge_None _ _)); [done|].
  unfold sorted. by rewrite length_sort_by, length_values.
Qed.

Lemma cutoff_in_range count k' :
  k = S k' → (2 ^ k' < size count)%nat → is_ok (cutoff count).
Proof.
  intros -> Hsize. unfold Equalizer.cutoff; simpl.
  destruct (lookup_lt_is_Some_2 (sorted (values count)) (2 ^ k')%nat)
    as [c Hc].
  - unfold sorted. by rewrite length_sort_by, length_values.
  - rewrite Hc. by eexists.
Qed.

Lemma equalize_count_Ok shots count r :
  equalize_count shots count = Ok r →
  ∃ c t, cutoff count = Ok c ∧ target shots = Ok t ∧ r = snap c t <$> count.
Proof.
  unfold Equalizer.equalize_count.
  intros (c & Hc & Hr)%bind_Ok_inv. exists c.
  assert (∃ key, count !! key = Some c) as [key Hkey].
  { apply cutoff_Ok in Hc as (k' & _ & Hc).
    apply list_elem_of_lookup_2 in Hc. unfold sorted in Hc.
    rewrite sort_by_perm in Hc. by apply elem_of_values. }
  pose proof (dict_comprehension_Ok _ _ _ key Hr) as Hk.
  rewrite Hkey in Hk. destruct Hk as (t & Ht & _).
  unfold Equalizer.eq_entry in Ht. rewrite py_lt_irrefl in Ht.
  exists t. split_and!; [done..|].
  rewrite (dict_comprehension_pure (λ _, snap c t)) in Hr.
  - injection Hr as <-. apply map_eq. intros b.
    rewrite map_lookup_imap, lookup_fmap. by destruct (count !! b).
  - intros b v _. unfold Equalizer.eq_entry, snap. by destruct (py_lt v c).
Qed.

Lemma equalize_count_snap shots count c t :
  cutoff count = Ok c → target shots = Ok t →
  equalize_count shots count = Ok (snap c t <$> count).
Proof.
  intros Hc Ht. unfold Equalizer.equalize_count. rewrite Hc; simpl.
  rewrite (dict_comprehension_pure (λ _, snap c t)).
  - f_equal. apply map_eq. intros b.
    rewrite map_lookup_imap, lookup_fmap. by destruct (count !! b).
  - intros b v _. unfold Equalizer.eq_entry, snap. by destruct (py_lt v c).
Qed.

Lemma target_Ok shots t :
  target shots = Ok t →
  ¬ (inject_Z (rows * cols) * (1 # 2) == 0)%Q ∧
  t = PyFloat (inject_Z shots / (inject_Z (rows * cols) * (1 # 2))).
Proof.
  unfold Equalizer.target, py_div; simpl.
  destruct (Qeq_bool _ 0) eqn:Hd; [discriminate|].
  intros [= <-]. split; [|done]. by apply Qeq_bool_neq.
Qed.

Lemma target_nonneg shots t :
  0 ≤ shots → 0 ≤ rows → 0 ≤ cols → target shots = Ok t →
  (0 <= num_val t)%Q.
Proof.
  intros Hs Hr Hc (Hd & ->)%target_Ok; simpl.
  assert (0 <= inject_Z (rows * cols) * (1 # 2))%Q as Hd'.
  { apply Qmult_le_0_compat; [|done].
    change 0%Q with (inject_Z 0). rewrite <-Zle_Qle. lia. }
  apply Qle_shift_div_l.
  - apply Qle_lteq in Hd' as [?|Heq]; [done|]. by symmetry in Heq.
  - rewrite Qmult_0_l. change 0%Q with (inject_Z 0). by rewrite <-Zle_Qle.
Qed.

(** Equalizing an equalized histogram changes no value. *)
Lemma equalize_count_idempotent shots count r :
  0 ≤ shots → 0 ≤ rows → 0 ≤ cols →
  equalize_count shots count = Ok r →
  ∃ r', equalize_count shots r = Ok r' ∧ hist_eq r' r.
Proof.
  intros Hs Hrows Hcols Hr.
  destruct (equalize_count_Ok _ _ _ Hr) as (c & t & Hc & Ht & ->).
  pose proof (target_nonneg _ _ Hs Hrows Hcols Ht) as Hnonneg.
  apply cutoff_Ok in Hc as (k' & Hk & Hc).
  (* fewer than 2^k' + 1 values are below the first cutoff *)
  assert (count_if (λ v, py_lt v c) (values count) ≤ 2 ^ k')%nat as Hbelow.
  { rewrite <-(count_if_perm _ _ _ (sort_by_perm num_val (values count))).
    apply (rank_below num_val); [apply sort_by_ordered | exact Hc]. }
  (* the second cutoff exists *)
  destruct (cutoff_in_range (snap c t <$> count) k' Hk) as [c2 Hc2].
  { rewrite map_size_fmap, <-length_values.
    apply lookup_lt_Some in Hc. unfold sorted in Hc.
    by rewrite length_sort_by in Hc. }
  exists (snap c2 t <$> (snap c t <$> count)).
  split; [by apply equalize_count_snap|].
  apply cutoff_Ok in Hc2 as (k'' & Hk' & Hc2).
  assert (k'' = k') as -> by congruence.
  (* the second cutoff is one of the two values, and it is not below
     the target *)
  assert (py_lt c2 t = false) as Hc2t.
  { destruct (py_lt c2 t) eqn:Hlt; [exfalso|done].
    pose proof (rank_not_above num_val _ _ _ (sort_by_ordered _ _) Hc2)
      as Hrank.
    rewrite (count_if_perm _ _ _ (sort_by_perm num_val _)) in Hrank.
    rewrite values_fmap, count_if_fmap in Hrank.
    assert (count_if ((λ y, Qle_bool (num_val y) (num_val c2)) ∘ snap c t)
              (values count)
            ≤ count_if (λ v, py_lt v c) (values count))%nat; [|lia].
    apply count_if_mono, Forall_forall. intros v _. simpl. unfold snap.
    destruct (py_lt v c); [done|]. intros Hle.
    unfold py_lt in Hlt. rewrite Hle in Hlt. done. }
  assert (c2 = PyInt 0 ∨ c2 = t) as Hc2in.
  { apply list_elem_of_lookup_2 in Hc2. unfold sorted in Hc2.
    rewrite sort_by_perm, values_fmap in Hc2.
    apply list_elem_of_fmap in Hc2 as (v & -> & _).
    unfold snap. destruct (py_lt v c); auto. }
  intros b. rewrite !lookup_fmap.
  destruct (count !! b) as [v|]; simpl; constructor.
  unfold snap at 1 2. unfold py_eq.
  destruct (py_lt v c) eqn:Hvc.
  - (* a zero stays a zero, or the target is itself zero *)
    unfold snap. rewrite Hvc.
    destruct (py_lt (PyInt 0) c2) eqn:H0; [reflexivity|].
    destruct Hc2in as [->| ->].
    + unfold py_lt in Hc2t. apply negb_false_iff, Qle_bool_iff in Hc2t.
      simpl in *. by apply Qle_antisym.
    + unfold py_lt in H0. apply negb_false_iff, Qle_bool_iff in H0.
      simpl in *. by apply Qle_antisym.
  - unfold snap. rewrite Hvc.
    destruct (py_lt t c2) eqn:Hlt; [|reflexivity].
    destruct Hc2in as [->| ->].
    + unfold py_lt in Hlt. apply negb_true_iff in Hlt.
      assert (Qle_bool (num_val (PyInt 0)) (num_val t) = true)
        by (apply Qle_bool_iff; exact Hnonneg).
      congruence.
    + by rewrite py_lt_irrefl in Hlt.
Qed.
End equalizer_facts.

(** C7. The equalizer is idempotent: on every list of histograms for which it
    returns, for a shot count and lattice dimensions that are not negative,
    equalizing the result again returns, and returns a list that Python's
    [==] cannot tell from the first result. *)
Theorem equalize_idempotent (k : nat) (rows cols shots : Z)
    (counts once : list Hist) :
  0 ≤ shots → 0 ≤ rows → 0 ≤ cols →
  Equalizer.equalize k rows cols counts shots = Ok once →
  ∃ twice, Equalizer.equalize k rows cols once shots = Ok twice ∧
           Forall2 hist_eq twice once.
Proof.
  intros Hs Hrows Hcols. unfold Equalizer.equalize.
  intros H%comprehension_Ok.
  induction H as [|count r counts once Hr _ (twice & Htwice & Heq)]; simpl.
  - exists []. by split.
  - destruct (equalize_count_idempotent k rows cols shots count r)
      as (r' & Hr' & Hrr); [done..|].
    exists (r' :: twice). rewrite Hr'; simpl. rewrite Htwice; simpl.
    split; [done|by constructor].
Qed.

Lemma equalize_idempotent_witness :
  0 ≤ 100 ∧ 0 ≤ 2 ∧
  Equalizer.equalize 2 2 2 [spec_counts] 100 =
    Ok [snap (PyInt 30) (PyFloat (200 # 4)) <$> spec_counts] ∧
  ∃ twice,
    Equalizer.equalize 2 2 2
      [snap (PyInt 30) (PyFloat (200 # 4)) <$> spec_counts] 100 = Ok twice ∧
    Forall2 hist_eq twice [snap (PyInt 30) (PyFloat (200 # 4)) <$> spec_counts].
Proof.
  split; [lia|]. split; [lia|].
  assert (Equalizer.equalize 2 2 2 [spec_counts] 100 =
          Ok [snap (PyInt 30) (PyFloat (200 # 4)) <$> spec_counts]) as H
    by (vm_compute; reflexivity).
  split; [exact H|].
  apply (equalize_idempotent 2 2 2 100 [spec_counts]); [lia | lia | lia | exact H].
Defined.


(** C9. The equalizer is partial. For k >= 1 measured qubits the cutoff is
    read at index 2^(k-1) of the sorted counts: when [equalize] returns,
    every histogram of its input has more than 2^(k-1) entries; a histogram
    with at most 2^(k-1) entries makes the call fail, with an IndexError when
    it is the one being processed. *)
Theorem equalize_partial (k : nat) (rows cols shots : Z) :
  (0 < k)%nat →
  (∀ counts r,
     Equalizer.equalize k rows cols counts shots = Ok r →
     Forall (λ count : Hist, (2 ^ (k - 1) < size count)%nat) counts) ∧
  (∀ (count : Hist) rest,
     (size count ≤ 2 ^ (k - 1))%nat →
     Equalizer.equalize k rows cols (count :: rest) shots = Raise IndexError) ∧
  (∀ counts,
     Exists (λ count : Hist, (size count ≤ 2 ^ (k - 1))%nat) counts →
     raises (Equalizer.equalize k rows cols counts shots)).
Proof.
  intros Hk. destruct k as [|k']; [lia|]. clear Hk.
  replace (S k' - 1)%nat with k' by lia.
  assert (∀ count : Hist, (size count ≤ 2 ^ k')%nat →
            Equalizer.equalize_count (S k') rows cols shots count
            = Raise IndexError) as Hsmall.
  { intros count Hsize. unfold Equalizer.equalize_count.
    by rewrite (cutoff_index_out_of_range (S k') count k'). }
  split_and!.
  - intros counts r H%comprehension_Ok.
    induction H as [|count r1 counts r Hr _ IH]; constructor; [|done].
    destruct (decide (2 ^ k' < size count)%nat) as [|Hn]; [done|].
    rewrite Hsmall in Hr by lia. discriminate.
  - intros count rest Hsize. unfold Equalizer.equalize; simpl.
    by rewrite Hsmall.
  - intros counts Hex. apply comprehension_raises.
    eapply Exists_impl; [exact Hex|]. intros count Hsize; simpl in *.
    exists IndexError. by apply Hsmall.
Qed.

Lemma equalize_partial_witness :
  (0 < 2)%nat ∧
  Equalizer.equalize 2 2 2 [thirds] 100 = Raise IndexError.
Proof.
  split; [lia|].
  apply (proj1 (proj2 (equalize_partial 2 2 2 100 ltac:(lia)))).
  vm_compute. lia.
Defined.

(** When every histogram has more than 2^(k-1) entries and the lattice is not
    empty, the equalizer returns. *)
Lemma equalize_returns (k : nat) (rows cols shots : Z) (counts : list Hist) :
  (0 < k)%nat → rows * cols ≠ 0 →
  Forall (λ count : Hist, (2 ^ (k - 1) < size count)%nat) counts →
  is_ok (Equalizer.equalize k rows cols counts shots).
Proof.
  intros Hk Hd Hall. destruct k as [|k']; [lia|]. clear Hk.
  replace (S k' - 1)%nat with k' in Hall by lia.
  apply comprehension_total. eapply Forall_impl; [exact Hall|].
  intros count Hsize; simpl in *.
  destruct (cutoff_in_range (S k') count k' eq_refl Hsize) as [c Hc].
  assert (is_ok (Equalizer.target rows cols shots)) as [t Ht].
  { unfold Equalizer.target, py_div; simpl.
    destruct (Qeq_bool _ 0) eqn:Hz; [|by eexists].
    apply Qeq_bool_eq in Hz. exfalso. apply Hd.
    apply Qmult_integral in Hz as [Hz|Hz]; [|discriminate].
    unfold Qeq in Hz; simpl in Hz. lia. }
  rewrite (equalize_count_snap _ _ _ _ _ c t Hc Ht). by eexists.
Qed.


(** ** Sums of rationals and Python arithmetic *)

Lemma Qsum_cons (x : Q) (l : list Q) : Qsum (x :: l) = (x + Qsum l)%Q.
Proof. done. Qed.

Lemma Qsum_perm (l l' : list Q) : l ≡ₚ l' → (Qsum l == Qsum l')%Q.
Proof.
  induction 1 as [|x l l' _ IH|x y l|l l' l'' _ IH1 _ IH2]; simpl.
  - reflexivity.
  - by rewrite IH.
  - ring.
  - by rewrite IH1.
Qed.

Lemma Qsum_ext {A} (f g : A → Q) (l : list A) :
  Forall (λ x, f x == g x)%Q l → (Qsum (f <$> l) == Qsum (g <$> l))%Q.
Proof.
  induction 1 as [|x l Hx _ IH]; [reflexivity|].
  rewrite !fmap_cons, !Qsum_cons. by rewrite Hx, IH.
Qed.

Lemma Qsum_scale {A} (f : A → Q) (c : Q) (l : list A) :
  (Qsum ((λ x, f x * c) <$> l) == Qsum (f <$> l) * c)%Q.
Proof.
  induction l as [|x l IH]; [simpl; ring|].
  rewrite !fmap_cons, !Qsum_cons, IH. ring.
Qed.

Lemma Qsum_nonneg (l : list Q) : Forall (λ x, 0 <= x)%Q l → (0 <= Qsum l)%Q.
Proof.
  induction 1 as [|x l Hx _ IH]; simpl; [apply Qle_refl|].
  rewrite <-(Qplus_0_l 0). by apply Qplus_le_compat.
Qed.

Lemma Qsum_nonneg_zero (l : list Q) :
  Forall (λ x, 0 <= x)%Q l → (Qsum l <= 0)%Q → Forall (λ x, x == 0)%Q l.
Proof.
  induction 1 as [|x l Hx Hl IH]; simpl; intros Hsum; [constructor|].
  pose proof (Qsum_nonneg l Hl) as Hl0.
  constructor; [lra|]. apply IH. lra.
Qed.

Lemma num_val_py_add (a b : pynum) :
  (num_val (py_add a b) == num_val a + num_val b)%Q.
Proof.
  destruct a, b; simpl; try reflexivity.
  unfold Qeq, Qplus; simpl. lia.
Qed.

Lemma num_val_py_sum (l : list pynum) :
  (num_val (py_sum l) == Qsum (num_val <$> l))%Q.
Proof.
  unfold py_sum.
  assert (∀ a, num_val (foldl py_add a l) == num_val a + Qsum (num_val <$> l))%Q
    as H.
  { induction l as [|x l IH]; intros a.
    - simpl. ring.
    - rewrite fmap_cons, Qsum_cons. cbn [foldl].
      rewrite IH, num_val_py_add. ring. }
  rewrite H. simpl. ring.
Qed.

Lemma py_int_proper (q q' : Q) : (q == q')%Q → py_int q = py_int q'.
Proof.
  intros H. unfold py_int. rewrite (Qleb_comp 0%Q 0%Q (Qeq_refl 0%Q) _ _ H).
  destruct (Qle_bool 0 q'); [by apply Qfloor_comp|by apply Qceiling_comp].
Qed.

Lemma py_lt_spec (a b : pynum) : py_lt a b = true ↔ (num_val a < num_val b)%Q.
Proof.
  unfold py_lt. rewrite negb_true_iff. split.
  - intros H. apply Qnot_le_lt. intros Hle%Qle_bool_iff. congruence.
  - intros H. destruct (Qle_bool _ _) eqn:Hle; [|done].
    apply Qle_bool_iff in Hle. by apply Qlt_not_le in H.
Qed.

Lemma py_div_Ok (a b : pynum) :
  ¬ (num_val b == 0)%Q → py_div a b = Ok (PyFloat (num_val a / num_val b)).
Proof.
  intros H. unfold py_div.
  destruct (Qeq_bool _ 0) eqn:Hz; [|done]. by apply Qeq_bool_eq in Hz.
Qed.

(** ** The combination step of the cancellation sampler *)

Section combine_facts.
Implicit Types (all_counts : list Hist) (combined counts : Hist).

(** One round of accumulation never raises for a non-zero weight. *)
Lemma accumulate_Ok (w : Z) combined counts :
  w ≠ 0 →
  Cancellation.accumulate w combined counts =
  Ok (map_imap
        (λ b acc, Some (py_add acc
           (PyFloat (num_val (get0 counts b) / inject_Z w))))
        combined).
Proof.
  intros Hw. unfold Cancellation.accumulate.
  apply dict_comprehension_pure. intros b acc _.
  rewrite py_div_Ok; [done|]. simpl.
  unfold Qeq; simpl. lia.
Qed.

(** The accumulated value of every bitstring after the rounds over a list
    of samples. *)
Lemma for_each_accumulate (w : Z) (l : list Hist) combined :
  w ≠ 0 →
  (∀ b x, combined !! b = Some x → ∃ q, x = PyFloat q) →
  ∃ r, for_each (Cancellation.accumulate w) combined l = Ok r ∧
       dom r = dom combined ∧
       ∀ b x, combined !! b = Some x →
         ∃ q, r !! b = Some (PyFloat q) ∧
              (q == num_val x +
                    Qsum ((λ counts, num_val (get0 counts b) / inject_Z w)
                          <$> l))%Q.
Proof.
  intros Hw. revert combined.
  induction l as [|counts l IH]; intros combined Hfloat; cbn [for_each].
  - exists combined. split_and!; [done..|].
    intros b x Hb. destruct (Hfloat _ _ Hb) as [q ->].
    exists q. split; [done|]. simpl. ring.
  - rewrite accumulate_Ok by done. cbn [mbind result_bind].
    set (combined' := map_imap _ combined).
    assert (∀ b, combined' !! b =
              (λ acc, py_add acc
                 (PyFloat (num_val (get0 counts b) / inject_Z w)))
              <$> combined !! b) as Hlook.
    { intros b. unfold combined'. rewrite map_lookup_imap.
      by destruct (combined !! b). }
    destruct (IH combined') as (r & Hr & Hdom & Hval).
    { intros b x. rewrite Hlook.
      destruct (combined !! b) as [x0|] eqn:Hb; [|done].
      destruct (Hfloat _ _ Hb) as [q0 ->]. simpl. intros [= <-]. eauto. }
    exists r. split_and!; [done| |].
    + rewrite Hdom. apply set_eq. intros b.
      rewrite !elem_of_dom, Hlook. by rewrite fmap_is_Some.
    + intros b x Hb.
      destruct (Hval b (py_add x
                 (PyFloat (num_val (get0 counts b) / inject_Z w))))
        as (q & Hq & Heq).
      { by rewrite Hlook, Hb. }
      exists q. split; [done|].
      rewrite Heq, num_val_py_add, fmap_cons, Qsum_cons. simpl. ring.
Qed.

Lemma Qsum_div (w : Q) (b : string) (l : list Hist) :
  (Qsum ((λ counts, num_val (get0 counts b) / w) <$> l)
   == Qsum ((λ counts, num_val (get0 counts b)) <$> l) / w)%Q.
Proof. unfold Qdiv. apply Qsum_scale. Qed.

(** The dict [combined] after the loops: every bitstring seen in some
    sample, with its mean as a float. *)
Lemma combined_means all_counts :
  all_counts ≠ [] →
  ∃ combined,
    for_each
      (Cancellation.accumulate (Z.of_nat (length all_counts)))
      (gset_to_gmap (PyFloat 0) (Cancellation.all_bitstrings all_counts))
      all_counts = Ok combined ∧
    dom combined = Cancellation.all_bitstrings all_counts ∧
    (∀ b, b ∈ Cancellation.all_bitstrings all_counts →
       ∃ q, combined !! b = Some (PyFloat q) ∧
            (q == mean_count all_counts b)%Q) ∧
    (num_val (py_sum (values combined)) == total_mean all_counts)%Q.
Proof.
  intros Hne.
  set (bs := Cancellation.all_bitstrings all_counts).
  set (w := Z.of_nat (length all_counts)).
  assert (w ≠ 0) as Hw by (destruct all_counts; [done|simpl in w; lia]).
  destruct (for_each_accumulate w all_counts (gset_to_gmap (PyFloat 0) bs) Hw)
    as (combined & Hc & Hdom & Hval).
  { intros b x (_ & <-)%lookup_gset_to_gmap_Some. eauto. }
  rewrite dom_gset_to_gmap in Hdom.
  assert (∀ b, b ∈ bs →
            ∃ q, combined !! b = Some (PyFloat q) ∧
                 (q == mean_count all_counts b)%Q) as Hmean.
  { intros b Hb.
    destruct (Hval b (PyFloat 0)) as (q & Hq & Heq).
    { by apply lookup_gset_to_gmap_Some. }
    exists q. split; [done|]. rewrite Heq, Qsum_div. simpl.
    unfold mean_count. fold w. ring. }
  exists combined. split_and!; [done..|].
  rewrite num_val_py_sum. unfold values, total_mean. fold bs.
  assert (dom combined = list_to_set (map_to_list combined).*1) as Hd
    by apply leibniz_equiv, dom_alt.
  rewrite <-Hdom, Hd.
  rewrite (Qsum_perm _ _
    (fmap_Permutation _ _ _
       (elements_list_to_set _ (NoDup_fst_map_to_list combined)))).
  rewrite <-!list_fmap_compose.
  apply Qsum_ext, Forall_forall. intros [b x] Hin%elem_of_map_to_list.
  simpl. destruct (Hmean b) as (q & Hq & Heq).
  { rewrite <-Hdom. apply elem_of_dom. eauto. }
  rewrite Hq in Hin. injection Hin as <-. exact Heq.
Qed.
End combine_facts.

Section combine_results.
Context {R : Type}.
Implicit Types (all_counts : list Hist) (representation : list R).

Lemma combine_unfold all_counts representation (target_shots : Z) :
  all_counts ≠ [] →
  Cancellation._combine_pec_results all_counts representation target_shots =
  (combined ←
     for_each (Cancellation.accumulate (Z.of_nat (length all_counts)))
       (gset_to_gmap (PyFloat 0) (Cancellation.all_bitstrings all_counts))
       all_counts;
   if py_lt (PyInt 0) (py_sum (values combined)) then
     scaling_factor ← py_div (PyInt target_shots) (py_sum (values combined));
     Ok (Cancellation.rescale scaling_factor <$> combined)
   else Ok combined).
Proof. by destruct all_counts. Qed.

Lemma total_mean_nil : total_mean [] = 0%Q.
Proof. reflexivity. Qed.

(** With a positive total the means are rescaled and truncated. *)
Lemma combine_positive all_counts representation (target_shots : Z) :
  (0 < total_mean all_counts)%Q →
  ∃ r, Cancellation._combine_pec_results all_counts representation
         target_shots = Ok r ∧
       ∀ b, r !! b =
            if decide (b ∈ Cancellation.all_bitstrings all_counts)
            then Some (PyInt (py_int
                   (mean_count all_counts b *
                    (inject_Z target_shots / total_mean all_counts))))
            else None.
Proof.
  intros Hpos.
  assert (all_counts ≠ []) as Hne.
  { intros ->. rewrite total_mean_nil in Hpos. by apply Qlt_irrefl in Hpos. }
  destruct (combined_means all_counts Hne)
    as (combined & Hc & Hdom & Hmean & Htotal).
  rewrite combine_unfold, Hc by done. cbn [mbind result_bind].
  assert (py_lt (PyInt 0) (py_sum (values combined)) = true) as ->.
  { apply py_lt_spec. by rewrite Htotal. }
  rewrite py_div_Ok.
  2:{ rewrite Htotal. intros H. rewrite H in Hpos. by apply Qlt_irrefl in Hpos. }
  cbn [mbind result_bind]. eexists. split; [done|]. intros b.
  rewrite lookup_fmap. case_decide as Hb.
  - destruct (Hmean b Hb) as (q & -> & Hq). simpl.
    unfold Cancellation.rescale. do 2 f_equal. apply py_int_proper.
    simpl. by rewrite Hq, Htotal.
  - rewrite <-Hdom in Hb. apply not_elem_of_dom in Hb. by rewrite Hb.
Qed.

(** Without a positive total the means are returned as they are. *)
Lemma combine_not_positive all_counts representation (target_shots : Z) :
  ¬ (0 < total_mean all_counts)%Q →
  ∃ r, Cancellation._combine_pec_results all_counts representation
         target_shots = Ok r ∧
       dom r = Cancellation.all_bitstrings all_counts ∧
       ∀ b x, r !! b = Some x →
         ∃ q, x = PyFloat q ∧ (q == mean_count all_counts b)%Q.
Proof.
  intros Hpos. destruct (decide (all_counts = [])) as [->|Hne].
  { exists ∅. split_and!; [done|by rewrite dom_empty_L|].
    intros b x. by rewrite lookup_empty. }
  destruct (combined_means all_counts Hne)
    as (combined & Hc & Hdom & Hmean & Htotal).
  rewrite combine_unfold, Hc by done. cbn [mbind result_bind].
  assert (py_lt (PyInt 0) (py_sum (values combined)) = false) as ->.
  { destruct (py_lt _ _) eqn:Hlt; [|done].
    apply py_lt_spec in Hlt. rewrite Htotal in Hlt. done. }
  exists combined. split_and!; [done..|].
  intros b x Hb. destruct (Hmean b) as (q & Hq & Heq).
  { rewrite <-Hdom. apply elem_of_dom. eauto. }
  exists q. split; [congruence|done].
Qed.

Lemma mean_count_nonneg all_counts b :
  Forall (λ counts : Hist, ∀ b c, counts !! b = Some c → (0 <= num_val c)%Q)
    all_counts →
  (0 <= mean_count all_counts b)%Q.
Proof.
  intros Hnn. unfold mean_count.
  assert (0 <= Qsum ((λ counts, num_val (get0 counts b)) <$> all_counts))%Q
    as Hsum.
  { apply Qsum_nonneg, Forall_fmap. eapply Forall_impl; [exact Hnn|].
    intros counts Hc; simpl in *. unfold get0.
    destruct (counts !! b) as [c|] eqn:Hb; simpl; [by eapply Hc|done]. }
  destruct all_counts as [|c0 l]; [done|].
  apply Qle_shift_div_l.
  - change 0%Q with (inject_Z 0). rewrite <-Zlt_Qlt. simpl. lia.
  - by rewrite Qmult_0_l.
Qed.
End combine_results.

(** ** The combination step in binary floating point *)

Section ordered_items.
Context {A B : Type}.
Implicit Types (f : string → A → result B) (l : list (string * A)).

(** A dict comprehension over items with distinct keys, key by key. *)
Lemma comprehension_items_lookup f l r (key : string) :
  NoDup l.*1 → comprehension_items f l = Ok r →
  match (list_to_map l : gmap string A) !! key with
  | Some v => ∃ y, f key v = Ok y ∧
                   (list_to_map r : gmap string B) !! key = Some y
  | None => (list_to_map r : gmap string B) !! key = None
  end.
Proof.
  intros Hnd Hl. apply comprehension_items_Ok in Hl.
  assert (Hfst : r.*1 = l.*1).
  { clear -Hl. induction Hl as [|p q ? ? [Hpq _] _ IH]; [done|].
    rewrite !fmap_cons. by f_equal. }
  destruct (list_to_map l !! key) as [v|] eqn:Hm.
  - apply elem_of_list_to_map in Hm; [|done].
    assert (∃ y, f key v = Ok y ∧ (key, y) ∈ r) as (y & Hy & Hin).
    { clear -Hl Hm. induction Hl as [|p q ? ? [Hpq Hf] _ IH].
      - by apply elem_of_nil in Hm.
      - apply elem_of_cons in Hm as [<-|Hm].
        + exists q.2. split; [done|]. simpl in Hpq. rewrite Hpq.
          destruct q; left.
        + destruct (IH Hm) as (y & ? & ?). exists y. split; [done|by right]. }
    exists y. split; [done|]. apply elem_of_list_to_map; [|done].
    by rewrite Hfst.
  - apply not_elem_of_list_to_map. rewrite Hfst.
    by apply not_elem_of_list_to_map.
Qed.
End ordered_items.

Section combine64_facts.
Context (set_order : gset string → list string).
Context (set_order_perm : ∀ X, set_order X ≡ₚ elements X).
Implicit Types (all_counts : list Counts).
Implicit Types (combined : gmap string Binary64.float).

Lemma elem_of_all_bitstrings64 all_counts b :
  b ∈ Cancellation64.all_bitstrings all_counts ↔
  Exists (λ counts : Counts, is_Some (counts !! b)) all_counts.
Proof.
  unfold Cancellation64.all_bitstrings.
  assert (∀ acc : gset string,
            b ∈ foldl (λ acc (counts : Counts), acc ∪ dom counts) acc all_counts
            ↔ b ∈ acc ∨ Exists (λ counts : Counts, is_Some (counts !! b))
                           all_counts)
    as H.
  { induction all_counts as [|counts l IH]; intros acc; simpl.
    - rewrite Exists_nil. tauto.
    - rewrite IH, Exists_cons, elem_of_union, elem_of_dom. tauto. }
  rewrite H, elem_of_empty. tauto.
Qed.

(** The rounds of accumulation, bitstring by bitstring. *)
Lemma accumulate_rounds (w : Z) (l : list Counts) combined r :
  for_each (Cancellation64.accumulate w) combined l = Ok r →
  dom r = dom combined ∧
  ∀ b a, combined !! b = Some a →
    ∃ a', r !! b = Some a' ∧
      for_each
        (λ acc counts,
           q ← Cancellation64.share w counts b; Ok (Binary64.add acc q))
        a l = Ok a'.
Proof.
  revert combined. induction l as [|counts l IH]; intros combined;
    cbn [for_each].
  - intros [= <-]. split; [done|]. intros b a Hb. by exists a.
  - intros (combined' & Hacc & Hrest)%bind_Ok_inv.
    destruct (IH _ Hrest) as [Hdom Hval].
    assert (∀ b, match combined !! b with
                 | Some a => ∃ y,
                     (q ← Cancellation64.share w counts b;
                      Ok (Binary64.add a q)) = Ok y ∧ combined' !! b = Some y
                 | None => combined' !! b = None
                 end) as Hstep.
    { intros b. exact (dict_comprehension_Ok _ _ _ b Hacc). }
    split.
    + rewrite Hdom. apply set_eq. intros b. rewrite !elem_of_dom.
      specialize (Hstep b). destruct (combined !! b) as [a|].
      * destruct Hstep as (y & _ & ->). split; by eexists.
      * rewrite Hstep. split; intros [? [=]].
    + intros b a Hb. specialize (Hstep b). rewrite Hb in Hstep.
      destruct Hstep as (y & Hy & Hb').
      destruct (Hval b y Hb') as (a' & Ha' & Hfold).
      exists a'. split; [done|]. cbn [mbind result_bind] in *.
      destruct (Cancellation64.share w counts b) as [q|e]; [|discriminate].
      cbn [mbind result_bind] in *. injection Hy as <-. exact Hfold.
Qed.

(** The dict [combined] after the loops. *)
Lemma combined_floats all_counts combined :
  for_each (Cancellation64.accumulate (Z.of_nat (length all_counts)))
    (gset_to_gmap Binary64.zero (Cancellation64.all_bitstrings all_counts))
    all_counts = Ok combined →
  dom combined = Cancellation64.all_bitstrings all_counts ∧
  ∀ b a, combined !! b = Some a → mean_float all_counts b = Ok a.
Proof.
  intros Hc. destruct (accumulate_rounds _ _ _ _ Hc) as [Hdom Hval].
  rewrite dom_gset_to_gmap in Hdom. split; [done|].
  intros b a Hb.
  destruct (Hval b Binary64.zero) as (a' & Ha' & Hfold).
  { apply lookup_gset_to_gmap_Some. split; [|done].
    rewrite <-Hdom. apply elem_of_dom. by eexists. }
  unfold mean_float. congruence.
Qed.

(** The items of [combined] in the order of the set it was built from. *)
Lemma items_keys combined :
  (Cancellation64.items set_order (dom combined) combined).*1
  = set_order (dom combined).
Proof.
  unfold Cancellation64.items.
  assert (Forall (λ b, is_Some (combined !! b)) (set_order (dom combined)))
    as Hall.
  { apply Forall_forall. intros b Hb. apply elem_of_dom.
    by rewrite set_order_perm, elem_of_elements in Hb. }
  induction Hall as [|b l [a Ha] _ IH]; [done|].
  cbn [omap list_omap]. rewrite Ha. cbn [fmap option_fmap option_map].
  rewrite fmap_cons. by f_equal.
Qed.

Lemma items_NoDup combined :
  NoDup (Cancellation64.items set_order (dom combined) combined).*1.
Proof. rewrite items_keys, set_order_perm. apply NoDup_elements. Qed.

Lemma items_to_map combined :
  list_to_map (Cancellation64.items set_order (dom combined) combined)
  = combined.
Proof.
  apply map_eq. intros b.
  destruct (combined !! b) as [a|] eqn:Hb.
  - apply elem_of_list_to_map; [apply items_NoDup|].
    unfold Cancellation64.items. apply list_elem_of_omap. exists b.
    split; [|by rewrite Hb].
    rewrite set_order_perm, elem_of_elements. apply elem_of_dom. by eexists.
  - apply not_elem_of_list_to_map. rewrite items_keys, set_order_perm.
    rewrite elem_of_elements. by apply not_elem_of_dom.
Qed.

Lemma combine64_unfold {R} all_counts (representation : list R)
    (target_shots : Z) :
  all_counts ≠ [] →
  Cancellation64._combine_pec_results set_order all_counts representation
    target_shots =
  (combined ←
     for_each (Cancellation64.accumulate (Z.of_nat (length all_counts)))
       (gset_to_gmap Binary64.zero (Cancellation64.all_bitstrings all_counts))
       all_counts;
   let total_counts :=
     Binary64.sum
       (Cancellation64.items set_order
          (Cancellation64.all_bitstrings all_counts) combined).*2 in
   if Binary64.ltb Binary64.zero total_counts then
     target ← Binary64.of_int target_shots;
     list_to_map <$>
       comprehension_items
         (Cancellation64.rescale (Binary64.div target total_counts))
         (Cancellation64.items set_order
            (Cancellation64.all_bitstrings all_counts) combined)
   else Ok (Binary64.Float <$> combined)).
Proof. by destruct all_counts. Qed.

Lemma combine64_Ok {R} all_counts (representation : list R)
    (target_shots : Z) (r : gmap string Binary64.num) :
  all_counts ≠ [] →
  Cancellation64._combine_pec_results set_order all_counts representation
    target_shots = Ok r →
  ∃ means : gmap string Binary64.float,
    dom means = Cancellation64.all_bitstrings all_counts ∧
    (∀ b a, means !! b = Some a → mean_float all_counts b = Ok a) ∧
    let total :=
      Binary64.sum (Cancellation64.items set_order (dom means) means).*2 in
    if Binary64.ltb Binary64.zero total then
      ∃ target, Binary64.of_int target_shots = Ok target ∧
        ∀ b, match means !! b with
             | Some a =>
                 ∃ z, Binary64.to_int
                        (Binary64.mul a (Binary64.div target total)) = Ok z ∧
                      r !! b = Some (Binary64.Int z)
             | None => r !! b = None
             end
    else r = Binary64.Float <$> means.
Proof.
  intros Hne. rewrite combine64_unfold by done.
  intros (combined & Hc & Hr)%bind_Ok_inv.
  destruct (combined_floats _ _ Hc) as [Hdom Hmean].
  exists combined. split_and!; [done..|]. rewrite Hdom. cbv zeta in *.
  destruct (Binary64.ltb _ _); [|congruence].
  apply bind_Ok_inv in Hr as (target & Ht & Hr).
  exists target. split; [done|]. intros b.
  destruct (comprehension_items _ _) as [l|e] eqn:Hl; [|discriminate].
  injection Hr as <-. rewrite <-Hdom in Hl.
  pose proof (comprehension_items_lookup _ _ _ b (items_NoDup combined) Hl)
    as Hb.
  rewrite items_to_map in Hb. rewrite <-Hdom.
  destruct (combined !! b) as [a|]; [|done].
  destruct Hb as (y & Hy & Hlook). unfold Cancellation64.rescale in Hy.
  apply bind_Ok_inv in Hy as (z & Hz & [= <-]). by exists z.
Qed.
End combine64_facts.

Section combine64_returns.
Context (set_order : gset string → list string).
Context (set_order_perm : ∀ X, set_order X ≡ₚ elements X).
Implicit Types (all_counts : list Counts).
Implicit Types (combined : gmap string Binary64.float).

(** The rounds of accumulation return when they do for every bitstring. *)
Lemma accumulate_total (w : Z) (l : list Counts) combined :
  (∀ b a, combined !! b = Some a →
     is_ok (for_each
              (λ acc counts,
                 q ← Cancellation64.share w counts b; Ok (Binary64.add acc q))
              a l)) →
  is_ok (for_each (Cancellation64.accumulate w) combined l).
Proof.
  revert combined. induction l as [|counts l IH]; intros combined Hall;
    cbn [for_each]; [by eexists|].
  destruct (dict_comprehension_total
              (λ bitstring acc,
                 q ← Cancellation64.share w counts bitstring;
                 Ok (Binary64.add acc q)) combined) as [combined' Hc].
  { intros b a Hb. destruct (Hall b a Hb) as [a' Ha']. cbn [for_each] in Ha'.
    apply bind_Ok_inv in Ha' as (y & Hy & _). by exists y. }
  unfold Cancellation64.accumulate. rewrite Hc. cbn [mbind result_bind].
  apply IH. intros b y Hb'.
  pose proof (dict_comprehension_Ok _ _ _ b Hc) as Hb.
  destruct (combined !! b) as [a|] eqn:Ha; [|congruence].
  destruct Hb as (y' & Hy' & Hlook).
  replace y' with y in * by congruence.
  destruct (Hall b a Ha) as [a' Ha']. cbn [for_each] in Ha'.
  rewrite Hy' in Ha'. by exists a'.
Qed.

(** The combination step returns when no quotient, no conversion of the
    target and no product overflows or is a NaN. *)
Lemma combine64_returns {R} all_counts (representation : list R)
    (target_shots : Z) (means : gmap string Binary64.float) :
  dom means = Cancellation64.all_bitstrings all_counts →
  (∀ b a, means !! b = Some a → mean_float all_counts b = Ok a) →
  (let total :=
     Binary64.sum (Cancellation64.items set_order (dom means) means).*2 in
   Binary64.ltb Binary64.zero total = true →
   ∃ target, Binary64.of_int target_shots = Ok target ∧
     ∀ b a, means !! b = Some a →
       is_ok (Binary64.to_int
                (Binary64.mul a (Binary64.div target total)))) →
  is_ok (Cancellation64._combine_pec_results set_order all_counts
           representation target_shots).
Proof.
  intros Hdom Hmean Hscale.
  destruct (decide (all_counts = [])) as [->|Hne]; [by eexists|].
  rewrite combine64_unfold by done.
  destruct (accumulate_total (Z.of_nat (length all_counts)) all_counts
              (gset_to_gmap Binary64.zero
                 (Cancellation64.all_bitstrings all_counts)))
    as [combined Hc].
  { intros b a (Hb & <-)%lookup_gset_to_gmap_Some.
    rewrite <-Hdom in Hb. apply elem_of_dom in Hb as [a Ha].
    exists a. by apply Hmean. }
  rewrite Hc. cbn [mbind result_bind].
  destruct (combined_floats _ _ Hc) as [Hdom' Hmean'].
  assert (combined = means) as ->.
  { apply map_eq. intros b. destruct (combined !! b) as [a|] eqn:Ha.
    - assert (is_Some (means !! b)) as [a' Ha'].
      { apply elem_of_dom. rewrite Hdom, <-Hdom'. apply elem_of_dom.
        by eexists. }
      rewrite Ha'. f_equal.
      pose proof (Hmean' _ _ Ha). pose proof (Hmean _ _ Ha'). congruence.
    - symmetry. apply not_elem_of_dom. rewrite Hdom, <-Hdom'.
      by apply not_elem_of_dom. }
  rewrite <-Hdom. cbv zeta in *.
  destruct (Binary64.ltb _ _); [|by eexists].
  destruct (Hscale eq_refl) as (target & -> & Hprod).
  cbn [mbind result_bind].
  destruct (comprehension_items_total
              (Cancellation64.rescale
                 (Binary64.div target
                    (Binary64.sum
                       (Cancellation64.items set_order (dom means) means).*2)))
              (Cancellation64.items set_order (dom means) means))
    as [l Hl].
  { apply Forall_forall. intros [b a] Hin.
    assert (means !! b = Some a) as Hb.
    { rewrite <-(items_to_map set_order set_order_perm means).
      apply elem_of_list_to_map; [by apply items_NoDup|done]. }
    destruct (Hprod b a Hb) as [z Hz]. unfold Cancellation64.rescale.
    simpl. rewrite Hz. by eexists. }
  rewrite Hl. by eexists.
Qed.
End combine64_returns.

(** The two iteration orders of a set of two strings. *)
Lemma two_orders (set_order : gset string → list string) (X : gset string)
    (b1 b2 : string) :
  (∀ X, set_order X ≡ₚ elements X) → elements X = [b1; b2] →
  set_order X = [b1; b2] ∨ set_order X = [b2; b1].
Proof.
  intros Hperm Hel. specialize (Hperm X). rewrite Hel in Hperm.
  symmetry in Hperm. by apply Permutation_length_2_inv in Hperm.
Qed.

(** C6 (amended). For every bitstring seen in some sample the combination
    step adds up, over all samples and in binary floating point, the count of
    the bitstring (0 where it is absent) divided by the number of samples:
    the mean of its counts, up to rounding. When the float total of these
    sums is positive, each sum is multiplied by the float target / total and
    the product is truncated toward zero to an integer; otherwise the sums
    are returned as floats. Nothing makes the returned counts total the
    target. The step returns unless a quotient, the target or a product
    does not fit a float. For the samples {00: 80, 01: 20} and {00: 60, 01: 40} and the
    target 100 the result is {00: 70, 01: 30}, whatever the order in which
    the set of bitstrings is iterated. *)
Theorem combine_mean_rescaled :
  (∀ (R : Type) (set_order : gset string → list string)
     (all_counts : list Counts) (representation : list R) (target_shots : Z)
     (r : gmap string Binary64.num),
     (∀ X, set_order X ≡ₚ elements X) →
     all_counts ≠ [] →
     Cancellation64._combine_pec_results set_order all_counts representation
       target_shots = Ok r →
     ∃ means : gmap string Binary64.float,
       dom means = Cancellation64.all_bitstrings all_counts ∧
       (∀ b a, means !! b = Some a → mean_float all_counts b = Ok a) ∧
       let total :=
         Binary64.sum (Cancellation64.items set_order (dom means) means).*2 in
       if Binary64.ltb Binary64.zero total then
         ∃ target, Binary64.of_int target_shots = Ok target ∧
           ∀ b, match means !! b with
                | Some a =>
                    ∃ z, Binary64.to_int
                           (Binary64.mul a (Binary64.div target total))
                         = Ok z ∧
                         r !! b = Some (Binary64.Int z)
                | None => r !! b = None
                end
       else r = Binary64.Float <$> means) ∧
  (∀ (R : Type) (set_order : gset string → list string)
     (all_counts : list Counts) (representation : list R) (target_shots : Z)
     (means : gmap string Binary64.float),
     (∀ X, set_order X ≡ₚ elements X) →
     dom means = Cancellation64.all_bitstrings all_counts →
     (∀ b a, means !! b = Some a → mean_float all_counts b = Ok a) →
     (let total :=
        Binary64.sum (Cancellation64.items set_order (dom means) means).*2 in
      Binary64.ltb Binary64.zero total = true →
      ∃ target, Binary64.of_int target_shots = Ok target ∧
        ∀ b a, means !! b = Some a →
          is_ok (Binary64.to_int
                   (Binary64.mul a (Binary64.div target total)))) →
     is_ok (Cancellation64._combine_pec_results set_order all_counts
              representation target_shots)) ∧
  (∀ set_order : gset string → list string,
     (∀ X, set_order X ≡ₚ elements X) →
     Cancellation64._combine_pec_results set_order spec_samples64
       ([] : list unit) 100 =
     Ok {[ "00"%string := Binary64.Int 70; "01"%string := Binary64.Int 30 ]}).
Proof.
  split_and!.
  - intros R set_order all_counts representation target_shots r Hperm.
    by apply combine64_Ok.
  - intros R set_order all_counts representation target_shots means Hperm.
    by apply combine64_returns.
  - intros set_order Hperm.
    unfold Cancellation64._combine_pec_results, Cancellation64.items,
      spec_samples64.
    destruct (two_orders set_order
                (Cancellation64.all_bitstrings spec_samples64)
                "01" "00" Hperm) as [Ho|Ho]; [vm_compute; reflexivity| |];
      unfold spec_samples64 in Ho; rewrite Ho; vm_compute; reflexivity.
Qed.

Lemma combine_mean_rescaled_witness :
  (∀ X : gset string, elements X ≡ₚ elements X) ∧ spec_samples64 ≠ [] ∧
  (∃ means : gmap string Binary64.float,
     dom means = Cancellation64.all_bitstrings spec_samples64 ∧
     ∀ b a, means !! b = Some a → mean_float spec_samples64 b = Ok a) ∧
  is_ok (Cancellation64._combine_pec_results elements spec_samples64
           ([] : list unit) 100).
Proof.
  assert (∀ X : gset string, elements X ≡ₚ elements X) as Hperm by done.
  assert (spec_samples64 ≠ []) as Hne by done.
  split; [exact Hperm|]. split; [exact Hne|].
  destruct (proj1 combine_mean_rescaled unit elements spec_samples64 [] 100 _
              Hperm Hne (proj2 (proj2 combine_mean_rescaled) elements Hperm))
    as (means & Hdom & Hmean & Hrest).
  split; [by exists means|].
  apply (proj1 (proj2 combine_mean_rescaled) unit elements spec_samples64 []
           100 means Hperm Hdom Hmean).
  cbv zeta in *. intros Hlt. rewrite Hlt in Hrest.
  destruct Hrest as (target & Ht & Hb). exists target. split; [exact Ht|].
  intros b a Ha. specialize (Hb b). rewrite Ha in Hb.
  destruct Hb as (z & Hz & _). by exists z.
Defined.

(** C6, as stated, fails: one sample {0: 1, 1: 2} rescaled to the target 10
    gives {0: 3, 1: 6}, which totals 9, whatever the order of the set. *)
Lemma combine_total_below_target :
  Cancellation64._combine_pec_results elements [thirds64] ([] : list unit) 10
    = Ok {[ "0"%string := Binary64.Int 3; "1"%string := Binary64.Int 6 ]} ∧
  total_count {[ "0"%string := Binary64.Int 3; "1"%string := Binary64.Int 6 ]}
    = 9 ∧
  9 ≠ 10 ∧
  (∀ set_order : gset string → list string,
     (∀ X, set_order X ≡ₚ elements X) →
     Cancellation64._combine_pec_results set_order [thirds64]
       ([] : list unit) 10
     = Ok {[ "0"%string := Binary64.Int 3; "1"%string := Binary64.Int 6 ]}).
Proof.
  split_and!; [vm_compute; reflexivity..|done|].
  intros set_order Hperm.
  unfold Cancellation64._combine_pec_results, Cancellation64.items.
  destruct (two_orders set_order (Cancellation64.all_bitstrings [thirds64])
              "1" "0" Hperm) as [Ho|Ho]; [vm_compute; reflexivity| |];
    rewrite Ho; vm_compute; reflexivity.
Qed.

(** Rounding decides counts: the mean 19.0 times the float 1000 / 19 is just
    below 1000, and six times the float 1 / 6 is just below 1. *)
Lemma combine_rounds_down :
  Cancellation64._combine_pec_results elements
    [ {[ "0"%string := 0; "1"%string := 19 ]} ] ([] : list unit) 1000
    = Ok {[ "0"%string := Binary64.Int 0; "1"%string := Binary64.Int 999 ]} ∧
  Cancellation64._combine_pec_results elements
    (replicate 6 {[ "0"%string := 1; "1"%string := 3 ]}) ([] : list unit) 4
    = Ok {[ "0"%string := Binary64.Int 0; "1"%string := Binary64.Int 3 ]}.
Proof. split; vm_compute; reflexivity. Qed.

(** A target that no float holds is rounded before it is divided: the one
    count returned can exceed it. *)
Lemma combine_above_target :
  Cancellation64._combine_pec_results elements [ {[ "0"%string := 1 ]} ]
    ([] : list unit) (2 ^ 53 + 3)
    = Ok {[ "0"%string := Binary64.Int (2 ^ 53 + 4) ]}.
Proof. vm_compute. reflexivity. Qed.

(** A count too large for a float makes the combination raise. *)
Lemma combine_overflow :
  Cancellation64._combine_pec_results elements
    [ {[ "0"%string := 2 ^ 1100 ]} ] ([] : list unit) 10
    = Raise OverflowError.
Proof. vm_compute. reflexivity. Qed.

(** C10. The combination step never raises: the only divisions are by the
    number of samples, taken after the guard against an empty list, and by a
    total that the guard has found positive. An empty list of samples gives
    the empty histogram. When the total of the means is not positive the
    means are returned as floats without rescaling, and they are all zero
    when no sample holds a negative count. *)
Theorem combine_never_divides_by_zero {R : Type} (all_counts : list Hist)
    (representation : list R) (target_shots : Z) :
  is_ok (Cancellation._combine_pec_results all_counts representation
           target_shots) ∧
  Cancellation._combine_pec_results [] representation target_shots = Ok ∅ ∧
  (¬ (0 < total_mean all_counts)%Q →
   ∃ r, Cancellation._combine_pec_results all_counts representation
          target_shots = Ok r ∧
        dom r = Cancellation.all_bitstrings all_counts ∧
        ∀ b x, r !! b = Some x →
          ∃ q, x = PyFloat q ∧ (q == mean_count all_counts b)%Q ∧
               (Forall (λ counts : Hist,
                          ∀ b c, counts !! b = Some c → (0 <= num_val c)%Q)
                  all_counts → q == 0)%Q).
Proof.
  split_and!.
  - destruct (Qlt_le_dec 0 (total_mean all_counts)) as [Hpos|Hle].
    + destruct (combine_positive all_counts representation target_shots Hpos)
        as (r & -> & _). by eexists.
    + destruct (combine_not_positive all_counts representation target_shots)
        as (r & -> & _); [by apply Qle_not_lt|]. by eexists.
  - done.
  - intros Hpos.
    destruct (combine_not_positive all_counts representation target_shots Hpos)
      as (r & Hr & Hdom & Hval).
    exists r. split_and!; [done..|].
    intros b x Hb. destruct (Hval b x Hb) as (q & -> & Hq).
    exists q. split_and!; [done..|]. intros Hnn. rewrite Hq.
    assert (Forall (λ x, x == 0)%Q
              (mean_count all_counts <$>
               elements (Cancellation.all_bitstrings all_counts))) as Hzero.
    { apply Qsum_nonneg_zero.
      - apply Forall_fmap, Forall_forall. intros b' _.
        by apply mean_count_nonneg.
      - by apply Qnot_lt_le. }
    rewrite Forall_fmap, Forall_forall in Hzero. apply Hzero.
    apply elem_of_elements. rewrite <-Hdom. apply elem_of_dom. eauto.
Qed.

Lemma combine_never_divides_by_zero_witness :
  ¬ (0 < total_mean [ {[ "0"%string := PyInt 0 ]} ])%Q ∧
  ∃ r, Cancellation._combine_pec_results [ {[ "0"%string := PyInt 0 ]} ]
         ([] : list unit) 10 = Ok r ∧
       dom r = Cancellation.all_bitstrings [ {[ "0"%string := PyInt 0 ]} ].
Proof.
  assert (¬ (0 < total_mean [ {[ "0"%string := PyInt 0 ]} ])%Q) as Hpos
    by (vm_compute; discriminate).
  split; [exact Hpos|].
  destruct (proj2 (proj2 (combine_never_divides_by_zero
                            [ {[ "0"%string := PyInt 0 ]} ]
                            ([] : list unit) 10)) Hpos)
    as (r & Hr & Hdom & _).
  exists r. by split.
Defined.


(** ** Noise extrapolation *)

Lemma NoDup_generate_bitstrings (n : nat) : NoDup (generate_bitstrings n).
Proof.
  induction n as [|n IH]; simpl.
  - apply NoDup_singleton.
  - apply NoDup_app. split_and!.
    + apply NoDup_fmap_2; [|done]. by intros ?? [=].
    + intros s (s1 & -> & _)%list_elem_of_fmap (s2 & [=] & _)%list_elem_of_fmap.
    + apply NoDup_fmap_2; [|done]. by intros ?? [=].
Qed.

Lemma length_generate_bitstrings (n : nat) :
  length (generate_bitstrings n) = (2 ^ n)%nat.
Proof.
  induction n as [|n IH]; simpl; [done|].
  rewrite length_app, !length_fmap, IH. lia.
Qed.

Section dict_facts.
Context {A : Type}.
Implicit Types (m : gmap string A).

Lemma odict_set_fresh key (v : A) d :
  key ∉ d.*1 → odict_set key v d = d ++ [(key, v)].
Proof.
  induction d as [|[key' v'] d IH]; simpl; [done|].
  rewrite not_elem_of_cons. intros [Hne Hnin].
  rewrite decide_False by done. by rewrite IH.
Qed.

Lemma py_dict_lookup (pairs : list (string * A)) b v :
  NoDup pairs.*1 → (py_dict pairs !! b = Some v ↔ (b, v) ∈ pairs).
Proof.
  unfold py_dict.
  assert (∀ m, NoDup pairs.*1 →
            (foldl (λ d p, <[p.1 := p.2]> d) m pairs !! b = Some v ↔
             (b, v) ∈ pairs ∨ ((b ∉ pairs.*1) ∧ m !! b = Some v))) as H.
  { induction pairs as [|[key x] pairs IH]; intros m Hnd.
    - simpl. rewrite elem_of_nil. pose proof (not_elem_of_nil b). tauto.
    - rewrite fmap_cons in Hnd. apply NoDup_cons in Hnd as [Hkey Hnd].
      cbn [foldl]. rewrite IH by done.
      rewrite fmap_cons, elem_of_cons, not_elem_of_cons. simpl.
      destruct (decide (key = b)) as [->|Hne].
      + rewrite lookup_insert_eq. intuition congruence.
      + rewrite lookup_insert_ne by done. intuition congruence. }
  intros Hnd. rewrite H by done. rewrite lookup_empty. intuition congruence.
Qed.

Lemma py_dict_lookup_None (pairs : list (string * A)) b :
  b ∉ pairs.*1 → py_dict pairs !! b = None.
Proof.
  unfold py_dict.
  assert (∀ m, b ∉ pairs.*1 →
            foldl (λ d p, <[p.1 := p.2]> d) m pairs !! b = m !! b) as H.
  { induction pairs as [|[key x] pairs IH]; intros m; simpl; [done|].
    rewrite not_elem_of_cons. intros [Hne Hnin].
    rewrite IH by done. by rewrite lookup_insert_ne. }
  intros Hnin. by rewrite H.
Qed.
End dict_facts.

Section zne_facts.
Implicit Types (step_counts : list Hist) (b : string) (shots : Z).

Lemma get_div_present shots b (counts : Hist) c :
  shots ≠ 0 → counts !! b = Some c →
  NoiseExtrapolator.get_div shots b counts =
  Ok (PyFloat (num_val (get0 counts b) / inject_Z shots)).
Proof.
  intros Hs Hb. unfold NoiseExtrapolator.get_div, get0. rewrite Hb; simpl.
  apply py_div_Ok. simpl. unfold Qeq; simpl. lia.
Qed.

(** With a non-zero shot count the row of a bitstring is the expected one:
    the handler turns one missing count into a row of zeros. *)
Lemma exp_row_expected shots step_counts b :
  shots ≠ 0 →
  NoiseExtrapolator.exp_row shots step_counts b =
  Ok (expected_row shots step_counts b).
Proof.
  intros Hs. unfold NoiseExtrapolator.exp_row, expected_row.
  case_decide as Hall.
  - rewrite (comprehension_pure
      (λ counts, PyFloat (num_val (get0 counts b) / inject_Z shots)));
      [done|].
    eapply Forall_impl; [exact Hall|]. intros counts [c Hc]; simpl.
    by eapply get_div_present.
  - assert (comprehension (NoiseExtrapolator.get_div shots b) step_counts
            = Raise TypeError) as ->; [|done].
    induction step_counts as [|counts l IH]; [by destruct Hall|].
    simpl. destruct (counts !! b) as [c|] eqn:Hb.
    + rewrite (get_div_present _ _ _ c) by done. simpl.
      rewrite IH; [done|]. intros Hl. apply Hall. constructor; [by eexists|done].
    + unfold NoiseExtrapolator.get_div. by rewrite Hb.
Qed.

(** The dict [all_exps] holds one row per bitstring, in the order of the
    bitstrings. *)
Lemma all_exps_Ok shots step_counts (bs : list string) exps :
  NoDup bs →
  NoiseExtrapolator.all_exps shots step_counts bs = Ok exps →
  Forall2 (λ b p, p.1 = b ∧
                  NoiseExtrapolator.exp_row shots step_counts b = Ok p.2)
    bs exps.
Proof.
  unfold NoiseExtrapolator.all_exps.
  set (body := λ (exps : list (string * list pynum)) bitstring, _).
  assert (∀ acc, NoDup bs → (∀ b, b ∈ bs → b ∉ acc.*1) →
            for_each body acc bs = Ok exps →
            ∃ new, exps = acc ++ new ∧
              Forall2 (λ b p, p.1 = b ∧
                NoiseExtrapolator.exp_row shots step_counts b = Ok p.2)
                bs new) as H.
  { induction bs as [|b bs IH]; intros acc Hnd Hfresh; simpl.
    - intros [= <-]. exists []. by rewrite app_nil_r.
    - apply NoDup_cons in Hnd as [Hb Hnd].
      intros (acc' & Hacc & Hrest)%bind_Ok_inv.
      unfold body in Hacc.
      apply bind_Ok_inv in Hacc as (row & Hrow & [= <-]).
      rewrite odict_set_fresh in Hrest by (apply Hfresh; left).
      apply IH in Hrest as (new & -> & Hnew); [|done|].
      + exists ((b, row) :: new). rewrite <-app_assoc. split; [done|].
        by constructor.
      + intros b' Hb'. rewrite fmap_app, elem_of_app. simpl.
        rewrite list_elem_of_singleton. intros [Hin| ->]; [|done].
        by apply (Hfresh b'); [right|]. }
  intros Hnd Hexps. destruct (H [] Hnd) as (new & -> & Hnew); [|done..].
  intros b _. apply not_elem_of_nil.
Qed.

Lemma all_exps_total shots step_counts (bs : list string) :
  Forall (λ b, is_ok (NoiseExtrapolator.exp_row shots step_counts b)) bs →
  is_ok (NoiseExtrapolator.all_exps shots step_counts bs).
Proof.
  unfold NoiseExtrapolator.all_exps. intros H.
  generalize (@nil (string * list pynum)).
  induction H as [|b bs [row Hrow] _ IH]; intros acc; simpl; [by eexists|].
  rewrite Hrow; simpl. apply IH.
Qed.
End zne_facts.

Section zne_step_facts.
Context (extrapolate : list Q → list pynum → nat → Q) (k : nat).
Implicit Types (step_counts : list Hist) (b : string) (shots : Z).

Lemma zip_fst_snd {A B C} (f : B → C) (l : list (A * B)) :
  zip l.*1 (f <$> l.*2) = (λ p, (p.1, f p.2)) <$> l.
Proof.
  induction l as [|[a b] l IH]; [done|].
  rewrite !fmap_cons. simpl. by rewrite IH.
Qed.

(** What a step of the extrapolation returns: exactly the 2^k bitstrings, each
    with the truncated product of its extrapolated value and the shots. *)
Lemma zne_step_Ok shots step_counts r b :
  NoiseExtrapolator.zne_step extrapolate k shots step_counts = Ok r →
  (b ∈ generate_bitstrings k →
   ∃ row, NoiseExtrapolator.exp_row shots step_counts b = Ok row ∧
          r !! b = Some (NoiseExtrapolator.m_val shots
                           (extrapolate NoiseExtrapolator.scale_factors row 2))) ∧
  (b ∉ generate_bitstrings k → r !! b = None).
Proof.
  unfold NoiseExtrapolator.zne_step.
  intros (exps & Hexps & [= <-])%bind_Ok_inv.
  apply all_exps_Ok in Hexps; [|apply NoDup_generate_bitstrings].
  assert (exps.*1 = generate_bitstrings k) as Hfst.
  { clear -Hexps. induction Hexps as [|b' p bs exps [Hp _] _ IH]; [done|].
    rewrite fmap_cons. by f_equal. }
  set (f := λ row, NoiseExtrapolator.m_val shots
                     (extrapolate NoiseExtrapolator.scale_factors row 2)).
  set (pairs := (λ p : string * list pynum, (p.1, f p.2)) <$> exps).
  assert (zip (generate_bitstrings k)
            (NoiseExtrapolator.m_val shots <$>
               ((λ exp, extrapolate NoiseExtrapolator.scale_factors exp 2)
                  <$> exps.*2)) = pairs) as ->.
  { rewrite <-Hfst, <-(list_fmap_compose _ _ exps.*2). apply zip_fst_snd. }
  assert (pairs.*1 = generate_bitstrings k) as Hpairs.
  { unfold pairs. rewrite <-list_fmap_compose. rewrite <-Hfst.
    by apply list_fmap_ext. }
  split.
  - intros Hb.
    assert (∃ row, (b, row) ∈ exps ∧
                   NoiseExtrapolator.exp_row shots step_counts b = Ok row)
      as (row & Hin & Hrow).
    { clear -Hexps Hb. induction Hexps as [|b' [b'' row] bs exps [Hp Hrow] _ IH].
      - by apply elem_of_nil in Hb.
      - simpl in *. subst b''. apply elem_of_cons in Hb as [->|Hb].
        + exists row. split; [left|done].
        + destruct (IH Hb) as (row' & ? & ?). exists row'. split; [by right|done]. }
    exists row. split; [done|].
    apply py_dict_lookup.
    + rewrite Hpairs. apply NoDup_generate_bitstrings.
    + unfold pairs. apply list_elem_of_fmap. by exists (b, row).
  - intros Hb. apply py_dict_lookup_None. by rewrite Hpairs.
Qed.

Lemma zne_step_total shots step_counts :
  shots ≠ 0 →
  is_ok (NoiseExtrapolator.zne_step extrapolate k shots step_counts).
Proof.
  intros Hs. unfold NoiseExtrapolator.zne_step.
  destruct (all_exps_total shots step_counts (generate_bitstrings k))
    as [exps ->]; [|by eexists].
  apply Forall_forall. intros b _. rewrite exp_row_expected by done.
  by eexists.
Qed.
(** The counts of the step-zero job come first, as they are, when the
    equalizer is off. *)
Lemma zne_post_first (rows cols shots : Z) (steps : nat) (first : Hist)
    (all_counts : list (list Hist)) (r : list Hist) :
  NoiseExtrapolator.zne_post extrapolate k false rows cols shots steps first
    all_counts = Ok r →
  ∃ mitigated,
    NoiseExtrapolator.zne_steps extrapolate k shots steps all_counts
      = Ok mitigated ∧
    r = first :: mitigated.
Proof.
  unfold NoiseExtrapolator.zne_post.
  intros (mitigated & Hm & [= <-])%bind_Ok_inv. by exists mitigated.
Qed.
End zne_step_facts.

Lemma py_int_nonneg (q : Q) : 0 ≤ py_int q ↔ (-1 < q)%Q.
Proof.
  unfold py_int. destruct (Qle_bool 0 q) eqn:Hq.
  - apply Qle_bool_iff in Hq. split.
    + intros _. apply Qlt_le_trans with 0%Q; [reflexivity|done].
    + intros _. change 0 with (Qfloor 0). by apply Qfloor_resp_le.
  - split.
    + intros Hc. apply Qle_lt_trans with (inject_Z (Qceiling q - 1)).
      * change (-1)%Q with (inject_Z (-1)). rewrite <-Zle_Qle. lia.
      * apply Qceiling_lt.
    + intros Hlt.
      assert (inject_Z (-1) < inject_Z (Qceiling q))%Q as H.
      { apply Qlt_le_trans with q; [done|apply Qle_ceiling]. }
      rewrite <-Zlt_Qlt in H. lia.
Qed.

(** C1 (amended). For every possible output bitstring over the k measured
    qubits and a non-zero shot count: when every scale factor's histogram
    holds the bitstring, its expectation values are the counts divided by the
    shots; when the histogram of at least one scale factor lacks it, its
    expectation values are 0 at every scale factor, not only at that one.
    Either way the bitstring is part of the fit: the step returns a count for
    it, the truncated product of the shots and the value extrapolated from
    that row. *)
Theorem zne_absent_bitstring (extrapolate : list Q → list pynum → nat → Q)
    (k : nat) (shots : Z) (step_counts : list Hist) (b : string) :
  shots ≠ 0 → b ∈ generate_bitstrings k →
  NoiseExtrapolator.exp_row shots step_counts b =
    Ok (expected_row shots step_counts b) ∧
  ∃ r, NoiseExtrapolator.zne_step extrapolate k shots step_counts = Ok r ∧
       r !! b = Some (NoiseExtrapolator.m_val shots
                        (extrapolate NoiseExtrapolator.scale_factors
                           (expected_row shots step_counts b) 2%nat)).
Proof.
  intros Hs Hb. split; [by apply exp_row_expected|].
  destruct (zne_step_total extrapolate k shots step_counts Hs) as [r Hr].
  exists r. split; [done|].
  destruct (proj1 (zne_step_Ok extrapolate k shots step_counts r b Hr) Hb)
    as (row & Hrow & ->).
  rewrite exp_row_expected in Hrow by done. by injection Hrow as <-.
Qed.

Lemma zne_absent_bitstring_witness :
  5 ≠ 0 ∧ "1"%string ∈ generate_bitstrings 1 ∧
  NoiseExtrapolator.exp_row 5 sparse_scales "1" =
    Ok (expected_row 5 sparse_scales "1").
Proof.
  assert ("1"%string ∈ generate_bitstrings 1) as Hb by (right; left).
  split; [lia|]. split; [exact Hb|].
  apply (zne_absent_bitstring Library.extrapolate 1 5 sparse_scales "1");
    [lia|exact Hb].
Defined.

(** C1, as stated, fails: the outcome "1" is missing at the first scale factor
    only, and counted twice out of 5 shots at the second; its expectation
    value at the second scale factor is taken to be 0, not 2/5. *)
Lemma zne_zeroes_whole_row :
  NoiseExtrapolator.exp_row 5 sparse_scales "1" = Ok (replicate 7 (PyInt 0)) ∧
  ∃ counts row,
    sparse_scales !! 1%nat = Some counts ∧
    counts !! "1"%string = Some (PyInt 2) ∧
    NoiseExtrapolator.exp_row 5 sparse_scales "1" = Ok row ∧
    row !! 1%nat = Some (PyInt 0) ∧
    ¬ py_eq (PyInt 0) (PyFloat (inject_Z 2 / inject_Z 5)).
Proof.
  split; [vm_compute; reflexivity|].
  exists (both 3 2), (replicate 7 (PyInt 0)).
  split_and!; [reflexivity|vm_compute; reflexivity|vm_compute; reflexivity
              |reflexivity|].
  unfold py_eq. vm_compute. discriminate.
Qed.





(** ** Sums and truncation *)

Lemma Qsum_le {A} (f g : A → Q) (l : list A) :
  Forall (λ x, f x <= g x)%Q l → (Qsum (f <$> l) <= Qsum (g <$> l))%Q.
Proof.
  induction 1 as [|x l Hx _ IH]; [apply Qle_refl|].
  rewrite !fmap_cons, !Qsum_cons. by apply Qplus_le_compat.
Qed.

Lemma Qsum_lt {A} (f g : A → Q) (l : list A) :
  l ≠ [] → Forall (λ x, f x < g x)%Q l →
  (Qsum (f <$> l) < Qsum (g <$> l))%Q.
Proof.
  intros Hne Hall. induction Hall as [|x l Hx Hl IH]; [done|].
  rewrite !fmap_cons, !Qsum_cons. destruct l as [|y l].
  - simpl. by rewrite !Qplus_0_r.
  - apply Qplus_lt_le_compat; [done|]. apply Qlt_le_weak. by apply IH.
Qed.

Lemma Qsum_minus_one {A} (f : A → Q) (l : list A) :
  (Qsum ((λ x, f x - 1) <$> l) == Qsum (f <$> l) - inject_Z (Z.of_nat (length l)))%Q.
Proof.
  induction l as [|x l IH]; [reflexivity|].
  rewrite !fmap_cons, !Qsum_cons, IH. cbn [length].
  rewrite Nat2Z.inj_succ, <-Z.add_1_r, inject_Z_plus. ring.
Qed.

Lemma py_int_floor (q : Q) : (0 <= q)%Q → py_int q = Qfloor q.
Proof. intros H%Qle_bool_iff. unfold py_int. by rewrite H. Qed.

(** ** Signs and values of binary floats *)

Lemma ltb_zero_false (x : Binary64.float) :
  Binary64.ltb x Binary64.zero = false → sign_clear x.
Proof. by destruct x as [[]|[]| |[] m e]. Qed.

Lemma round_aux_sign (mx ex : Z) (lx : location) :
  sign_clear (binary_round_aux Binary64.prec Binary64.emax false mx ex lx).
Proof.
  unfold binary_round_aux.
  destruct (shr_fexp _ _ mx ex lx) as [mrs' e'].
  destruct (shr_fexp _ _ _ e' loc_Exact) as [mrs'' e''].
  destruct (shr_m mrs''); [done| |done]. by destruct (_ <=? _).
Qed.

Lemma of_int_sign (n : Z) (s : Binary64.float) :
  0 ≤ n → Binary64.of_int n = Ok s → sign_clear s.
Proof.
  intros Hn. unfold Binary64.of_int.
  assert (sign_clear (binary_normalize Binary64.prec Binary64.emax n 0 false))
    as Hsign.
  { destruct n as [|p|p]; [done| |lia]. unfold binary_normalize, binary_round.
    destruct (shl_align _ _ _). apply round_aux_sign. }
  destruct (binary_normalize _ _ n 0 false); intros [= <-]; done.
Qed.

Lemma mul_sign (x y : Binary64.float) :
  sign_clear x → sign_clear y → sign_clear (Binary64.mul x y).
Proof.
  destruct x as [sx|[]| |[] mx ex], y as [sy|[]| |[] my ey];
    try done; simpl; intros _ _.
  apply round_aux_sign.
Qed.

Lemma value_nonneg (x : Binary64.float) :
  sign_clear x → (0 <= Binary64.value x)%Q.
Proof.
  destruct x as [s|s| |[] m e]; try done. intros _. simpl.
  destruct e as [|p|p]; unfold Qle; simpl; lia.
Qed.

Lemma to_int_Ok (x : Binary64.float) (z : Z) :
  Binary64.to_int x = Ok z → z = py_int (Binary64.value x).
Proof. destruct x; simpl; congruence. Qed.

Lemma inject_Z_sum {A} (f : A → Z) (l : list A) :
  (inject_Z (foldr Z.add 0%Z (f <$> l)) == Qsum ((λ x, inject_Z (f x)) <$> l))%Q.
Proof.
  induction l as [|x l IH]; [reflexivity|].
  rewrite !fmap_cons. cbn [foldr]. by rewrite inject_Z_plus, IH, Qsum_cons.
Qed.

(** ** Readout correction in binary floating point *)

Section rem64_facts.
Context {Quasi Prob : Type}.
Context (quasi_probabilities : Counts → Quasi).
Context (nearest_probability_distribution : Quasi → Prob).
Context (binary_probabilities : Prob → ReadoutCorrector64.Distribution).

Local Abbreviation rem :=
  (ReadoutCorrector64.rem quasi_probabilities nearest_probability_distribution
     binary_probabilities).
Local Abbreviation mitigated_prob :=
  (mitigated_prob64 quasi_probabilities nearest_probability_distribution
     binary_probabilities).

Lemma rem_Ok (shots : Z) (counts : list Counts)
    (out : list (gmap string Binary64.num)) :
  rem shots counts = Ok out →
  Forall2
    (λ count o,
       ReadoutCorrector64.to_counts shots (mitigated_prob count) = Ok o)
    counts out.
Proof.
  unfold ReadoutCorrector64.rem. intros H%comprehension_Ok.
  rewrite <-list_fmap_compose in H. by apply Forall2_fmap_l in H.
Qed.

(** The entries of a histogram that [to_counts] returns. *)
Lemma to_counts_Ok (shots : Z) (probs : gmap string Binary64.float)
    (o : gmap string Binary64.num) (b : string) :
  ReadoutCorrector64.to_counts shots probs = Ok o →
  match probs !! b with
  | Some p =>
      ∃ s, Binary64.of_int shots = Ok s ∧
           Binary64.to_int (Binary64.mul p s)
             = Ok (py_int (Binary64.value (Binary64.mul p s))) ∧
           o !! b = Some (Binary64.Int
                            (py_int (Binary64.value (Binary64.mul p s))))
  | None => o !! b = None
  end.
Proof.
  intros Ho. pose proof (dict_comprehension_Ok _ _ _ b Ho) as Hb.
  destruct (probs !! b) as [p|]; [|done].
  destruct Hb as (y & Hy & Hlook). unfold ReadoutCorrector64.to_count in Hy.
  apply bind_Ok_inv in Hy as (s & Hs & Hy).
  apply bind_Ok_inv in Hy as (z & Hz & [= <-]).
  exists s. pose proof (to_int_Ok _ _ Hz) as ->. by split_and!.
Qed.

Lemma to_counts_dom (shots : Z) (probs : gmap string Binary64.float)
    (o : gmap string Binary64.num) :
  ReadoutCorrector64.to_counts shots probs = Ok o → dom o = dom probs.
Proof.
  intros Ho. apply set_eq. intros b. rewrite !elem_of_dom.
  pose proof (to_counts_Ok shots probs o b Ho) as Hb.
  destruct (probs !! b) as [p|].
  - destruct Hb as (s & _ & _ & ->). split; by eexists.
  - rewrite Hb. split; intros [? [=]].
Qed.

Lemma to_counts_fmap (shots : Z) (s : Binary64.float)
    (probs : gmap string Binary64.float) (o : gmap string Binary64.num) :
  Binary64.of_int shots = Ok s →
  ReadoutCorrector64.to_counts shots probs = Ok o →
  o = (λ p, Binary64.Int (py_int (Binary64.value (Binary64.mul p s))))
        <$> probs.
Proof.
  intros Hs Ho. apply map_eq. intros b. rewrite lookup_fmap.
  pose proof (to_counts_Ok shots probs o b Ho) as Hb.
  destruct (probs !! b) as [p|]; [|done].
  destruct Hb as (s' & Hs' & _ & ->). by replace s' with s by congruence.
Qed.
End rem64_facts.

Section rem64_returns.
Context {Quasi Prob : Type}.
Context (quasi_probabilities : Counts → Quasi).
Context (nearest_probability_distribution : Quasi → Prob).
Context (binary_probabilities : Prob → ReadoutCorrector64.Distribution).

(** The readout corrector returns when the shots fit a float and no product
    overflows or is a NaN. *)
Lemma rem_returns (shots : Z) (s : Binary64.float) (counts : list Counts) :
  Binary64.of_int shots = Ok s →
  Forall (λ count,
            map_Forall (λ _ p, is_ok (Binary64.to_int (Binary64.mul p s)))
              (mitigated_prob64 quasi_probabilities
                 nearest_probability_distribution binary_probabilities count))
    counts →
  is_ok (ReadoutCorrector64.rem quasi_probabilities
           nearest_probability_distribution binary_probabilities shots counts).
Proof.
  intros Hs Hall. unfold ReadoutCorrector64.rem. apply comprehension_total.
  rewrite <-list_fmap_compose. apply Forall_fmap.
  eapply Forall_impl; [exact Hall|]. intros count Hcount; simpl.
  apply dict_comprehension_total. intros b p Hb.
  destruct (Hcount b p Hb) as [z Hz].
  unfold ReadoutCorrector64.to_count. rewrite Hs. simpl. rewrite Hz.
  by eexists.
Qed.
End rem64_returns.

(** C3 (amended). For every input histogram the histogram returned by the
    readout corrector has the key set of the projected probability
    distribution that the library computes for it, not that of the input
    itself; every count in it is an integer, and it is not negative for a
    shot count that is not negative. *)
Theorem rem_domain_counts {Quasi Prob : Type}
    (quasi_probabilities : Counts → Quasi)
    (nearest_probability_distribution : Quasi → Prob)
    (binary_probabilities : Prob → ReadoutCorrector64.Distribution)
    (shots : Z) (counts : list Counts)
    (out : list (gmap string Binary64.num)) :
  ReadoutCorrector64.rem quasi_probabilities nearest_probability_distribution
    binary_probabilities shots counts = Ok out →
  Forall2 (λ count (o : gmap string Binary64.num),
             dom o = dom (mitigated_prob64 quasi_probabilities
                            nearest_probability_distribution
                            binary_probabilities count) ∧
             ∀ b v, o !! b = Some v →
               ∃ z, v = Binary64.Int z ∧ (0 ≤ shots → 0 ≤ z))
    counts out.
Proof.
  intros Hout%rem_Ok. eapply Forall2_impl; [exact Hout|].
  intros count o Ho; simpl in Ho. split; [by eapply to_counts_dom|].
  intros b v Hv. pose proof (to_counts_Ok shots _ o b Ho) as Hb.
  destruct (mitigated_prob64 _ _ _ count !! b) as [p|] eqn:Hp; [|congruence].
  destruct Hb as (s & Hs & _ & Hlook). rewrite Hlook in Hv.
  injection Hv as <-. eexists. split; [done|]. intros Hshots.
  apply py_int_nonneg. apply Qlt_le_trans with 0%Q; [reflexivity|].
  apply value_nonneg, mul_sign; [|by eapply of_int_sign].
  apply ltb_zero_false.
  exact (ReadoutCorrector64.not_negative _ b p Hp).
Qed.

Lemma rem_domain_counts_witness :
  Library64.ideal_rem 10 [thirds64]
    = Ok [ {[ "0"%string := Binary64.Int 3; "1"%string := Binary64.Int 6 ]} ] ∧
  Forall2 (λ count (o : gmap string Binary64.num),
             dom o = dom (mitigated_prob64 Library64.ideal_quasi_probabilities
                            Library64.nearest_probability_distribution
                            Library64.binary_probabilities count) ∧
             ∀ b v, o !! b = Some v →
               ∃ z, v = Binary64.Int z ∧ (0 ≤ 10 → 0 ≤ z))
    [thirds64]
    [ {[ "0"%string := Binary64.Int 3; "1"%string := Binary64.Int 6 ]} ].
Proof.
  assert (Library64.ideal_rem 10 [thirds64]
          = Ok [ {[ "0"%string := Binary64.Int 3;
                    "1"%string := Binary64.Int 6 ]} ]) as Hr
    by (vm_compute; reflexivity).
  split; [exact Hr|].
  exact (rem_domain_counts Library64.ideal_quasi_probabilities
           Library64.nearest_probability_distribution
           Library64.binary_probabilities 10 [thirds64] _ Hr).
Defined.

(** C3, as stated, fails: with the mitigator of an error-free calibration, a
    histogram that holds only the outcome "0" is corrected to a histogram
    with the keys "0" and "1". *)
Lemma rem_changes_key_set :
  Library64.ideal_rem 10 [only_zero64]
    = Ok [ {[ "0"%string := Binary64.Int 10; "1"%string := Binary64.Int 0 ]} ] ∧
  dom ({[ "0"%string := Binary64.Int 10; "1"%string := Binary64.Int 0 ]}
         : gmap string Binary64.num)
    ≠ dom only_zero64.
Proof.
  split; [vm_compute; reflexivity|].
  intros H. assert ("1"%string ∈ dom only_zero64) as Hin.
  { rewrite <-H. apply elem_of_dom. by eexists. }
  apply elem_of_dom in Hin as [v Hv]. vm_compute in Hv. discriminate.
Qed.

(** A NaN among the probabilities makes the readout corrector raise. *)
Lemma to_counts_nan (shots : Z) (s : Binary64.float)
    (probs : gmap string Binary64.float) (b : string) :
  Binary64.of_int shots = Ok s → probs !! b = Some S754_nan →
  raises (ReadoutCorrector64.to_counts shots probs).
Proof.
  intros Hs Hb. eapply dict_comprehension_raises; [exact Hb|].
  unfold ReadoutCorrector64.to_count. rewrite Hs. simpl. by eexists.
Qed.

Lemma nearest_fold (l : list (N * Binary64.float)) (beta : Binary64.float)
    (n : Z) (new_probs : gmap N Binary64.float) :
  map_Forall (λ _ p, Binary64.ltb p Binary64.zero = false) new_probs →
  map_Forall (λ _ p, Binary64.ltb p Binary64.zero = false)
    (foldl Library64.nearest_step (beta, n, new_probs) l).2.
Proof.
  revert beta n new_probs.
  induction l as [|item l IH]; intros beta n new_probs Hinv; [done|].
  cbn [foldl]. unfold Library64.nearest_step at 2.
  destruct (Binary64.ltb _ Binary64.zero) eqn:Hlt; [by apply IH|].
  apply IH. by apply map_Forall_insert_2.
Qed.

(** The projection of the worked examples keeps no entry below zero, so
    that [Library64.distribution] never falls back to the empty dict on
    it. *)
Lemma nearest_not_negative (quasi : gmap N Binary64.float) :
  map_Forall (λ _ p, Binary64.ltb p Binary64.zero = false)
    (Library64.nearest_probability_distribution quasi).
Proof. apply nearest_fold, map_Forall_empty. Qed.

Lemma binary_probabilities_nearest (quasi : gmap N Binary64.float) :
  let prob := Library64.nearest_probability_distribution quasi in
  let n :=
    String.length
      (Library.format_b (foldr N.max 0%N (map_to_list prob).*1)) in
  ReadoutCorrector64.probabilities (Library64.binary_probabilities prob) =
  list_to_map
    ((λ item, (Library.zfill n (Library.format_b item.1), item.2))
       <$> map_to_list prob).
Proof.
  intros prob n. unfold Library64.binary_probabilities, Library64.distribution.
  fold prob. fold n. destruct (decide _) as [H|H]; [done|]. exfalso. apply H.
  intros b p Hb. apply elem_of_list_to_map_2 in Hb.
  apply list_elem_of_fmap in Hb as ([k q] & [= _ ->] & Hin).
  apply elem_of_map_to_list in Hin.
  exact (nearest_not_negative quasi k q Hin).
Qed.

(** C4 (amended). For every input histogram the readout corrector turns the
    projected probability distribution into integer counts entry by entry:
    a count is the float product of the probability and the shots, truncated
    toward zero. For shots that are not negative the counts sum to at most
    the sum of these products, and to more than that sum minus the number of
    entries; nothing makes them sum to the shots. The corrector returns
    unless the shots or a product do not fit a float, or a product is a
    NaN. *)
Theorem rem_total_counts {Quasi Prob : Type}
    (quasi_probabilities : Counts → Quasi)
    (nearest_probability_distribution : Quasi → Prob)
    (binary_probabilities : Prob → ReadoutCorrector64.Distribution)
    (shots : Z) (s : Binary64.float) (counts : list Counts) :
  0 ≤ shots → Binary64.of_int shots = Ok s →
  (Forall (λ count,
             map_Forall (λ _ p, is_ok (Binary64.to_int (Binary64.mul p s)))
               (mitigated_prob64 quasi_probabilities
                  nearest_probability_distribution binary_probabilities
                  count))
     counts →
   is_ok (ReadoutCorrector64.rem quasi_probabilities
            nearest_probability_distribution binary_probabilities shots
            counts)) ∧
  ∀ out : list (gmap string Binary64.num),
    ReadoutCorrector64.rem quasi_probabilities
      nearest_probability_distribution binary_probabilities shots counts
      = Ok out →
    Forall2 (λ count (o : gmap string Binary64.num),
               let probs := mitigated_prob64 quasi_probabilities
                              nearest_probability_distribution
                              binary_probabilities count in
               let products :=
                 Qsum ((λ p, Binary64.value (Binary64.mul p s))
                         <$> values probs) in
               (∀ b, o !! b =
                     (λ p, Binary64.Int
                             (py_int (Binary64.value (Binary64.mul p s))))
                       <$> probs !! b) ∧
               (inject_Z (total_count o) <= products)%Q ∧
               (probs ≠ ∅ →
                products - inject_Z (Z.of_nat (size o))
                  < inject_Z (total_count o))%Q)
      counts out.
Proof.
  intros Hshots Hs. split; [by apply rem_returns|].
  intros out Hout%rem_Ok. eapply Forall2_impl; [exact Hout|].
  intros count o Ho; simpl in Ho. cbv zeta.
  set (probs := mitigated_prob64 _ _ _ count) in *.
  pose proof (to_counts_fmap shots s probs o Hs Ho) as ->.
  assert (Forall (λ p, 0 <= Binary64.value (Binary64.mul p s))%Q
            (values probs)) as Hall.
  { apply Forall_forall. intros p [b Hb]%elem_of_values.
    apply value_nonneg, mul_sign; [|by eapply of_int_sign].
    apply ltb_zero_false. exact (ReadoutCorrector64.not_negative _ b p Hb). }
  unfold total_count.
  rewrite values_fmap, <-list_fmap_compose, (inject_Z_sum _ (values probs)).
  split_and!.
  - intros b. by rewrite lookup_fmap.
  - apply Qsum_le. eapply Forall_impl; [exact Hall|].
    intros p Hp; simpl. rewrite py_int_floor by done. apply Qfloor_le.
  - intros Hne. rewrite map_size_fmap, <-length_values.
    rewrite <-(Qsum_minus_one (λ p, Binary64.value (Binary64.mul p s))).
    apply Qsum_lt.
    + intros Hnil. apply Hne, map_size_empty_inv.
      by rewrite <-length_values, Hnil.
    + eapply Forall_impl; [exact Hall|].
      intros p Hp; simpl. rewrite py_int_floor by done.
      pose proof (Qlt_floor (Binary64.value (Binary64.mul p s))) as Hfl.
      rewrite inject_Z_plus in Hfl. change (inject_Z 1) with 1%Q in Hfl.
      apply Qplus_lt_l with 1%Q. by ring_simplify.
Qed.

Lemma rem_total_counts_witness :
  0 ≤ 10 ∧
  Binary64.of_int 10 = Ok (S754_finite false 5629499534213120 (-49)) ∧
  Library64.ideal_rem 10 [thirds64]
    = Ok [ {[ "0"%string := Binary64.Int 3; "1"%string := Binary64.Int 6 ]} ] ∧
  Forall2 (λ count (o : gmap string Binary64.num),
             let probs := mitigated_prob64 Library64.ideal_quasi_probabilities
                            Library64.nearest_probability_distribution
                            Library64.binary_probabilities count in
             let products :=
               Qsum ((λ p, Binary64.value
                             (Binary64.mul p
                                (S754_finite false 5629499534213120 (-49))))
                       <$> values probs) in
             (∀ b, o !! b =
                   (λ p, Binary64.Int
                           (py_int (Binary64.value
                              (Binary64.mul p
                                 (S754_finite false 5629499534213120 (-49))))))
                     <$> probs !! b) ∧
             (inject_Z (total_count o) <= products)%Q ∧
             (probs ≠ ∅ →
              products - inject_Z (Z.of_nat (size o))
                < inject_Z (total_count o))%Q)
    [thirds64]
    [ {[ "0"%string := Binary64.Int 3; "1"%string := Binary64.Int 6 ]} ].
Proof.
  assert (Binary64.of_int 10 = Ok (S754_finite false 5629499534213120 (-49)))
    as Hs by (vm_compute; reflexivity).
  assert (Library64.ideal_rem 10 [thirds64]
          = Ok [ {[ "0"%string := Binary64.Int 3;
                    "1"%string := Binary64.Int 6 ]} ]) as Hr
    by (vm_compute; reflexivity).
  assert (0 ≤ 10) as Hshots by lia.
  split; [exact Hshots|]. split; [exact Hs|]. split; [exact Hr|].
  exact (proj2 (rem_total_counts Library64.ideal_quasi_probabilities
                  Library64.nearest_probability_distribution
                  Library64.binary_probabilities 10 _ [thirds64] Hshots Hs)
           _ Hr).
Defined.

(** C4, as stated, fails: with the mitigator of an error-free calibration the
    histogram {0: 1, 1: 2} at 10 shots is corrected to {0: 3, 1: 6}, whose
    counts sum to 9. *)
Lemma rem_total_below_shots :
  Library64.ideal_rem 10 [thirds64]
    = Ok [ {[ "0"%string := Binary64.Int 3; "1"%string := Binary64.Int 6 ]} ] ∧
  total_count {[ "0"%string := Binary64.Int 3; "1"%string := Binary64.Int 6 ]}
    = 9 ∧
  9 ≠ 10.
Proof. split_and!; [vm_compute; reflexivity..|done]. Qed.

(** Rounding decides counts here too: the float 29 / 100 times 100 is just
    below 29, so that 29 and 71 counts of 100 shots come back as 28 and 71. *)
Lemma rem_rounds_down :
  Library64.ideal_rem 100 [ {[ "0"%string := 29; "1"%string := 71 ]} ]
    = Ok [ {[ "0"%string := Binary64.Int 28; "1"%string := Binary64.Int 71 ]} ].
Proof. vm_compute. reflexivity. Qed.

(** ** The table of PEC representations *)

Section table_facts.
Context {Circuit Repr : Type}.
Context (depth : Circuit → Z) (gate_counts : Circuit → string).
Context (hash : string → Z).
Context (represent : nat → Circuit → Q → Z → option (list Repr)).
Context (backend_name : string) (pec_config : PEC.Config) (num_samples : Z).

Local Abbreviation get_key := (PEC.get_key depth gate_counts hash backend_name).
Local Abbreviation request :=
  (PEC.request depth gate_counts hash represent backend_name pec_config
     num_samples).

(** A request whose key is stored runs nothing and returns the stored
    representation. *)
Lemma request_hit (st : PEC.State) (circuit : Circuit) (r : list Repr) :
  PEC.load (get_key circuit) (PEC.pec_table st) = Some r →
  request st circuit = (st, r).
Proof. intros H. unfold PEC.request. by rewrite H. Qed.

(** A request whose key is not stored runs the construction once; the
    representation is stored when the construction returns. *)
Lemma request_miss_success (st : PEC.State) (circuit : Circuit) (r : list Repr) :
  PEC.load (get_key circuit) (PEC.pec_table st) = None →
  represent (length (PEC.constructed st)) circuit (PEC.noise_level pec_config)
    (Z.min num_samples (PEC.max_samples pec_config)) = Some r →
  ∃ st1, request st circuit = (st1, r) ∧
         PEC.constructed st1 = PEC.constructed st ++ [circuit] ∧
         PEC.load (get_key circuit) (PEC.pec_table st1) = Some r.
Proof.
  intros Hload Hrep. unfold PEC.request. rewrite Hload, Hrep.
  eexists. split_and!; [done..|].
  unfold PEC.load, PEC.store; simpl. apply lookup_insert_eq.
Qed.

(** Nothing is stored when the construction raises. *)
Lemma request_miss_failure (st : PEC.State) (circuit : Circuit) :
  PEC.load (get_key circuit) (PEC.pec_table st) = None →
  represent (length (PEC.constructed st)) circuit (PEC.noise_level pec_config)
    (Z.min num_samples (PEC.max_samples pec_config)) = None →
  request st circuit =
    ({| PEC.pec_table := PEC.pec_table st;
        PEC.constructed := PEC.constructed st ++ [circuit] |}, []).
Proof. intros Hload Hrep. unfold PEC.request. by rewrite Hload, Hrep. Qed.

Lemma request_twice (st : PEC.State) (c1 c2 : Circuit) :
  get_key c1 = get_key c2 →
  (PEC.load (get_key c1) (PEC.pec_table st) = None →
   is_Some (represent (length (PEC.constructed st)) c1
              (PEC.noise_level pec_config)
              (Z.min num_samples (PEC.max_samples pec_config)))) →
  ∃ st1 r, request st c1 = (st1, r) ∧ request st1 c2 = (st1, r) ∧
           PEC.load (get_key c2) (PEC.pec_table st1) = Some r ∧
           (length (PEC.constructed st1) ≤ S (length (PEC.constructed st)))%nat.
Proof.
  intros Hkey Hsucc.
  destruct (PEC.load (get_key c1) (PEC.pec_table st)) as [r|] eqn:Hload.
  - rewrite Hkey in Hload.
    exists st, r. split_and!; [|by apply request_hit|done|lia].
    apply request_hit. by rewrite Hkey.
  - destruct (Hsucc eq_refl) as [r Hr].
    destruct (request_miss_success st c1 r Hload Hr) as (st1 & Hreq & Hc & Hl).
    rewrite Hkey in Hl.
    exists st1, r. split_and!; [done|by apply request_hit|done|].
    rewrite Hc, length_app. simpl. lia.
Qed.
End table_facts.

(** C5 (amended). A request first initializes a noise model, outside any
    [try]: when that call raises, the request raises before the table is
    looked at and no construction runs. When it returns, two requests for one
    cache key (backend name plus circuit fingerprint) behave as follows: if
    the representation is stored already, or its construction returns on the
    first request, the construction runs at most once over both requests,
    and the second request returns the stored representation, identical to
    the one returned by the first. A construction that raises stores
    nothing. *)
Theorem representation_cached {Circuit Repr Noise : Type}
    (depth : Circuit → Z) (gate_counts : Circuit → string) (hash : string → Z)
    (represent : nat → Circuit → Q → Z → option (list Repr))
    (num_qubits : Circuit → Z)
    (initialized_depolarizing_noise : Q → Z → result Noise)
    (backend_name : string) (dims : Z * Z) (num_samples : Z)
    (st : PEC.State) (c1 c2 : Circuit) :
  let key := PEC.get_key depth gate_counts hash backend_name in
  let generate :=
    PEC.generate_pec_representations depth gate_counts hash represent
      num_qubits initialized_depolarizing_noise backend_name dims in
  let noise_model c :=
    initialized_depolarizing_noise
      (PEC.noise_level (PEC.get_config backend_name dims)) (num_qubits c) in
  key c1 = key c2 →
  (PEC.load (key c1) (PEC.pec_table st) = None →
   is_Some (represent (length (PEC.constructed st)) c1
              (PEC.noise_level (PEC.get_config backend_name dims))
              (Z.min num_samples
                 (PEC.max_samples (PEC.get_config backend_name dims))))) →
  (∀ (c : Circuit) (e : exn) (st0 : PEC.State),
     noise_model c = Raise e → generate st0 [c] num_samples = Raise e) ∧
  (is_ok (noise_model c1) → is_ok (noise_model c2) →
   ∃ st1 r,
     generate st [c1] num_samples = Ok (st1, [r]) ∧
     generate st1 [c2] num_samples = Ok (st1, [r]) ∧
     PEC.load (key c2) (PEC.pec_table st1) = Some r ∧
     (length (PEC.constructed st1) ≤ S (length (PEC.constructed st)))%nat).
Proof.
  intros key generate noise_model Hkey Hsucc. split.
  - intros c e st0 He.
    unfold generate, PEC.generate_pec_representations; simpl.
    fold (noise_model c). by rewrite He.
  - intros [n1 Hn1] [n2 Hn2].
    destruct (request_twice depth gate_counts hash represent backend_name
                (PEC.get_config backend_name dims) num_samples st c1 c2
                Hkey Hsucc)
      as (st1 & r & H1 & H2 & Hload & Hlen).
    exists st1, r. unfold generate, PEC.generate_pec_representations; simpl.
    fold (noise_model c1) (noise_model c2). rewrite Hn1, Hn2; simpl.
    by rewrite H1, H2.
Qed.

Lemma representation_cached_witness :
  ∃ st1 r,
    PEC.generate_pec_representations (λ _ : unit, 0) (λ _, "{}"%string)
      (λ _, 0) always_succeeds (λ _, 4) noise_returns "ibm_brisbane" (2, 2)
      PEC.initial [tt] 10000 = Ok (st1, [r]) ∧
    PEC.generate_pec_representations (λ _ : unit, 0) (λ _, "{}"%string)
      (λ _, 0) always_succeeds (λ _, 4) noise_returns "ibm_brisbane" (2, 2)
      st1 [tt] 10000 = Ok (st1, [r]) ∧
    (length (PEC.constructed st1) ≤ 1)%nat.
Proof.
  destruct (representation_cached (λ _ : unit, 0) (λ _, "{}"%string)
              (λ _, 0) always_succeeds (λ _, 4) noise_returns "ibm_brisbane"
              (2, 2) 10000 PEC.initial tt tt eq_refl) as [_ Hcached].
  { intros _. by eexists. }
  destruct Hcached as (st1 & r & H1 & H2 & _ & Hlen); [by eexists..|].
  exists st1, r. split_and!; [exact H1|exact H2|exact Hlen].
Defined.

(** C5, as stated, fails. When the noise model is initialized and the
    construction raises, nothing is stored, and two requests for one key run
    the construction twice. When the initialization of the noise model
    raises, a request for a stored key raises too instead of returning the
    stored representation. *)
Lemma construction_repeated_after_failure :
  (∃ st1 st2,
     one_key_request PEC.initial tt = (st1, [[]]) ∧
     one_key_request st1 tt = (st2, [[]]) ∧
     PEC.constructed st2 = [tt; tt] ∧
     ¬ (length (PEC.constructed st2) ≤ 1)%nat) ∧
  PEC.load "ibm_brisbane_0_0" (PEC.pec_table stored_once) = Some [tt] ∧
  PEC.generate_pec_representations (λ _ : unit, 0) (λ _, "{}"%string)
    (λ _, 0) always_succeeds (λ _, 4) noise_raises "ibm_brisbane" (2, 2)
    stored_once [tt] 10000 = Raise TypeError.
Proof.
  split_and!; [|vm_compute; reflexivity..].
  do 2 eexists. split_and!; [vm_compute; reflexivity..|].
  simpl. lia.
Qed.

(** ** The orchestrator *)

Section mitigate_facts.
Context {Circuit Quasi Prob : Type}.
Context (quasi_probabilities : Hist → Quasi).
Context (nearest_probability_distribution : Quasi → Prob).
Context (binary_probabilities : Prob → gmap string Q).
Context (guess_as_dict : Circuit → Hist → gmap string Q).
Context (pec_execute : list Circuit → Z → list Hist).

Local Abbreviation mitigate :=
  (Orchestrator.mitigate quasi_probabilities nearest_probability_distribution
     binary_probabilities guess_as_dict pec_execute).
Local Abbreviation rem :=
  (Orchestrator.rem quasi_probabilities nearest_probability_distribution
     binary_probabilities).
Local Abbreviation ibu := (Orchestrator.ibu guess_as_dict).
Local Abbreviation pec :=
  (Orchestrator.pec (Circuit:=Circuit) pec_execute).

(** Without cancellation and with correction or unfolding enabled, the
    result is correction, when enabled, followed by unfolding, when enabled:
    the equalization flag is not read. *)
Lemma mitigate_standard_pipeline (self : Orchestrator.ErrorMitigator)
    (qcs : list Circuit) (shots : Z) (counts : list Hist) :
  Orchestrator.probabilistic_error_cancellation self = false →
  Orchestrator.readout_error_mitigation self
    || Orchestrator.iterative_bayesian_unfolding self = true →
  mitigate self qcs shots counts =
  (let corrected :=
     if Orchestrator.readout_error_mitigation self
     then rem self shots counts else counts in
   unfolded ←
     (if Orchestrator.iterative_bayesian_unfolding self
      then ibu self qcs shots corrected else Ok corrected);
   Ok (unfolded,
       Orchestrator.label_for self
         (Orchestrator.join "-"
            ((if Orchestrator.readout_error_mitigation self
              then ["rem"%string] else []) ++
             (if Orchestrator.iterative_bayesian_unfolding self
              then ["ibu"%string] else []))))).
Proof.
  intros Hpec Hany. unfold Orchestrator.mitigate. rewrite Hpec.
  destruct (Orchestrator.readout_error_mitigation self),
    (Orchestrator.iterative_bayesian_unfolding self); simpl in *;
    try discriminate; try done.
  - by destruct (ibu self qcs shots (rem self shots counts)).
  - by destruct (ibu self qcs shots counts).
Qed.

(** The cancellation path does equalize when the flag is set. *)
Lemma pec_equalizes (self : Orchestrator.ErrorMitigator)
    (circuits : list Circuit) (shots : Z) :
  Orchestrator.equalization self = true →
  pec self circuits shots =
  (equalized ← Orchestrator.equalize self (pec_execute circuits shots) shots;
   Ok (equalized, Orchestrator.label_for self "pec")).
Proof. intros H. unfold Orchestrator.pec. by rewrite H. Qed.
End mitigate_facts.

(** C2, at the failing input. With readout correction and equalization
    enabled, [mitigate] returns the corrected histogram as it is, although
    the equalizer applied to it would have changed it. *)
Theorem mitigate_skips_equalization :
  ideal_mitigate rem_and_equalize [tt] 100 [both 25 75] =
    Ok ([both 25 75], "rem-collisionless-1x2-ibm-qpu"%string) ∧
  Orchestrator.equalize rem_and_equalize [both 25 75] 100 =
    Ok [ {[ "0"%string := PyInt 0;
            "1"%string := PyFloat (inject_Z 100 / (inject_Z (1 * 2) * (1 # 2))) ]} ] ∧
  ¬ hist_eq (both 25 75)
      {[ "0"%string := PyInt 0;
         "1"%string := PyFloat (inject_Z 100 / (inject_Z (1 * 2) * (1 # 2))) ]}.
Proof.
  split_and!; [vm_compute; reflexivity..|].
  intros H. specialize (H "0"%string). vm_compute in H.
  inversion H as [x y Hxy|]; subst. vm_compute in Hxy. discriminate.
Qed.

(** * Further properties *)

(** ** Equalizer: what the histograms hold after equalization *)

Lemma comprehension_items_Raise {A B} (f : string → A → result B)
    (l : list (string * A)) (e : exn) :
  comprehension_items f l = Raise e → ∃ p, p ∈ l ∧ f p.1 p.2 = Raise e.
Proof.
  induction l as [|[key val] l IH]; simpl; [discriminate|].
  destruct (f key val) as [y|e'] eqn:Hf; simpl.
  - destruct (comprehension_items f l) as [ys|e'] eqn:Hl; simpl; [discriminate|].
    intros [= ->]. destruct (IH eq_refl) as (p & Hin & Hp).
    exists p. split; [by right|done].
  - intros [= ->]. exists (key, val). split; [left|done].
Qed.

Lemma dict_comprehension_Raise {A B} (f : string → A → result B)
    (m : gmap string A) (e : exn) :
  dict_comprehension f m = Raise e →
  ∃ key v, m !! key = Some v ∧ f key v = Raise e.
Proof.
  unfold dict_comprehension.
  destruct (comprehension_items f (map_to_list m)) as [l|e'] eqn:Hl;
    [discriminate|].
  intros [= ->]. apply comprehension_items_Raise in Hl as ([key v] & Hin & Hf).
  exists key, v. split; [by apply elem_of_map_to_list|done].
Qed.

(** X1. When the equalizer returns, every output histogram has the keys of
    its input histogram, and every entry is the int 0 where the input count is
    below the cutoff of that histogram and the float
    shots / (rows * cols * 0.5) elsewhere. *)
Theorem equalize_keys_and_values (k : nat) (rows cols shots : Z)
    (counts r : list Hist) :
  Equalizer.equalize k rows cols counts shots = Ok r →
  Forall2 (λ (count out : Hist),
             dom out = dom count ∧
             ∃ c, Equalizer.cutoff k count = Ok c ∧
                  ∀ b, out !! b =
                       (λ val, if py_lt val c then PyInt 0
                               else PyFloat (inject_Z shots /
                                             (inject_Z (rows * cols) * (1 # 2))))
                       <$> count !! b)
    counts r.
Proof.
  intros H%comprehension_Ok.
  eapply Forall2_impl; [exact H|]. intros count out Hout; simpl in *.
  destruct (equalize_count_Ok _ _ _ _ _ _ Hout) as (c & t & Hc & Ht & ->).
  apply target_Ok in Ht as [_ ->].
  split; [by rewrite dom_fmap_L|]. exists c. split; [done|].
  intros b. by rewrite lookup_fmap.
Qed.

Lemma equalize_keys_and_values_witness :
  Equalizer.equalize 2 2 2 [spec_counts] 100 =
    Ok [snap (PyInt 30) (PyFloat (200 # 4)) <$> spec_counts] ∧
  Forall2 (λ (count out : Hist), dom out = dom count)
    [spec_counts] [snap (PyInt 30) (PyFloat (200 # 4)) <$> spec_counts].
Proof.
  assert (Equalizer.equalize 2 2 2 [spec_counts] 100 =
          Ok [snap (PyInt 30) (PyFloat (200 # 4)) <$> spec_counts]) as H
    by (vm_compute; reflexivity).
  split; [exact H|].
  eapply Forall2_impl; [exact (equalize_keys_and_values _ _ _ _ _ _ H)|].
  intros count out [Hdom _]. exact Hdom.
Defined.

(** X2. The equalizer crops at most 2^(k-1) entries of a histogram: when it
    returns, at most 2^(k-1) entries of every output histogram are the int 0,
    so at least one entry holds the target. *)
Theorem equalize_crops_at_most_half (k : nat) (rows cols shots : Z)
    (counts r : list Hist) :
  Equalizer.equalize k rows cols counts shots = Ok r →
  Forall (λ out : Hist,
            (count_if is_cropped (values out) ≤ 2 ^ (k - 1))%nat ∧
            (count_if is_cropped (values out) < size out)%nat) r.
Proof.
  intros H%comprehension_Ok.
  induction H as [|count out counts r Hout _ IH]; constructor; [|done].
  destruct (equalize_count_Ok _ _ _ _ _ _ Hout) as (c & t & Hc & Ht & ->).
  apply target_Ok in Ht as [_ ->].
  apply cutoff_Ok in Hc as (k' & -> & Hc).
  replace (S k' - 1)%nat with k' by lia.
  rewrite values_fmap, count_if_fmap, map_size_fmap.
  assert (count_if (is_cropped ∘ snap c (PyFloat (inject_Z shots /
                     (inject_Z (rows * cols) * (1 # 2))))) (values count)
          = count_if (λ v, py_lt v c) (values count)) as ->.
  { clear. induction (values count) as [|v l IH]; simpl; [done|].
    rewrite IH. unfold snap. by destruct (py_lt v c). }
  assert (count_if (λ v, py_lt v c) (values count) ≤ 2 ^ k')%nat as Hbelow.
  { rewrite <-(count_if_perm _ _ _ (sort_by_perm num_val (values count))).
    apply (rank_below num_val); [apply sort_by_ordered | exact Hc]. }
  split; [done|].
  apply lookup_lt_Some in Hc. unfold sorted in Hc.
  rewrite length_sort_by, length_values in Hc. lia.
Qed.

(** Without measured qubits the cutoff index is the float 0.5: the
    equalizer raises a TypeError on every list that is not empty. *)
Lemma equalize_no_qubits (rows cols shots : Z) (count : Hist)
    (rest : list Hist) :
  Equalizer.equalize 0 rows cols (count :: rest) shots = Raise TypeError.
Proof. reflexivity. Qed.

(** X3. On a lattice with a zero dimension the target is a division by zero:
    for k >= 1 measured qubits the equalizer raises a ZeroDivisionError as
    soon as the first histogram has more than 2^(k-1) entries. *)
Theorem equalize_empty_lattice (k : nat) (rows cols shots : Z) (count : Hist)
    (rest : list Hist) :
  (0 < k)%nat → rows * cols = 0 → (2 ^ (k - 1) < size count)%nat →
  Equalizer.equalize k rows cols (count :: rest) shots
  = Raise ZeroDivisionError.
Proof.
  intros Hk Hd Hsize. destruct k as [|k']; [lia|].
  replace (S k' - 1)%nat with k' in Hsize by lia.
  destruct (cutoff_in_range (S k') count k' eq_refl Hsize) as [c Hc].
  assert (Equalizer.target rows cols shots = Raise ZeroDivisionError) as Ht.
  { unfold Equalizer.target, py_div; simpl. rewrite Hd. reflexivity. }
  assert (Equalizer.equalize_count (S k') rows cols shots count
          = Raise ZeroDivisionError) as Hcount.
  { unfold Equalizer.equalize_count. rewrite Hc; simpl.
    assert (∃ key, count !! key = Some c) as [key Hkey].
    { apply cutoff_Ok in Hc as (k'' & _ & Hc).
      apply list_elem_of_lookup_2 in Hc. unfold sorted in Hc.
      rewrite sort_by_perm in Hc. by apply elem_of_values. }
    destruct (dict_comprehension_raises
                (Equalizer.eq_entry rows cols shots c) count key c Hkey)
      as [e He].
    { exists ZeroDivisionError. unfold Equalizer.eq_entry.
      by rewrite py_lt_irrefl. }
    rewrite He. f_equal.
    apply dict_comprehension_Raise in He as (key' & v & _ & Hv).
    unfold Equalizer.eq_entry in Hv. destruct (py_lt v c); [discriminate|].
    rewrite Ht in Hv. by injection Hv. }
  unfold Equalizer.equalize; simpl. by rewrite Hcount.
Qed.

Lemma equalize_empty_lattice_witness :
  (0 < 1)%nat ∧ 0 * 2 = 0 ∧
  Equalizer.equalize 1 0 2 [thirds] 100 = Raise ZeroDivisionError.
Proof.
  split; [lia|]. split; [lia|].
  apply (equalize_empty_lattice 1 0 2 100 thirds []); [lia|lia|].
  vm_compute. lia.
Defined.

(** ** The combination step in binary floating point: signs *)

Lemma sign_clear_ltb (x : Binary64.float) :
  sign_clear x → Binary64.ltb x Binary64.zero = false.
Proof. by destruct x as [[]|[]| |[] m e]. Qed.

Lemma add_sign (x y : Binary64.float) :
  sign_clear x → sign_clear y → sign_clear (Binary64.add x y).
Proof.
  destruct x as [[]|[]| |[] mx ex], y as [[]|[]| |[] my ey];
    try done; simpl; intros _ _.
  unfold binary_normalize, binary_round.
  destruct (shl_align _ _ _). apply round_aux_sign.
Qed.

Lemma int_true_div_sign (a b : Z) (q : Binary64.float) :
  0 ≤ a → 0 < b → Binary64.int_true_div a b = Ok q → sign_clear q.
Proof.
  intros Ha Hb. unfold Binary64.int_true_div.
  destruct b as [|pb|pb]; [lia| |lia].
  assert (sign_clear (Binary64.div (Binary64.exact a)
                        (Binary64.exact (Z.pos pb)))) as Hsign.
  { destruct a as [|pa|pa]; [done| |lia]. simpl.
    destruct (SFdiv_core_binary _ _ _ _ _ _) as [[mz ez] lz].
    apply round_aux_sign. }
  destruct (Binary64.div _ _); intros [= <-]; done.
Qed.

(** A total that is above zero divides a target that is not negative into a
    factor that is not negative. *)
Lemma scaling_sign (target total : Binary64.float) :
  sign_clear target → Binary64.ltb Binary64.zero total = true →
  sign_clear (Binary64.div target total).
Proof.
  destruct target as [[]|[]| |[] mx ex], total as [[]|[]| |[] my ey];
    try done; simpl; intros _ _.
  destruct (SFdiv_core_binary _ _ _ _ _ _) as [[mz ez] lz].
  apply round_aux_sign.
Qed.

Section combine64_signs.
Context (set_order : gset string → list string).
Context (set_order_perm : ∀ X, set_order X ≡ₚ elements X).

Lemma accumulated_sign (w : Z) (l : list Counts) (b : string)
    (start a : Binary64.float) :
  0 < w → Forall (map_Forall (λ _ c, 0 ≤ c)) l → sign_clear start →
  for_each
    (λ acc counts,
       q ← Cancellation64.share w counts b; Ok (Binary64.add acc q))
    start l = Ok a →
  sign_clear a.
Proof.
  intros Hw Hall. revert start.
  induction Hall as [|counts l Hc _ IH]; intros start Hstart; cbn [for_each].
  - by intros [= <-].
  - intros (acc & Hacc & Hrest)%bind_Ok_inv.
    apply (IH acc); [|done].
    apply bind_Ok_inv in Hacc as (q & Hq & [= <-]).
    apply add_sign; [done|].
    eapply int_true_div_sign; [|exact Hw|exact Hq].
    destruct (counts !! b) as [c|] eqn:Hb; simpl; [by eapply Hc|lia].
Qed.

Lemma mean_float_sign (all_counts : list Counts) (b : string)
    (a : Binary64.float) :
  Forall (map_Forall (λ _ c, 0 ≤ c)) all_counts →
  mean_float all_counts b = Ok a → sign_clear a.
Proof.
  intros Hall Ha. destruct all_counts as [|counts l].
  { by injection Ha as <-. }
  eapply (accumulated_sign (Z.of_nat (length (counts :: l)))); [|exact Hall| |exact Ha];
    [simpl; lia|done].
Qed.

Lemma sum_sign (l : list Binary64.float) :
  Forall sign_clear l → sign_clear (Binary64.sum l).
Proof.
  unfold Binary64.sum. assert (sign_clear Binary64.zero) as Hz by done.
  revert Hz. generalize Binary64.zero.
  intros z Hz Hall. revert z Hz.
  induction Hall as [|x l Hx _ IH]; intros z Hz; [done|].
  cbn [foldl]. apply IH. by apply add_sign.
Qed.

(** X4. For samples without negative counts and a target that is not
    negative, the combination step returns no negative count, whatever the
    rounding: the integers it returns after rescaling are not below zero,
    and neither are the floats it returns when the total is not positive. *)
Theorem combine_counts_not_negative {R : Type} (all_counts : list Counts)
    (representation : list R) (target_shots : Z)
    (r : gmap string Binary64.num) :
  0 ≤ target_shots →
  Forall (map_Forall (λ _ c, 0 ≤ c)) all_counts →
  Cancellation64._combine_pec_results set_order all_counts representation
    target_shots = Ok r →
  ∀ b v, r !! b = Some v →
    match v with
    | Binary64.Int z => 0 ≤ z
    | Binary64.Float x => Binary64.ltb x Binary64.zero = false
    end.
Proof.
  intros Ht Hall Hr b v Hv.
  destruct (decide (all_counts = [])) as [->|Hne].
  { injection Hr as <-. by rewrite lookup_empty in Hv. }
  destruct (combine64_Ok set_order set_order_perm all_counts representation
              target_shots r Hne Hr) as (means & Hdom & Hmean & Hrest).
  cbv zeta in Hrest.
  destruct (Binary64.ltb Binary64.zero _) eqn:Hlt.
  - destruct Hrest as (target & Htarget & Hb). specialize (Hb b).
    destruct (means !! b) as [a|] eqn:Ha; [|congruence].
    destruct Hb as (z & Hz & Hlook). rewrite Hlook in Hv. injection Hv as <-.
    apply to_int_Ok in Hz as ->. apply py_int_nonneg.
    apply Qlt_le_trans with 0%Q; [reflexivity|].
    apply value_nonneg, mul_sign.
    + by eapply mean_float_sign, Hmean.
    + apply scaling_sign; [by eapply of_int_sign|done].
  - subst r. rewrite lookup_fmap in Hv.
    destruct (means !! b) as [a|] eqn:Ha; [|done]. injection Hv as <-.
    by eapply sign_clear_ltb, mean_float_sign, Hmean.
Qed.
End combine64_signs.

Lemma combine_counts_not_negative_witness :
  (∀ X : gset string, elements X ≡ₚ elements X) ∧ 0 ≤ 10 ∧
  Cancellation64._combine_pec_results elements [thirds64] ([] : list unit) 10
    = Ok {[ "0"%string := Binary64.Int 3; "1"%string := Binary64.Int 6 ]} ∧
  0 ≤ 3.
Proof.
  assert (∀ X : gset string, elements X ≡ₚ elements X) as Hperm by done.
  assert (0 ≤ 10) as Ht by lia.
  assert (Cancellation64._combine_pec_results elements [thirds64]
            ([] : list unit) 10
          = Ok {[ "0"%string := Binary64.Int 3;
                  "1"%string := Binary64.Int 6 ]}) as Hr
    by (vm_compute; reflexivity).
  split; [exact Hperm|]. split; [exact Ht|]. split; [exact Hr|].
  apply (combine_counts_not_negative elements Hperm [thirds64]
           ([] : list unit) 10 _ Ht) with (b := "0"%string)
           (v := Binary64.Int 3) in Hr; [exact Hr| |reflexivity].
  constructor; [|constructor]. intros b c. unfold thirds64.
  rewrite lookup_insert_Some, lookup_singleton_Some.
  intros [[_ <-]|[_ [_ <-]]]; lia.
Defined.

(** ** Noise extrapolation: shape of the result and failures *)

Lemma comprehension_app_Raise {A B} (f : A → result B) (l1 l2 : list A)
    (x : A) (e : exn) :
  Forall (λ y, is_ok (f y)) l1 → f x = Raise e →
  comprehension f (l1 ++ x :: l2) = Raise e.
Proof.
  intros Hl1 Hx. induction Hl1 as [|y l1 [z Hz] _ IH]; simpl.
  - by rewrite Hx.
  - rewrite Hz; simpl. by rewrite IH.
Qed.

Lemma comprehension_length {A B} (f : A → result B) (l : list A) (r : list B) :
  comprehension f l = Ok r → length r = length l.
Proof. intros H%comprehension_Ok. symmetry. by eapply Forall2_length. Qed.

Section zne_shape.
Context (extrapolate : list Q → list pynum → nat → Q) (k : nat).
Implicit Types (step_counts : list Hist) (shots : Z).

(** A histogram over all the generated bitstrings has 2^k entries. *)
Lemma size_generated (r : Hist) :
  dom r = list_to_set (generate_bitstrings k) → size r = (2 ^ k)%nat.
Proof.
  intros Hdom.
  rewrite <-size_dom, Hdom, size_list_to_set
    by apply NoDup_generate_bitstrings.
  apply length_generate_bitstrings.
Qed.

Lemma zne_step_dom shots step_counts (r : Hist) :
  NoiseExtrapolator.zne_step extrapolate k shots step_counts = Ok r →
  dom r = list_to_set (generate_bitstrings k).
Proof.
  intros Hr. apply set_eq. intros b.
  rewrite elem_of_dom, elem_of_list_to_set.
  destruct (zne_step_Ok extrapolate k shots step_counts r b Hr)
    as [Hin Hout].
  split.
  - intros [v Hv]. destruct (decide (b ∈ generate_bitstrings k)); [done|].
    rewrite Hout in Hv by done. discriminate.
  - intros Hb. destruct (Hin Hb) as (row & _ & ->). by eexists.
Qed.

(** X6. Every histogram that a step of the extrapolation returns has exactly
    the generated bitstrings as keys, 2^k of them, whatever the input
    histograms hold. *)
Theorem zne_step_keys shots step_counts (r : Hist) :
  NoiseExtrapolator.zne_step extrapolate k shots step_counts = Ok r →
  dom r = list_to_set (generate_bitstrings k) ∧ size r = (2 ^ k)%nat.
Proof.
  intros Hr. pose proof (zne_step_dom shots step_counts r Hr) as Hdom.
  split; [exact Hdom|]. by apply size_generated.
Qed.

(** The steps below [length all_counts] all return, for non-zero shots. *)
Lemma zne_steps_prefix_ok shots (steps : nat) (all_counts : list (list Hist)) :
  shots ≠ 0 → (steps ≤ length all_counts)%nat →
  Forall
    (λ step,
       is_ok match all_counts !! step with
             | Some step_counts =>
                 NoiseExtrapolator.zne_step extrapolate k shots step_counts
             | None => Raise IndexError
             end)
    (seq 0 steps).
Proof.
  intros Hs Hle. apply Forall_forall. intros step Hin%elem_of_seq.
  destruct (lookup_lt_is_Some_2 all_counts step) as [sc ->]; [lia|].
  by apply zne_step_total.
Qed.

Lemma zne_steps_returns shots (steps : nat) (all_counts : list (list Hist)) :
  shots ≠ 0 → (steps ≤ length all_counts)%nat →
  ∃ r, NoiseExtrapolator.zne_steps extrapolate k shots steps all_counts
         = Ok r ∧ length r = steps.
Proof.
  intros Hs Hle. unfold NoiseExtrapolator.zne_steps.
  destruct (comprehension_total _ _
              (zne_steps_prefix_ok shots steps all_counts Hs Hle)) as [r Hr].
  exists r. split; [done|].
  apply comprehension_length in Hr. by rewrite Hr, length_seq.
Qed.

(** X7. For a non-zero shot count the loop over the steps returns one
    histogram per step when [all_counts] holds at least [steps] entries, and
    raises an IndexError when it holds fewer. *)
Theorem zne_steps_length shots (steps : nat) (all_counts : list (list Hist)) :
  shots ≠ 0 →
  ((steps ≤ length all_counts)%nat →
   ∃ r, NoiseExtrapolator.zne_steps extrapolate k shots steps all_counts
          = Ok r ∧ length r = steps) ∧
  ((length all_counts < steps)%nat →
   NoiseExtrapolator.zne_steps extrapolate k shots steps all_counts
     = Raise IndexError).
Proof.
  intros Hs. split; [by apply zne_steps_returns|].
  intros Hlt. unfold NoiseExtrapolator.zne_steps.
  replace steps with (length all_counts + S (steps - S (length all_counts)))%nat
    by lia.
  rewrite seq_app. cbn [seq].
  apply comprehension_app_Raise.
  - by apply zne_steps_prefix_ok.
  - simpl. by rewrite (proj2 (lookup_ge_None all_counts (length all_counts))).
Qed.

(** X8. Extrapolation followed by equalization, for a non-zero shot count,
    enough entries in [all_counts], k >= 1 measured qubits and a lattice
    without a zero dimension: the extrapolated histograms always have enough
    entries for the cutoff, so the call returns exactly when the raw histogram
    of step zero has more than 2^(k-1) entries, and raises an IndexError
    otherwise. *)
Theorem zne_post_equalized (rows cols shots : Z) (steps : nat) (first : Hist)
    (all_counts : list (list Hist)) :
  shots ≠ 0 → (steps ≤ length all_counts)%nat → (0 < k)%nat →
  rows * cols ≠ 0 →
  ((2 ^ (k - 1) < size first)%nat →
   is_ok (NoiseExtrapolator.zne_post extrapolate k true rows cols shots steps
            first all_counts)) ∧
  ((size first ≤ 2 ^ (k - 1))%nat →
   NoiseExtrapolator.zne_post extrapolate k true rows cols shots steps
     first all_counts = Raise IndexError).
Proof.
  intros Hs Hle Hk Hd. unfold NoiseExtrapolator.zne_post.
  destruct (zne_steps_returns shots steps all_counts Hs Hle)
    as (mitigated & Hm & _).
  rewrite Hm. cbn [mbind result_bind]. split.
  - intros Hfirst. apply equalize_returns; [done..|].
    constructor; [done|].
    unfold NoiseExtrapolator.zne_steps in Hm. apply comprehension_Ok in Hm.
    clear -Hm Hk. induction Hm as [|step out l r Hout _ IH]; constructor;
      [|done].
    destruct (all_counts !! step) as [sc|]; [|discriminate].
    apply zne_step_dom, size_generated in Hout as ->.
    destruct k as [|k']; [lia|]. replace (S k' - 1)%nat with k' by lia.
    rewrite Nat.pow_succ_r'. pose proof (Nat.pow_nonzero 2 k'). lia.
  - intros Hfirst. destruct k as [|k']; [lia|].
    replace (S k' - 1)%nat with k' in Hfirst by lia.
    unfold Equalizer.equalize; simpl. unfold Equalizer.equalize_count.
    by rewrite (cutoff_index_out_of_range (S k') first k').
Qed.
End zne_shape.

Lemma zne_step_keys_witness :
  NoiseExtrapolator.zne_step Library.extrapolate 1 100 rising_scales =
    Ok {[ "0"%string := PyInt 110; "1"%string := PyInt (-10) ]} ∧
  size ({[ "0"%string := PyInt 110; "1"%string := PyInt (-10) ]} : Hist)
    = (2 ^ 1)%nat.
Proof.
  assert (NoiseExtrapolator.zne_step Library.extrapolate 1 100 rising_scales =
          Ok {[ "0"%string := PyInt 110; "1"%string := PyInt (-10) ]}) as Hr
    by (vm_compute; reflexivity).
  split; [exact Hr|].
  exact (proj2 (zne_step_keys Library.extrapolate 1 100 rising_scales _ Hr)).
Defined.

Lemma zne_steps_length_witness :
  100 ≠ 0 ∧ (1 ≤ length [rising_scales])%nat ∧
  ∃ r, NoiseExtrapolator.zne_steps Library.extrapolate 1 100 1 [rising_scales]
         = Ok r ∧ length r = 1%nat.
Proof.
  split; [lia|]. split; [simpl; lia|].
  apply (proj1 (zne_steps_length Library.extrapolate 1 100 1 [rising_scales]
                  ltac:(lia))).
  simpl. lia.
Defined.

Lemma zne_post_equalized_witness :
  100 ≠ 0 ∧ (0 < 1)%nat ∧ 1 * 2 ≠ 0 ∧
  is_ok (NoiseExtrapolator.zne_post Library.extrapolate 1 true 1 2 100 1
           (both 3 2) [rising_scales]).
Proof.
  split; [lia|]. split; [lia|]. split; [lia|].
  apply (proj1 (zne_post_equalized Library.extrapolate 1 1 2 100 1 (both 3 2)
                  [rising_scales] ltac:(lia) ltac:(simpl; lia) ltac:(lia)
                  ltac:(lia))).
  vm_compute. lia.
Defined.

(** X9. With zero shots the row of a bitstring depends on the first
    histogram alone: when it lacks the bitstring, the TypeError of the missing
    count is caught and the row is all zeros; when it holds the bitstring, the
    division raises a ZeroDivisionError, which is not caught. *)
Theorem exp_row_zero_shots (h : Hist) (rest : list Hist) (b : string) :
  (h !! b = None →
   NoiseExtrapolator.exp_row 0 (h :: rest) b =
     Ok ((λ _, PyInt 0) <$> h :: rest)) ∧
  (is_Some (h !! b) →
   NoiseExtrapolator.exp_row 0 (h :: rest) b = Raise ZeroDivisionError).
Proof.
  split.
  - intros H. unfold NoiseExtrapolator.exp_row. cbn [comprehension].
    unfold NoiseExtrapolator.get_div. by rewrite H.
  - intros [c H]. unfold NoiseExtrapolator.exp_row. cbn [comprehension].
    unfold NoiseExtrapolator.get_div. by rewrite H.
Qed.

(** ** Iterative unfolding: one histogram per circuit *)

Section ibu_facts.
Context {Circuit : Type} (guess_as_dict : Circuit → Hist → gmap string Q).
Implicit Types (qcs : list Circuit) (counts : list Hist) (shots : Z).

Local Abbreviation unfolded shots :=
  (λ qc obs, ReadoutCorrector.to_counts shots (guess_as_dict qc obs)).


End ibu_facts.

(** ** The orchestrator: flags that are not read, and failures *)

Section orchestrator_facts.
Context {Circuit Quasi Prob : Type}.
Context (quasi_probabilities : Hist → Quasi).
Context (nearest_probability_distribution : Quasi → Prob).
Context (binary_probabilities : Prob → gmap string Q).
Context (guess_as_dict : Circuit → Hist → gmap string Q).
Context (pec_execute : list Circuit → Z → list Hist).

Local Abbreviation mitigate :=
  (Orchestrator.mitigate quasi_probabilities nearest_probability_distribution
     binary_probabilities guess_as_dict pec_execute).

(** With correction, unfolding and cancellation all off, the histograms
    come back as they are with the raw label, whatever the equalization and
    extrapolation flags, the circuits and the shots are. *)
Theorem mitigate_raw (self : Orchestrator.ErrorMitigator)
    (qcs : list Circuit) (shots : Z) (counts : list Hist) :
  Orchestrator.readout_error_mitigation self = false →
  Orchestrator.iterative_bayesian_unfolding self = false →
  Orchestrator.probabilistic_error_cancellation self = false →
  mitigate self qcs shots counts =
  Ok (counts,
      ("raw-collisionless-" +:+ pretty (Orchestrator.dims self).1 +:+ "x" +:+
       pretty (Orchestrator.dims self).2 +:+ "-ibm-qpu")%string).
Proof.
  intros Hrem Hibu Hpec. unfold Orchestrator.mitigate.
  by rewrite Hrem, Hibu, Hpec.
Qed.

(** [mitigate] never reads the extrapolation flag: two mitigators that
    agree on every other field give the same result. *)
Lemma mitigate_ignores_zne (self other : Orchestrator.ErrorMitigator)
    (qcs : list Circuit) (shots : Z) (counts : list Hist) :
  Orchestrator.dims self = Orchestrator.dims other →
  Orchestrator.measured self = Orchestrator.measured other →
  Orchestrator.equalization self = Orchestrator.equalization other →
  Orchestrator.readout_error_mitigation self
    = Orchestrator.readout_error_mitigation other →
  Orchestrator.iterative_bayesian_unfolding self
    = Orchestrator.iterative_bayesian_unfolding other →
  Orchestrator.probabilistic_error_cancellation self
    = Orchestrator.probabilistic_error_cancellation other →
  mitigate self qcs shots counts = mitigate other qcs shots counts.
Proof.
  destruct self, other; simpl. by intros -> -> -> -> -> ->.
Qed.

(** With the cancellation flag set, the correction and unfolding flags
    are not read: the result is what the cancellation loop collected,
    equalized when the equalization flag is set, with the pec label. *)
Theorem mitigate_pec_supersedes (self : Orchestrator.ErrorMitigator)
    (qcs : list Circuit) (shots : Z) (counts : list Hist) :
  Orchestrator.probabilistic_error_cancellation self = true →
  mitigate self qcs shots counts =
  (r ← (if Orchestrator.equalization self
        then Equalizer.equalize (Orchestrator.measured self)
               (Orchestrator.dims self).1 (Orchestrator.dims self).2
               (pec_execute qcs shots) shots
        else Ok (pec_execute qcs shots));
   Ok (r, Orchestrator.label_for self "pec")).
Proof.
  intros Hpec. unfold Orchestrator.mitigate. rewrite Hpec.
  by rewrite !andb_false_r.
Qed.

(** X11. With unfolding enabled and cancellation off, [mitigate] raises an
    IndexError for an empty list of circuits, whether or not correction is
    enabled. *)
Theorem mitigate_unfolding_needs_circuits (self : Orchestrator.ErrorMitigator)
    (shots : Z) (counts : list Hist) :
  Orchestrator.iterative_bayesian_unfolding self = true →
  Orchestrator.probabilistic_error_cancellation self = false →
  mitigate self [] shots counts = Raise IndexError.
Proof.
  intros Hibu Hpec. unfold Orchestrator.mitigate. rewrite Hibu, Hpec.
  by destruct (Orchestrator.readout_error_mitigation self).
Qed.
(** With correction and unfolding enabled and cancellation off, the
    histograms are corrected first and the corrected histograms are unfolded,
    never the reverse; the label names the two techniques in that order. A
    failure of the unfolding is the failure of the call. *)
Theorem mitigate_correction_then_unfolding
    (self : Orchestrator.ErrorMitigator) (qcs : list Circuit) (shots : Z)
    (counts : list Hist) :
  Orchestrator.readout_error_mitigation self = true →
  Orchestrator.iterative_bayesian_unfolding self = true →
  Orchestrator.probabilistic_error_cancellation self = false →
  mitigate self qcs shots counts =
  (unfolded ←
     IterativeUnfolder.ibu guess_as_dict qcs shots
       (ReadoutCorrector.rem quasi_probabilities
          nearest_probability_distribution binary_probabilities shots counts);
   Ok (unfolded,
       ("rem-ibu-collisionless-" +:+ pretty (Orchestrator.dims self).1 +:+
        "x" +:+ pretty (Orchestrator.dims self).2 +:+ "-ibm-qpu")%string)).
Proof.
  intros Hrem Hibu Hpec.
  rewrite mitigate_standard_pipeline by (by rewrite ?Hrem, ?Hibu, ?Hpec).
  by rewrite Hrem, Hibu.
Qed.
End orchestrator_facts.

(** ** PEC configuration and table *)

(** X12. Whatever the backend and the lattice, the configuration asks for
    at most [max_samples] samples, at least 2000 of them, with a noise level
    between 0.008 and 0.015. *)
Theorem get_config_bounds (backend_name : string) (lattice_dims : Z * Z) :
  let config := PEC.get_config backend_name lattice_dims in
  2000 ≤ PEC.num_samples config ∧
  PEC.num_samples config ≤ PEC.max_samples config ∧
  (8 # 1000 <= PEC.noise_level config)%Q ∧
  (PEC.noise_level config <= 15 # 1000)%Q.
Proof.
  unfold PEC.get_config, PEC.LATTICE_CONFIGS, PEC.backend_update.
  repeat case_decide; simpl; split_and!; (lia || discriminate).
Qed.

(** The settings of a known lattice size take precedence over those of
    the backend for the noise level and the number of samples, while the
    maximum number of samples never depends on the lattice. *)
Lemma get_config_precedence (backend_name : string) (lattice_dims : Z * Z)
    (samples : Z) (level : Q) :
  PEC.LATTICE_CONFIGS lattice_dims = Some (samples, level) →
  let config := PEC.get_config backend_name lattice_dims in
  PEC.num_samples config = samples ∧ PEC.noise_level config = level ∧
  PEC.max_samples config =
    PEC.max_samples (PEC.get_config backend_name (0, 0)).
Proof.
  intros H. unfold PEC.get_config. rewrite H.
  assert (PEC.LATTICE_CONFIGS (0, 0) = None) as -> by reflexivity.
  done.
Qed.

Lemma get_config_precedence_witness :
  PEC.LATTICE_CONFIGS (4, 4) = Some (5000, (10 # 1000)%Q) ∧
  PEC.noise_level (PEC.get_config "ibm_brisbane" (4, 4)) = (10 # 1000)%Q.
Proof.
  split; [reflexivity|].
  exact (proj1 (proj2 (get_config_precedence "ibm_brisbane" (4, 4) 5000
                         (10 # 1000)%Q eq_refl))).
Defined.

Section table_batches.
Context {Circuit Repr Noise : Type}.
Context (depth : Circuit → Z) (gate_counts : Circuit → string).
Context (hash : string → Z).
Context (represent : nat → Circuit → Q → Z → option (list Repr)).
Context (num_qubits : Circuit → Z).
Context (initialized_depolarizing_noise : Q → Z → result Noise).
Context (backend_name : string).

Local Abbreviation get_key := (PEC.get_key depth gate_counts hash backend_name).
Local Abbreviation request :=
  (PEC.request depth gate_counts hash represent backend_name).
Local Abbreviation requests :=
  (PEC.requests depth gate_counts hash represent backend_name).
Local Abbreviation generate :=
  (PEC.generate_pec_representations depth gate_counts hash represent
     num_qubits initialized_depolarizing_noise backend_name).
(** The call that initializes the noise model for a batch. *)
Local Abbreviation noise_model dims circuits :=
  (n ← PEC.py_max (num_qubits <$> circuits);
   initialized_depolarizing_noise
     (PEC.noise_level (PEC.get_config backend_name dims)) n).

(** The table is a map: a stored representation is loaded back, storing
    under one key leaves every other key alone, and a key that was never
    stored loads nothing. *)
Theorem store_load (key key' : string) (reprs : list Repr) (t : PEC.PECTable) :
  PEC.load key (PEC.store key reprs t) = Some reprs ∧
  (key' ≠ key → PEC.load key' (PEC.store key reprs t) = PEC.load key' t) ∧
  PEC.load key
    (PEC.pec_table (PEC.initial (Circuit:=Circuit) (Repr:=Repr))) = None.
Proof.
  unfold PEC.load, PEC.store; simpl. split_and!.
  - apply lookup_insert_eq.
  - intros Hne. by apply lookup_insert_ne.
  - apply lookup_empty.
Qed.

(** One request: what was stored stays stored, the constructions grow by at
    most the requested circuit. *)
Lemma request_keeps (pec_config : PEC.Config) (num_samples : Z)
    (st : PEC.State) (circuit : Circuit) (key : string) (r : list Repr) :
  PEC.load key (PEC.pec_table st) = Some r →
  PEC.load key
    (PEC.pec_table (request pec_config num_samples st circuit).1) = Some r.
Proof.
  intros Hkey. unfold PEC.request.
  destruct (PEC.load (get_key circuit) (PEC.pec_table st)) as [c|] eqn:Hload;
    [done|].
  destruct (represent _ _ _ _); [|done]. simpl.
  unfold PEC.load, PEC.store in *; simpl. rewrite lookup_insert_ne; [done|].
  intros <-. congruence.
Qed.

Lemma request_constructed (pec_config : PEC.Config) (num_samples : Z)
    (st : PEC.State) (circuit : Circuit) :
  let st' := (request pec_config num_samples st circuit).1 in
  (PEC.constructed st' = PEC.constructed st ∧
   is_Some (PEC.load (get_key circuit) (PEC.pec_table st))) ∨
  (PEC.constructed st' = PEC.constructed st ++ [circuit] ∧
   PEC.load (get_key circuit) (PEC.pec_table st) = None).
Proof.
  unfold PEC.request.
  destruct (PEC.load (get_key circuit) (PEC.pec_table st)) as [c|] eqn:Hload.
  - left. by split; [|eexists].
  - right. by destruct (represent _ _ _ _).
Qed.

Lemma requests_length (pec_config : PEC.Config) (num_samples : Z)
    (st : PEC.State) (circuits : list Circuit) :
  length (requests pec_config num_samples st circuits).2 = length circuits.
Proof.
  revert st. induction circuits as [|c cs IH]; intros st; simpl; [done|].
  destruct (request pec_config num_samples st c) as [st1 r].
  specialize (IH st1).
  destruct (requests pec_config num_samples st1 cs) as [st2 rs]. simpl in *.
  by rewrite IH.
Qed.

Lemma requests_keep (pec_config : PEC.Config) (num_samples : Z)
    (st : PEC.State) (circuits : list Circuit) (key : string) (r : list Repr) :
  PEC.load key (PEC.pec_table st) = Some r →
  PEC.load key
    (PEC.pec_table (requests pec_config num_samples st circuits).1) = Some r.
Proof.
  revert st. induction circuits as [|c cs IH]; intros st Hkey; simpl; [done|].
  pose proof (request_keeps pec_config num_samples st c key r Hkey) as H1.
  destruct (request pec_config num_samples st c) as [st1 r1].
  specialize (IH st1 H1).
  by destruct (requests pec_config num_samples st1 cs) as [st2 rs].
Qed.

Lemma requests_constructed (pec_config : PEC.Config) (num_samples : Z)
    (st : PEC.State) (circuits : list Circuit) :
  ∃ ran, PEC.constructed (requests pec_config num_samples st circuits).1
           = PEC.constructed st ++ ran ∧
         ran `sublist_of` circuits.
Proof.
  revert st. induction circuits as [|c cs IH]; intros st; simpl.
  { exists []. by rewrite app_nil_r. }
  pose proof (request_constructed pec_config num_samples st c) as H1.
  destruct (request pec_config num_samples st c) as [st1 r1].
  destruct (IH st1) as (ran & Hran & Hsub).
  destruct (requests pec_config num_samples st1 cs) as [st2 rs].
  simpl in *. destruct H1 as [[H1 _]|[H1 _]]; rewrite Hran, H1.
  - exists ran. split; [done|by apply sublist_cons].
  - exists (c :: ran). rewrite <-app_assoc. split; [done|by apply sublist_skip].
Qed.

Lemma requests_all_stored (pec_config : PEC.Config) (num_samples : Z)
    (st : PEC.State) (circuits : list Circuit) :
  Forall (λ c, is_Some (PEC.load (get_key c) (PEC.pec_table st))) circuits →
  requests pec_config num_samples st circuits =
  (st, (λ c, default [] (PEC.load (get_key c) (PEC.pec_table st)))
         <$> circuits).
Proof.
  induction 1 as [|c cs [r Hr] _ IH]; [done|].
  cbn [PEC.requests].
  rewrite (request_hit depth gate_counts hash represent backend_name
             pec_config num_samples st c r Hr), IH.
  rewrite fmap_cons. by rewrite Hr.
Qed.

(** A batch that returns has initialized the noise model and run the
    requests. *)
Lemma generate_Ok (dims : Z * Z) (st st' : PEC.State)
    (circuits : list Circuit) (num_samples : Z) (reprs : list (list Repr)) :
  generate dims st circuits num_samples = Ok (st', reprs) →
  circuits ≠ [] ∧ is_ok (noise_model dims circuits) ∧
  requests (PEC.get_config backend_name dims) num_samples st circuits
    = (st', reprs).
Proof.
  unfold PEC.generate_pec_representations.
  destruct circuits as [|c cs]; [discriminate|]. cbn [fmap list_fmap].
  unfold PEC.py_max. cbn [mbind result_bind].
  destruct (initialized_depolarizing_noise _ _) as [n|e]; [|discriminate].
  cbn [mbind result_bind]. intros Heq. split_and!; [done|by eexists|].
  by injection Heq.
Qed.

Lemma generate_noise (dims : Z * Z) (st : PEC.State)
    (circuits : list Circuit) (num_samples : Z) :
  generate dims st circuits num_samples =
  (_ ← noise_model dims circuits;
   Ok (requests (PEC.get_config backend_name dims) num_samples st circuits)).
Proof.
  unfold PEC.generate_pec_representations.
  by destruct (PEC.py_max (num_qubits <$> circuits)).
Qed.

(** X13. An empty batch raises a ValueError, from the maximum of an empty
    list. Any batch raises what the initialization of the noise model
    raises; when that call returns, the batch returns one representation per
    circuit. *)
Theorem generate_one_per_circuit (dims : Z * Z) (st : PEC.State)
    (circuits : list Circuit) (num_samples : Z) :
  generate dims st [] num_samples = Raise ValueError ∧
  (∀ e, noise_model dims circuits = Raise e →
        generate dims st circuits num_samples = Raise e) ∧
  (is_ok (noise_model dims circuits) →
   ∃ st' reprs, generate dims st circuits num_samples = Ok (st', reprs) ∧
                length reprs = length circuits).
Proof.
  split_and!; [done| |].
  - intros e He. by rewrite generate_noise, He.
  - intros [n Hn]. rewrite generate_noise, Hn. cbn [mbind result_bind].
    destruct (requests (PEC.get_config backend_name dims) num_samples st
                circuits) as [st' reprs] eqn:Hreq.
    exists st', reprs. split; [done|].
    by rewrite <-(requests_length (PEC.get_config backend_name dims)
                    num_samples st circuits), Hreq.
Qed.

(** X14. A batch never overwrites the table: a representation stored before
    the batch is stored, unchanged, after it. *)
Theorem generate_keeps_stored (dims : Z * Z) (st st' : PEC.State)
    (circuits : list Circuit) (num_samples : Z)
    (reprs : list (list Repr)) (key : string) (r : list Repr) :
  generate dims st circuits num_samples = Ok (st', reprs) →
  PEC.load key (PEC.pec_table st) = Some r →
  PEC.load key (PEC.pec_table st') = Some r.
Proof.
  intros (_ & _ & Hreq)%generate_Ok Hkey.
  pose proof (requests_keep (PEC.get_config backend_name dims) num_samples st
                circuits key r Hkey) as H.
  by rewrite Hreq in H.
Qed.

(** X15. A batch runs the construction for a sub-list of its circuits, in
    order, and for nothing else: at most one construction per circuit. *)
Theorem generate_constructs_sublist (dims : Z * Z) (st st' : PEC.State)
    (circuits : list Circuit) (num_samples : Z) (reprs : list (list Repr)) :
  generate dims st circuits num_samples = Ok (st', reprs) →
  ∃ ran, PEC.constructed st' = PEC.constructed st ++ ran ∧
         ran `sublist_of` circuits ∧
         (length (PEC.constructed st')
            ≤ length (PEC.constructed st) + length circuits)%nat.
Proof.
  intros (_ & _ & Hreq)%generate_Ok.
  destruct (requests_constructed (PEC.get_config backend_name dims)
              num_samples st circuits) as (ran & Hran & Hsub).
  rewrite Hreq in Hran. simpl in Hran. exists ran. split_and!; [done..|].
  rewrite Hran, length_app. apply sublist_length in Hsub. lia.
Qed.

(** X16. When the key of every circuit of a batch is stored and the noise
    model is initialized, the batch runs no construction, leaves the state
    as it is and returns the stored representations. Stored keys do not
    spare the initialization: when it raises, the batch raises too. *)
Theorem generate_all_stored (dims : Z * Z) (st : PEC.State)
    (circuits : list Circuit) (num_samples : Z) :
  Forall (λ c, is_Some (PEC.load (get_key c) (PEC.pec_table st))) circuits →
  (is_ok (noise_model dims circuits) →
   generate dims st circuits num_samples =
   Ok (st, (λ c, default [] (PEC.load (get_key c) (PEC.pec_table st)))
             <$> circuits)) ∧
  (∀ e, noise_model dims circuits = Raise e →
        generate dims st circuits num_samples = Raise e).
Proof.
  intros Hall. rewrite generate_noise. split.
  - intros [n ->]. cbn [mbind result_bind]. by rewrite requests_all_stored.
  - by intros e ->.
Qed.
End table_batches.

(** ** [get_measured_qubits] *)

Section measured_facts.
Context {Qubit : Type} (find_bit : Qubit → nat).
Implicit Types (data : list (string * list Qubit)).

Lemma get_measured_qubits_loop data (acc : list nat) :
  let body := λ (measured_qubits : list nat) '(name, qargs),
    if decide (name = "measure"%string) then
      match (find_bit <$> qargs) !! 0%nat with
      | Some bit => Ok (measured_qubits ++ [bit])
      | None => Raise IndexError
      end
    else Ok measured_qubits in
  (Forall (λ item, item.1 = "measure"%string → item.2 ≠ []) data →
   for_each body acc data = Ok (acc ++ omap (Measured.measured_by find_bit) data)) ∧
  (Exists (λ item, item.1 = "measure"%string ∧ item.2 = []) data →
   for_each body acc data = Raise IndexError).
Proof.
  intros body. revert acc. induction data as [|[name qargs] data IH];
    intros acc.
  { split; [by rewrite app_nil_r|by intros ?%Exists_nil]. }
  destruct (IH acc) as [IHok0 IHerr0]. cbn [for_each].
  assert (body acc (name, qargs) =
          if decide (name = "measure"%string) then
            match (find_bit <$> qargs) !! 0%nat with
            | Some bit => Ok (acc ++ [bit])
            | None => Raise IndexError
            end
          else Ok acc) as -> by done.
  unfold Measured.measured_by. cbn [omap list_omap fst snd].
  destruct (decide (name = "measure"%string)) as [Hm|Hm].
  - destruct qargs as [|q qargs]; simpl.
    + split; [|done].
      intros Hall. apply Forall_cons in Hall as [H _]. by destruct H.
    + destruct (IH (acc ++ [find_bit q])) as [IHok IHerr]. split.
      * intros Hall. apply Forall_cons in Hall as [_ Hall].
        rewrite IHok by done. by rewrite <-app_assoc.
      * intros Hex. apply Exists_cons in Hex as [[_ [=]]|Hex]. by apply IHerr.
  - simpl. split.
    + intros Hall. apply Forall_cons in Hall as [_ Hall]. by apply IHok0.
    + intros Hex. apply Exists_cons in Hex as [[? _]|Hex]; [done|].
      by apply IHerr0.
Qed.

(** X17. [get_measured_qubits] returns, in the order of the circuit, the index
    of the first qubit of every measure instruction, and nothing for any
    other instruction; a measure instruction without a qubit makes it raise
    an IndexError. *)
Theorem get_measured_qubits_spec data :
  (Forall (λ item, item.1 = "measure"%string → item.2 ≠ []) data →
   Measured.get_measured_qubits find_bit data =
   Ok (omap (Measured.measured_by find_bit) data)) ∧
  (Exists (λ item, item.1 = "measure"%string ∧ item.2 = []) data →
   Measured.get_measured_qubits find_bit data = Raise IndexError).
Proof. apply (get_measured_qubits_loop data []). Qed.
End measured_facts.

(** ** The REM table *)

Section readout_facts.
Context {Backend JobId Raw Data : Type}.
Context (backend_name : Backend → string).
Context (job_backend : JobId → Backend) (job_result : JobId → Raw).
Context (json_round_trip : Raw → Raw).
Context (run : nat → Backend → Data * JobId).
Context (analysis_run : Raw → JobId → Data).

Local Abbreviation ReadoutError :=
  (Readout.ReadoutError backend_name job_backend job_result json_round_trip
     run analysis_run).
Local Abbreviation load := (Readout.load backend_name analysis_run).
Local Abbreviation path backend dims :=
  (Readout.table_path (backend_name backend) dims).

(** X18. A stored calibration is reused: when the table holds a file for the
    backend name and the dimensions, [ReadoutError] with [use_table] runs no
    experiment, leaves the files alone and returns the analysis of the
    stored raw result. *)
Theorem readout_table_hit (dims : Z * Z) (backend : Backend)
    (w : Readout.World) (raw : Raw) (job_id : JobId) :
  Readout.files w !! path backend dims = Some (raw, job_id) →
  ReadoutError dims backend true w = Some (w, analysis_run raw job_id).
Proof.
  intros Hfile. unfold Readout.ReadoutError, Readout.load.
  rewrite bool_decide_eq_true_2 by (by eexists). simpl. by rewrite Hfile.
Qed.

(** X19. Round trip through the table: after [ReadoutError] has run the
    experiment (the table is bypassed or has no file), a later [ReadoutError]
    with [use_table], for the same dimensions and a backend with the name of
    the backend that ran the job, runs nothing and returns the analysis of
    what the decoder reads back from the stored result of that job. *)
Theorem readout_round_trip (dims : Z * Z) (backend backend' : Backend)
    (use_table : bool) (w : Readout.World) :
  let result := (run (Readout.experiments w) backend).1 in
  let job_id := (run (Readout.experiments w) backend).2 in
  use_table = false ∨ Readout.files w !! path backend dims = None →
  backend_name (job_backend job_id) = backend_name backend' →
  ∃ w1, ReadoutError dims backend use_table w = Some (w1, result) ∧
        Readout.experiments w1 = S (Readout.experiments w) ∧
        ReadoutError dims backend' true w1 =
          Some (w1, analysis_run (json_round_trip (job_result job_id)) job_id).
Proof.
  intros result job_id Hfresh Hname.
  assert (use_table &&
          bool_decide (is_Some (Readout.files w !! path backend dims)) = false)
    as Hcond.
  { destruct Hfresh as [->| ->]; [done|].
    rewrite bool_decide_eq_false_2; [by destruct use_table|].
    by intros [? [=]]. }
  unfold Readout.ReadoutError at 1. rewrite Hcond.
  subst result job_id. destruct (run (Readout.experiments w) backend)
    as [result job_id] eqn:Hrun. simpl in *.
  eexists. split_and!; [done..|].
  unfold Readout.ReadoutError, Readout.load, Readout.enter. simpl.
  rewrite <-Hname, lookup_insert_eq.
  by rewrite bool_decide_eq_true_2 by (by eexists).
Qed.

(** X20. Bypassing the table always runs the experiment and replaces the file
    of the job's backend, whatever it held; files under other paths are
    kept. *)
Theorem readout_bypass_overwrites (dims : Z * Z) (backend : Backend)
    (w : Readout.World) :
  let job_id := (run (Readout.experiments w) backend).2 in
  ∃ w1 result, ReadoutError dims backend false w = Some (w1, result) ∧
    Readout.experiments w1 = S (Readout.experiments w) ∧
    Readout.files w1 !! path (job_backend job_id) dims =
      Some (json_round_trip (job_result job_id), job_id) ∧
    ∀ p, p ≠ path (job_backend job_id) dims →
         Readout.files w1 !! p = Readout.files w !! p.
Proof.
  intros job_id. unfold Readout.ReadoutError. simpl. subst job_id.
  destruct (run (Readout.experiments w) backend) as [result job_id].
  do 2 eexists. split_and!; [done..| |]; simpl; unfold Readout.enter.
  - apply lookup_insert_eq.
  - intros p Hp. by rewrite lookup_insert_ne.
Qed.

(** X21. [ReadoutError] never fails on a missing file, although [load] alone
    does: the table is read only after the file was found. *)
Theorem readout_error_returns (dims : Z * Z) (backend : Backend)
    (use_table : bool) (w : Readout.World) :
  is_Some (ReadoutError dims backend use_table w) ∧
  (Readout.files w !! path backend dims = None →
   load dims backend (Readout.files w) = None).
Proof.
  split.
  - unfold Readout.ReadoutError.
    destruct (use_table && bool_decide _) eqn:Hcond.
    + apply andb_true_iff in Hcond as [_ Hfile].
      apply bool_decide_eq_true_1 in Hfile as [[raw job_id] Hfile].
      unfold Readout.load. rewrite Hfile. by eexists.
    + destruct (run _ _). by eexists.
  - intros Hfile. unfold Readout.load. by rewrite Hfile.
Qed.
End readout_facts.

(** ** The loop of the cancellation sampler *)

Section sampler_facts.
Context {Circuit Repr Job : Type}.
Context (sampler_run : list (Circuit * Z) → Circuit → Z → result Job).
Context (get_counts : Job → result Hist).
Context (sample_circuits : Circuit → list Repr → Z → result (list Circuit)).

Local Abbreviation run_original := (Sampler.run_original sampler_run get_counts).
Local Abbreviation submit_all := (Sampler.submit_all sampler_run).
Local Abbreviation sample_and_combine :=
  (Sampler.sample_and_combine sampler_run get_counts sample_circuits).
Local Abbreviation pec_circuit :=
  (Sampler.pec_circuit sampler_run get_counts sample_circuits).
Local Abbreviation pec_loop :=
  (Sampler.pec_loop sampler_run get_counts sample_circuits).

(** The runs requested while the jobs are submitted: a prefix of the sampled
    circuits, each with the same number of shots; all of them, with one job
    each, when no run raises. *)
Lemma submit_all_log (log : list (Circuit * Z)) (sampled : list Circuit)
    (spc : Z) :
  ∃ j, (j ≤ length sampled)%nat ∧
       (submit_all log sampled spc).1
         = log ++ ((λ sc, (sc, spc)) <$> take j sampled) ∧
       ∀ jobs, (submit_all log sampled spc).2 = Ok jobs →
               j = length sampled ∧ length jobs = length sampled.
Proof.
  revert log. induction sampled as [|sc rest IH]; intros log; simpl.
  { exists 0%nat. split_and!; [done|by rewrite app_nil_r|].
    by intros jobs [= <-]. }
  destruct (sampler_run log sc spc) as [job|e]; simpl.
  - destruct (IH (log ++ [(sc, spc)])) as (j & Hj & Hlog & Hjobs).
    destruct (submit_all (log ++ [(sc, spc)]) rest spc) as [log2 r].
    simpl in *. exists (S j). split_and!; [lia| |].
    + rewrite Hlog. by rewrite <-app_assoc.
    + intros jobs. destruct r as [jobs'|e]; [|done]. simpl. intros [= <-].
      destruct (Hjobs jobs' eq_refl) as [-> Hlen]. simpl. by rewrite Hlen.
  - exists 1%nat. split_and!; [lia| |done]. simpl. by destruct rest.
Qed.


(** X23. Failures of the sampling, of the sampled runs or of their results
    never surface: when a run of the unmodified circuit at the full number of
    shots succeeds whatever ran before, the loop body returns a histogram. *)
Theorem pec_circuit_falls_back (log : list (Circuit * Z)) (circuit : Circuit)
    (representation : list Repr) (shots num_samples : Z) :
  (∀ log', is_ok (run_original log' circuit shots).2) →
  is_ok (pec_circuit log circuit representation shots num_samples).2.
Proof.
  intros Horig. unfold Sampler.pec_circuit.
  destruct representation as [|rep reps]; [apply Horig|].
  destruct (sample_and_combine log circuit (rep :: reps) shots num_samples)
    as [log1 [combined|e]]; [by eexists|apply Horig].
Qed.

(** X24. The shot budget of one circuit: when the sampling returns at least
    one circuit and no more circuits than were asked for, every sampled run
    is given shots // len(sampled_circuits) shots, at least 10, and the runs
    requested together ask for at most [shots] shots. *)
Theorem sample_and_combine_budget (log : list (Circuit * Z))
    (circuit : Circuit) (representation : list Repr) (shots num_samples : Z)
    (sampled : list Circuit) :
  sample_circuits circuit representation
    (Z.min num_samples (shots `div` 10)) = Ok sampled →
  sampled ≠ [] →
  Z.of_nat (length sampled) ≤ Z.min num_samples (shots `div` 10) →
  ∃ ran,
    (sample_and_combine log circuit representation shots num_samples).1
      = log ++ ran ∧
    Forall (λ p, p.2 = shots `div` Z.of_nat (length sampled) ∧ 10 ≤ p.2) ran ∧
    shots_requested ran ≤ shots.
Proof.
  intros Hs Hne Hle. unfold Sampler.sample_and_combine. rewrite Hs.
  destruct sampled as [|sc scs]; [done|].
  set (k := Z.of_nat (length (sc :: scs))) in *.
  assert (0 < k) as Hk by (unfold k; simpl; lia).
  assert (k * 10 ≤ shots) as Hk10.
  { pose proof (Z.mul_div_le shots 10 ltac:(lia)). lia. }
  assert (10 ≤ shots `div` k) as Hdiv by (apply Z.div_le_lower_bound; lia).
  assert (Z.max 1 (shots `div` k) = shots `div` k) as -> by lia.
  destruct (submit_all_log log (sc :: scs) (shots `div` k))
    as (j & Hj & Hlog & _).
  destruct (submit_all log (sc :: scs) (shots `div` k)) as [log1 jobs].
  simpl in Hlog. subst log1. eexists. split; [done|]. split.
  - apply Forall_fmap, Forall_forall. by intros sc' _.
  - unfold shots_requested. rewrite <-list_fmap_compose.
    assert (∀ l : list Circuit,
              foldr Z.add 0 ((snd ∘ (λ sc', (sc', shots `div` k))) <$> l)
              = Z.of_nat (length l) * (shots `div` k)) as Hsum.
    { induction l as [|x l IH]; [done|].
      rewrite fmap_cons. cbn [foldr length]. rewrite IH. simpl. lia. }
    rewrite Hsum, length_take.
    pose proof (Z.mul_div_le shots k Hk).
    assert (Z.of_nat (j `min` length (sc :: scs)) ≤ k) by (unfold k; lia).
    nia.
Qed.

(** The loop returns one histogram per pair of a circuit and a
    representation. *)
Lemma pec_loop_length (log : list (Circuit * Z))
    (pairs : list (Circuit * list Repr)) (shots num_samples : Z)
    (mitigated_counts : list Hist) :
  (pec_loop log pairs shots num_samples).2 = Ok mitigated_counts →
  length mitigated_counts = length pairs.
Proof.
  revert log mitigated_counts.
  induction pairs as [|[circuit representation] rest IH];
    intros log mitigated_counts; simpl.
  { by intros [= <-]. }
  destruct (pec_circuit log circuit representation shots num_samples)
    as [log1 [counts|e]]; [|done].
  specialize (IH log1).
  destruct (pec_loop log1 rest shots num_samples) as [log2 [r|e]];
    simpl; [|done].
  intros [= <-]. simpl. by rewrite (IH r).
Qed.
End sampler_facts.

(** ** Worked examples for the further properties *)

Lemma equalize_crops_at_most_half_witness :
  Equalizer.equalize 2 2 2 [spec_counts] 100 =
    Ok [snap (PyInt 30) (PyFloat (200 # 4)) <$> spec_counts] ∧
  Forall (λ out : Hist,
            (count_if is_cropped (values out) ≤ 2 ^ (2 - 1))%nat ∧
            (count_if is_cropped (values out) < size out)%nat)
    [snap (PyInt 30) (PyFloat (200 # 4)) <$> spec_counts].
Proof.
  assert (Equalizer.equalize 2 2 2 [spec_counts] 100 =
          Ok [snap (PyInt 30) (PyFloat (200 # 4)) <$> spec_counts]) as H
    by (vm_compute; reflexivity).
  split; [exact H|].
  exact (equalize_crops_at_most_half 2 2 2 100 [spec_counts] _ H).
Defined.

Lemma mitigate_raw_witness :
  ideal_mitigate (mitigator true false false true false) [tt] 100
    [both 25 75] =
  Ok ([both 25 75], "raw-collisionless-2x2-ibm-qpu"%string).
Proof.
  unfold ideal_mitigate.
  rewrite (mitigate_raw Library.ideal_quasi_probabilities
             Library.nearest_probability_distribution
             Library.binary_probabilities (λ _ _, ∅) (λ _ _, [])
             (mitigator true false false true false) [tt] 100 [both 25 75]
             eq_refl eq_refl eq_refl).
  reflexivity.
Defined.

Lemma mitigate_pec_supersedes_witness :
  ideal_mitigate (mitigator false true true false true) [tt] 100
    [both 25 75] =
  Ok ([], "pec-collisionless-2x2-ibm-qpu"%string).
Proof.
  unfold ideal_mitigate.
  rewrite (mitigate_pec_supersedes Library.ideal_quasi_probabilities
             Library.nearest_probability_distribution
             Library.binary_probabilities (λ _ _, ∅) (λ _ _, [])
             (mitigator false true true false true) [tt] 100 [both 25 75]
             eq_refl).
  reflexivity.
Defined.

Lemma mitigate_unfolding_needs_circuits_witness :
  ideal_mitigate (mitigator false true true false false) [] 100
    [both 25 75] = Raise IndexError.
Proof.
  exact (mitigate_unfolding_needs_circuits Library.ideal_quasi_probabilities
           Library.nearest_probability_distribution
           Library.binary_probabilities (λ _ _, ∅) (λ _ _, [])
           (mitigator false true true false false) 100 [both 25 75]
           eq_refl eq_refl).
Defined.

Lemma generate_keeps_stored_witness :
  one_key_generate stored_once [tt; tt] = Ok (stored_once, [[tt]; [tt]]) ∧
  PEC.load "ibm_brisbane_0_0" (PEC.pec_table stored_once) = Some [tt].
Proof.
  assert (one_key_generate stored_once [tt; tt]
          = Ok (stored_once, [[tt]; [tt]])) as H by (vm_compute; reflexivity).
  split; [exact H|].
  exact (generate_keeps_stored (λ _, 0) (λ _, "{}"%string) (λ _, 0)
           always_succeeds (λ _, 4) noise_returns "ibm_brisbane" (2, 2)
           stored_once stored_once [tt; tt] 10000 _ "ibm_brisbane_0_0" [tt]
           H eq_refl).
Defined.

Lemma generate_constructs_sublist_witness :
  one_key_generate PEC.initial [tt; tt] = Ok (stored_once, [[tt]; [tt]]) ∧
  ∃ ran, PEC.constructed stored_once = [] ++ ran ∧
         ran `sublist_of` [tt; tt] ∧
         (length (PEC.constructed stored_once) ≤ 0 + 2)%nat.
Proof.
  assert (one_key_generate PEC.initial [tt; tt]
          = Ok (stored_once, [[tt]; [tt]])) as H by (vm_compute; reflexivity).
  split; [exact H|].
  exact (generate_constructs_sublist (λ _, 0) (λ _, "{}"%string) (λ _, 0)
           always_succeeds (λ _, 4) noise_returns "ibm_brisbane" (2, 2)
           PEC.initial stored_once [tt; tt] 10000 _ H).
Defined.

Lemma generate_all_stored_witness :
  one_key_generate stored_once [tt] = Ok (stored_once, [[tt]]) ∧
  PEC.generate_pec_representations (λ _ : unit, 0) (λ _, "{}"%string)
    (λ _, 0) always_succeeds (λ _, 4) noise_raises "ibm_brisbane" (2, 2)
    stored_once [tt] 10000 = Raise TypeError.
Proof.
  assert (Forall (λ c : unit,
                    is_Some (PEC.load
                               (PEC.get_key (λ _, 0) (λ _, "{}"%string)
                                  (λ _, 0) "ibm_brisbane" c)
                               (PEC.pec_table stored_once))) [tt]) as Hall.
  { constructor; [|constructor]. by eexists. }
  split.
  - unfold one_key_generate.
    rewrite (proj1 (generate_all_stored (λ _, 0) (λ _, "{}"%string) (λ _, 0)
                      always_succeeds (λ _, 4) noise_returns "ibm_brisbane"
                      (2, 2) stored_once [tt] 10000 Hall)); [reflexivity|].
    by eexists.
  - apply (proj2 (generate_all_stored (λ _, 0) (λ _, "{}"%string) (λ _, 0)
                    always_succeeds (λ _, 4) noise_raises "ibm_brisbane"
                    (2, 2) stored_once [tt] 10000 Hall)).
    reflexivity.
Defined.

Lemma generate_one_per_circuit_witness :
  ∃ st' reprs, one_key_generate PEC.initial [tt; tt] = Ok (st', reprs) ∧
               length reprs = 2%nat.
Proof.
  apply (proj2 (proj2 (generate_one_per_circuit (λ _, 0) (λ _, "{}"%string)
                         (λ _, 0) always_succeeds (λ _, 4) noise_returns
                         "ibm_brisbane" (2, 2) PEC.initial [tt; tt] 10000))).
  by eexists.
Defined.

Lemma readout_table_hit_witness :
  ∃ w1, demo_readout "ibm_brisbane" false empty_world = Some (w1, 0%nat) ∧
        demo_readout "ibm_brisbane" true w1 = Some (w1, 0%nat).
Proof.
  destruct (demo_readout "ibm_brisbane" false empty_world)
    as [[w1 d]|] eqn:H1; [|vm_compute in H1; discriminate].
  assert (d = 0%nat) as -> by (vm_compute in H1; by injection H1).
  exists w1. split; [done|].
  apply (readout_table_hit (λ b : string, b) (λ _ : nat, "ibm_brisbane"%string)
           (λ n : nat, n) (λ raw, raw) (λ n _, (n, n)) (λ raw _, raw)
           (2, 2) "ibm_brisbane"%string w1 0%nat 0%nat).
  vm_compute in H1. injection H1 as <-. reflexivity.
Defined.

Lemma readout_round_trip_witness :
  ∃ w1, demo_readout "ibm_brisbane" true empty_world = Some (w1, 0%nat) ∧
        Readout.experiments w1 = 1%nat ∧
        demo_readout "ibm_brisbane" true w1 = Some (w1, 0%nat).
Proof.
  apply (readout_round_trip (λ b : string, b)
           (λ _ : nat, "ibm_brisbane"%string) (λ n : nat, n) (λ raw, raw)
           (λ n _, (n, n)) (λ raw _, raw) (2, 2) "ibm_brisbane"%string
           "ibm_brisbane"%string true empty_world).
  - right. reflexivity.
  - reflexivity.
Defined.


Lemma pec_circuit_falls_back_witness :
  is_ok (Sampler.pec_circuit steady_run Ok (λ _ _ _, Raise ValueError) []
           tt [tt] 100 5000).2.
Proof.
  apply (pec_circuit_falls_back steady_run Ok (λ _ _ _, Raise ValueError)
           [] tt [tt] 100 5000).
  intros log'. by eexists.
Defined.

Lemma sample_and_combine_budget_witness :
  ∃ ran,
    (Sampler.sample_and_combine steady_run Ok two_samples [] tt [tt] 100
       5000).1 = [] ++ ran ∧
    Forall (λ p, p.2 = 100 `div` Z.of_nat (length [tt; tt]) ∧ 10 ≤ p.2) ran ∧
    shots_requested ran ≤ 100.
Proof.
  apply (sample_and_combine_budget steady_run Ok two_samples [] tt [tt] 100
           5000 [tt; tt]).
  - reflexivity.
  - done.
  - vm_compute. discriminate.
Defined.

(** ** [pec] as a whole *)

Section pec_facts.
Context {Circuit Repr Job : Type}.
Context (sampler_run : list (Circuit * Z) → Circuit → Z → result Job).
Context (get_counts : Job → result Hist).
Context (sample_circuits : Circuit → list Repr → Z → result (list Circuit)).
Context (depth : Circuit → Z) (gate_counts : Circuit → string).
Context (hash : string → Z).
Context (represent : nat → Circuit → Q → Z → option (list Repr)).
Context (num_qubits : Circuit → Z).
Context {Noise : Type}.
Context (initialized_depolarizing_noise : Q → Z → result Noise).
Context (backend_name : string).

Local Abbreviation pec :=
  (Sampler.pec sampler_run get_counts sample_circuits depth gate_counts hash
     represent num_qubits initialized_depolarizing_noise backend_name).

(** X25. [pec] raises a ValueError for an empty list of circuits; when it returns,
    it returns one histogram per circuit, equalized or not, with the pec
    label, and a table that still holds whatever it held before. *)
Theorem pec_one_per_circuit (self : Orchestrator.ErrorMitigator)
    (st : PEC.State) (log : list (Circuit * Z)) (circuits : list Circuit)
    (shots num_samples : Z) :
  pec self st log [] shots num_samples = Raise ValueError ∧
  ∀ st1 log1 mitigated_counts label,
    pec self st log circuits shots num_samples
      = Ok (st1, log1, mitigated_counts, label) →
    length mitigated_counts = length circuits ∧
    label = Orchestrator.label_for self "pec" ∧
    ∀ key r, PEC.load key (PEC.pec_table st) = Some r →
             PEC.load key (PEC.pec_table st1) = Some r.
Proof.
  split; [done|]. intros st1 log1 mitigated_counts label.
  unfold Sampler.pec.
  destruct (PEC.generate_pec_representations depth gate_counts hash represent
              num_qubits initialized_depolarizing_noise backend_name
              (Orchestrator.dims self) st circuits num_samples)
    as [[st' representations]|e] eqn:Hgen; [|done].
  cbn [mbind result_bind].
  destruct (Sampler.pec_loop sampler_run get_counts sample_circuits log
              (zip circuits representations) shots num_samples)
    as [log' [counts|e]] eqn:Hloop; [|done].
  cbn [mbind result_bind].
  assert (circuits ≠ [] ∧
          PEC.requests depth gate_counts hash represent backend_name
            (PEC.get_config backend_name (Orchestrator.dims self)) num_samples
            st circuits = (st', representations)) as [Hne Hreq].
  { by apply generate_Ok in Hgen as (? & _ & ?). }
  assert (length counts = length circuits) as Hlen.
  { pose proof (pec_loop_length sampler_run get_counts sample_circuits log
                  (zip circuits representations) shots num_samples counts)
      as Hl.
    rewrite Hloop in Hl. rewrite (Hl eq_refl), length_zip.
    pose proof (requests_length depth gate_counts hash represent backend_name
                  (PEC.get_config backend_name (Orchestrator.dims self))
                  num_samples st circuits) as Hr.
    rewrite Hreq in Hr. simpl in Hr. lia. }
  intros Hres.
  assert (∃ out, (if Orchestrator.equalization self
                  then Equalizer.equalize (Orchestrator.measured self)
                         (Orchestrator.dims self).1 (Orchestrator.dims self).2
                         counts shots
                  else Ok counts) = Ok out ∧
                 Ok (st', log', out, Orchestrator.label_for self "pec")
                 = Ok (st1, log1, mitigated_counts, label)) as (out & Hout & Heq).
  { destruct (if Orchestrator.equalization self then _ else _) as [out|e];
      [by exists out|done]. }
  injection Heq as -> -> -> <-.
  split_and!; [|done|].
  - destruct (Orchestrator.equalization self).
    + apply comprehension_length in Hout. by rewrite Hout.
    + by injection Hout as <-.
  - intros key r Hkey.
    pose proof (requests_keep depth gate_counts hash represent backend_name
                  (PEC.get_config backend_name (Orchestrator.dims self))
                  num_samples st circuits key r Hkey) as Hk.
    by rewrite Hreq in Hk.
Qed.
End pec_facts.

Lemma pec_one_per_circuit_witness :
  ∃ st1 log1 mitigated_counts,
    Sampler.pec steady_run Ok two_samples (λ _, 0) (λ _, "{}"%string)
      (λ _, 0) always_succeeds (λ _, 4) noise_returns "ibm_brisbane"
      (mitigator false false false false true) PEC.initial [] [tt; tt] 100
      5000 = Ok (st1, log1, mitigated_counts,
                 "pec-collisionless-2x2-ibm-qpu"%string) ∧
    length mitigated_counts = 2%nat.
Proof.
  destruct (Sampler.pec steady_run Ok two_samples (λ _, 0) (λ _, "{}"%string)
      (λ _, 0) always_succeeds (λ _, 4) noise_returns "ibm_brisbane"
      (mitigator false false false false true) PEC.initial [] [tt; tt] 100
      5000) as [[[[st1 log1] mitigated_counts] label]|e] eqn:H;
    [|vm_compute in H; discriminate].
  destruct (proj2 (pec_one_per_circuit steady_run Ok two_samples (λ _, 0)
                     (λ _, "{}"%string) (λ _, 0) always_succeeds (λ _, 4)
                     noise_returns "ibm_brisbane"
                     (mitigator false false false false true)
                     PEC.initial [] [tt; tt] 100 5000)
              st1 log1 mitigated_counts label H) as (Hlen & -> & _).
  exists st1, log1, mitigated_counts. split; [reflexivity|exact Hlen].
Defined.

Lemma mitigate_correction_then_unfolding_witness :
  ideal_mitigate (mitigator false true true false false) [tt] 100
    [both 25 75] =
  Ok ([∅], "rem-ibu-collisionless-2x2-ibm-qpu"%string).
Proof.
  unfold ideal_mitigate.
  rewrite (mitigate_correction_then_unfolding
             Library.ideal_quasi_probabilities
             Library.nearest_probability_distribution
             Library.binary_probabilities (λ _ _, ∅) (λ _ _, [])
             (mitigator false true true false false) [tt] 100 [both 25 75]
             eq_refl eq_refl eq_refl).
  reflexivity.
Defined.
